(** * Per-guild playback state machine of the Discord music bot (src/bot.js)

    The bot keeps one session object per guild in the table [queues] and
    mutates it from command handlers, from listeners of the audio player and
    from [setTimeout] callbacks.  The embedding below follows bot.js function
    by function.

    - Session objects live in a store ([heap]) and the table maps a guild id
      to the address of its object, so that closures which captured an object
      (the idle timer of [setIdleTimeout], a suspended [playNextTrack]) keep
      seeing it after the table entry is deleted or replaced.
    - Calls into the collaborators (play-dl, @discordjs/voice, the message
      channel) are recorded in the trace [out]; what the collaborators answer
      comes back as an [Event].
    - [playNextTrack] is an async function.  It runs up to
      [await play.stream(track.url)] ([playNextTrack]), is suspended there,
      and is resumed by [StreamReady] ([playNextTrack_resume]) or by
      [StreamFailed], which enters its catch block ([playNextTrack_catch]).
    - The command handlers are async functions too.  [step] runs a handler
      as one turn of the event loop: its awaits resolve before another
      handler runs.  [react], further down, also runs [commandPlay] from
      await to await (lines 324, 327 and 420), so that calls overlap, and
      lets the send of the Now Playing notice fail after the track has been
      started (line 214), which enters the catch block.  [commandPlay] as
      one turn is the three parts in a row ([commandPlay_phases]).
    - [player.stop()] belongs to @discordjs/voice.  Whether the player raises
      its Idle event inside the call or later, from its own cycle, is an
      input of the two commands that call it. *)

From stdpp Require Import gmap strings list fin_maps pretty.
From Stdlib Require Import ZArith Lia Ascii.

Local Open Scope Z_scope.

(** ** Configuration (bot.js lines 52-77) *)

Definition IDLE_TIMEOUT : Z := 300000.
Definition MAX_RETRIES : Z := 2.

Module LoopMode.
Definition OFF : Z := 0.
Definition TRACK : Z := 1.
Definition QUEUE : Z := 2.
End LoopMode.

(** ** Data *)

(** What [searchYouTube] returns for a hit. *)
Record VideoInfo := mkVideoInfo {
  vtitle : string;
  vurl : string;
  vduration : Z;
  vthumbnail : option string
}.

(** A queue entry: [{ ...videoInfo, requestedBy }]. *)
Record Track := mkTrack {
  title : string;
  url : string;
  duration : Z;
  thumbnail : option string;
  requestedBy : string
}.

(** The audio player of a session, as far as bot.js sees it: the guild id
    its Idle and error listeners were registered with (lines 385-399),
    once they are. *)
Record AudioPlayer := mkPlayer { listeners : option string }.

Definition createAudioPlayer : AudioPlayer := mkPlayer None.

(** The object stored in [queues] for one guild (lines 84-94). *)
Record GuildQueue := mkGuildQueue {
  queue : list Track;
  player : AudioPlayer;
  connection : option nat;
  currentTrack : option Track;
  isPlaying : bool;
  loopMode : Z;
  idleTimeout : option nat;
  textChannel : option string;
  retryCount : Z
}.

Definition set_queue (v : list Track) (s : GuildQueue) : GuildQueue :=
  mkGuildQueue v (player s) (connection s) (currentTrack s) (isPlaying s)
               (loopMode s) (idleTimeout s) (textChannel s) (retryCount s).
Definition set_player (v : AudioPlayer) (s : GuildQueue) : GuildQueue :=
  mkGuildQueue (queue s) v (connection s) (currentTrack s) (isPlaying s)
               (loopMode s) (idleTimeout s) (textChannel s) (retryCount s).
Definition set_connection (v : option nat) (s : GuildQueue) : GuildQueue :=
  mkGuildQueue (queue s) (player s) v (currentTrack s) (isPlaying s)
               (loopMode s) (idleTimeout s) (textChannel s) (retryCount s).
Definition set_currentTrack (v : option Track) (s : GuildQueue) : GuildQueue :=
  mkGuildQueue (queue s) (player s) (connection s) v (isPlaying s)
               (loopMode s) (idleTimeout s) (textChannel s) (retryCount s).
Definition set_isPlaying (v : bool) (s : GuildQueue) : GuildQueue :=
  mkGuildQueue (queue s) (player s) (connection s) (currentTrack s) v
               (loopMode s) (idleTimeout s) (textChannel s) (retryCount s).
Definition set_loopMode (v : Z) (s : GuildQueue) : GuildQueue :=
  mkGuildQueue (queue s) (player s) (connection s) (currentTrack s) (isPlaying s)
               v (idleTimeout s) (textChannel s) (retryCount s).
Definition set_idleTimeout (v : option nat) (s : GuildQueue) : GuildQueue :=
  mkGuildQueue (queue s) (player s) (connection s) (currentTrack s) (isPlaying s)
               (loopMode s) v (textChannel s) (retryCount s).
Definition set_textChannel (v : option string) (s : GuildQueue) : GuildQueue :=
  mkGuildQueue (queue s) (player s) (connection s) (currentTrack s) (isPlaying s)
               (loopMode s) (idleTimeout s) v (retryCount s).
Definition set_retryCount (v : Z) (s : GuildQueue) : GuildQueue :=
  mkGuildQueue (queue s) (player s) (connection s) (currentTrack s) (isPlaying s)
               (loopMode s) (idleTimeout s) (textChannel s) v.

(** The literal of [getQueue], lines 84-94. *)
Definition newQueue : GuildQueue :=
  mkGuildQueue [] createAudioPlayer None None false LoopMode.OFF None None 0.

(** The embeds the bot sends, by title, with the data they show. *)
Inductive Embed :=
| NowPlaying (t : Track) (mode : Z) (inQueue : nat)
| PlaybackError (t : Track)
| NotInVoiceChannel
| NoSongSpecified
| Searching
| NotFound
| MissingPermissions
| AddedToQueue (t : Track) (position : nat)
| NowPlayingReply (t : Track) (position : nat)
| NothingPlaying
| Skipped (t : Track)
| NothingToStop
| Stopped
| LoopModeChanged (mode : Z).

(** Calls into the collaborators, in the order they are made. *)
Inductive Output :=
| Stream (u : string)                    (* play.stream(track.url) *)
| PlayerPlay (q : nat) (t : Track)       (* queue.player.play(resource) *)
| PlayerStop (q : nat)                   (* queue.player.stop() *)
| JoinVoiceChannel (c : nat) (ch : string)
| ConnectionDestroy (c : nat)            (* queue.connection.destroy() *)
| Send (ch : string) (e : Embed)         (* queue.textChannel.send *)
| Reply (e : Embed).                     (* message.reply / searchMsg.edit *)

(** What a pending [setTimeout] will run. *)
Inductive Callback :=
| CbAdvance (guildId : string)           (* () => playNextTrack(guildId) *)
| CbIdle (guildId : string) (q : nat).   (* the closure of setIdleTimeout *)

Record Timer := mkTimer { callback : Callback; delay : Z }.

(** A [playNextTrack] invocation suspended at [await play.stream]: the
    locals [guildId], [queue] and [track] it will resume with. *)
Record Suspended := mkSuspended {
  s_guildId : string;
  s_queue : nat;
  s_track : Track
}.

Record World := mkWorld {
  queues : gmap string nat;
  heap : list GuildQueue;
  timers : gmap nat Timer;
  nextTimer : nat;
  suspended : gmap nat Suspended;
  nextSuspended : nat;
  nextConnection : nat;
  out : list Output
}.

Definition initial : World := mkWorld ∅ [] ∅ 0 ∅ 0 0 [].

Definition set_queues (v : gmap string nat) (w : World) : World :=
  mkWorld v (heap w) (timers w) (nextTimer w) (suspended w) (nextSuspended w)
          (nextConnection w) (out w).
Definition set_heap (v : list GuildQueue) (w : World) : World :=
  mkWorld (queues w) v (timers w) (nextTimer w) (suspended w) (nextSuspended w)
          (nextConnection w) (out w).
Definition set_timers (v : gmap nat Timer) (w : World) : World :=
  mkWorld (queues w) (heap w) v (nextTimer w) (suspended w) (nextSuspended w)
          (nextConnection w) (out w).
Definition set_suspended (v : gmap nat Suspended) (w : World) : World :=
  mkWorld (queues w) (heap w) (timers w) (nextTimer w) v (nextSuspended w)
          (nextConnection w) (out w).

(** A field assignment [queue.f = v] on the object at address [q]. *)
Definition modify (q : nat) (f : GuildQueue → GuildQueue) (w : World) : World :=
  set_heap (alter f q (heap w)) w.

Definition emit (o : Output) (w : World) : World :=
  mkWorld (queues w) (heap w) (timers w) (nextTimer w) (suspended w)
          (nextSuspended w) (nextConnection w) (out w ++ [o]).

Definition setTimeout (cb : Callback) (ms : Z) (w : World) : nat * World :=
  (nextTimer w,
   mkWorld (queues w) (heap w) (<[nextTimer w := mkTimer cb ms]> (timers w))
           (S (nextTimer w)) (suspended w) (nextSuspended w)
           (nextConnection w) (out w)).

Definition clearTimeout (t : nat) (w : World) : World :=
  set_timers (delete t (timers w)) w.

Definition suspend (k : Suspended) (w : World) : World :=
  mkWorld (queues w) (heap w) (timers w) (nextTimer w)
          (<[nextSuspended w := k]> (suspended w)) (S (nextSuspended w))
          (nextConnection w) (out w).

Definition joinVoiceChannel (ch : string) (w : World) : nat * World :=
  (nextConnection w,
   mkWorld (queues w) (heap w) (timers w) (nextTimer w) (suspended w)
           (nextSuspended w) (S (nextConnection w))
           (out w ++ [JoinVoiceChannel (nextConnection w) ch])).

(** ** bot.js, function by function *)

(** [getQueue], lines 82-97: the address of the guild's object, created
    and entered in the table when the guild has none. *)
Definition getQueue (guildId : string) (w : World) : nat * World :=
  match queues w !! guildId with
  | Some q => (q, w)
  | None =>
      let q := length (heap w) in
      (q, set_heap (heap w ++ [newQueue]) (set_queues (<[guildId := q]> (queues w)) w))
  end.

(** [clearIdleTimeout], lines 128-134. *)
Definition clearIdleTimeout (guildId : string) (w : World) : World :=
  match queues w !! guildId with
  | Some q =>
      match heap w !! q with
      | Some s =>
          match idleTimeout s with
          | Some t => modify q (set_idleTimeout None) (clearTimeout t w)
          | None => w
          end
      | None => w
      end
  | None => w
  end.

(** [setIdleTimeout], lines 139-150. *)
Definition setIdleTimeout (guildId : string) (w : World) : World :=
  let w := clearIdleTimeout guildId w in
  match queues w !! guildId with
  | None => w
  | Some q =>
      let '(t, w) := setTimeout (CbIdle guildId q) IDLE_TIMEOUT w in
      modify q (set_idleTimeout (Some t)) w
  end.

(** The closure armed by [setIdleTimeout], lines 144-149, over the object
    [q] it captured. *)
Definition idleExpired (guildId : string) (q : nat) (w : World) : World :=
  match heap w !! q with
  | Some s =>
      match connection s with
      | Some c => set_queues (delete guildId (queues w)) (emit (ConnectionDestroy c) w)
      | None => w
      end
  | None => w
  end.

(** Lines 169-177: the track to load and what is left in [queue.queue]. *)
Definition selectTrack (s : GuildQueue) (hd : Track) (tl : list Track)
  : Track * list Track :=
  match currentTrack s with
  | Some cur =>
      if loopMode s =? LoopMode.TRACK then (cur, hd :: tl)
      else if loopMode s =? LoopMode.QUEUE then (hd, tl ++ [hd])
      else (hd, tl)
  | None =>
      if loopMode s =? LoopMode.QUEUE then (hd, tl ++ [hd]) else (hd, tl)
  end.

(** [playNextTrack], lines 155-186: from the call to the await on
    [play.stream(track.url)]. *)
Definition playNextTrack (guildId : string) (w : World) : World :=
  let '(q, w) := getQueue guildId w in
  match heap w !! q with
  | None => w
  | Some s =>
      match queue s with
      | [] =>
          setIdleTimeout guildId
            (modify q (set_isPlaying false) (modify q (set_currentTrack None) w))
      | hd :: tl =>
          let w := clearIdleTimeout guildId w in
          let '(track, rest) := selectTrack s hd tl in
          let w := modify q (set_queue rest) w in
          let w := modify q (set_currentTrack (Some track)) w in
          let w := modify q (set_isPlaying true) w in
          let w := modify q (set_retryCount 0) w in
          suspend (mkSuspended guildId q track) (emit (Stream (url track)) w)
      end
  end.

(** [playNextTrack], lines 188-215: the rest of the try block, once the
    stream is there. *)
Definition playNextTrack_resume (k : Suspended) (w : World) : World :=
  let w := emit (PlayerPlay (s_queue k) (s_track k)) w in
  match heap w !! s_queue k with
  | Some s =>
      match textChannel s with
      | Some ch =>
          emit (Send ch (NowPlaying (s_track k) (loopMode s) (length (queue s)))) w
      | None => w
      end
  | None => w
  end.

(** [playNextTrack], lines 216-239: the catch block. *)
Definition playNextTrack_catch (k : Suspended) (w : World) : World :=
  match heap w !! s_queue k with
  | Some s =>
      if retryCount s <? MAX_RETRIES then
        let w := modify (s_queue k) (set_retryCount (retryCount s + 1)) w in
        (setTimeout (CbAdvance (s_guildId k)) 1000 w).2
      else
        let w := match textChannel s with
                 | Some ch => emit (Send ch (PlaybackError (s_track k))) w
                 | None => w
                 end in
        (setTimeout (CbAdvance (s_guildId k)) 500 w).2
  | None => w
  end.

(** The Idle listener of the player, lines 385-392, over the object [q]
    that owns the player. *)
Definition onIdle (q : nat) (w : World) : World :=
  match heap w !! q with
  | Some s =>
      match listeners (player s) with
      | Some guildId =>
          if negb (loopMode s =? LoopMode.TRACK) then playNextTrack guildId w
          else (setTimeout (CbAdvance guildId) 100 w).2
      | None => w
      end
  | None => w
  end.

(** The error listener of the player, lines 394-399. *)
Definition onError (q : nat) (w : World) : World :=
  match heap w !! q with
  | Some s =>
      match listeners (player s) with
      | Some guildId => playNextTrack guildId w
      | None => w
      end
  | None => w
  end.

(** [queue.player.stop()]: the call, and the Idle listener when the player
    raises Idle before the call returns. *)
Definition player_stop (raisesIdle : bool) (q : nat) (w : World) : World :=
  let w := emit (PlayerStop q) w in
  if raisesIdle then onIdle q w else w.

(** What a command handler reads of its [message]. *)
Record Message := mkMessage {
  guild_id : string;
  voice_channel : option string;
  author_tag : string;
  channel : string;
  can_connect : bool;
  can_speak : bool
}.

(** [commandPlay], lines 293-426; [found] is what [searchYouTube(query)]
    returned. *)
Definition commandPlay (message : Message) (args : list string)
    (found : option VideoInfo) (w : World) : World :=
  let guildId := guild_id message in
  let '(q, w) := getQueue guildId w in
  match voice_channel message with
  | None => emit (Reply NotInVoiceChannel) w
  | Some voiceChannel =>
      match args with
      | [] => emit (Reply NoSongSpecified) w
      | _ :: _ =>
          let w := emit (Reply Searching) w in
          match found with
          | None => emit (Reply NotFound) w
          | Some videoInfo =>
              let track := mkTrack (vtitle videoInfo) (vurl videoInfo)
                             (vduration videoInfo) (vthumbnail videoInfo)
                             (author_tag message) in
              let w := modify q (fun s => set_queue (queue s ++ [track]) s) w in
              let w := modify q (set_textChannel (Some (channel message))) w in
              let connected :=
                match heap w !! q with
                | Some s =>
                    match connection s with
                    | Some _ => Some w
                    | None =>
                        if negb (can_connect message) || negb (can_speak message)
                        then None
                        else
                          let '(c, w) := joinVoiceChannel voiceChannel w in
                          let w := modify q (set_connection (Some c)) w in
                          Some (modify q (set_player (mkPlayer (Some guildId))) w)
                    end
                | None => Some w
                end in
              match connected with
              | None => emit (Reply MissingPermissions) w
              | Some w =>
                  match heap w !! q with
                  | Some s =>
                      if isPlaying s then
                        emit (Reply (AddedToQueue track (length (queue s) + 1)%nat)) w
                      else
                        playNextTrack guildId
                          (emit (Reply (NowPlayingReply track (length (queue s)))) w)
                  | None => w
                  end
              end
          end
      end
  end.

(** [commandPlay] from await to await.  The handler suspends at line 324
    ([await message.reply]), at line 327 ([await searchYouTube(query)]) and
    at line 420 ([await searchMsg.edit]); other handlers run in between.
    What a suspended call keeps: its [message], the voice channel of the
    caller (read at line 297 and again at line 349; the message is taken as
    it arrived), the object [getQueue] returned at line 295 (the local
    [queue]) and what its search returns. *)
Record PlayCall := mkPlayCall {
  c_message : Message;
  c_voiceChannel : string;
  c_queue : nat;
  c_found : option VideoInfo
}.

(** Lines 293-324: up to the first await.  The call goes on when the
    caller is in a voice channel and the query is not empty. *)
Definition commandPlay_begin (message : Message) (args : list string) (w : World)
  : option (nat * string) * World :=
  let guildId := guild_id message in
  let '(q, w) := getQueue guildId w in
  match voice_channel message with
  | None => (None, emit (Reply NotInVoiceChannel) w)
  | Some voiceChannel =>
      match args with
      | [] => (None, emit (Reply NoSongSpecified) w)
      | _ :: _ => (Some (q, voiceChannel), emit (Reply Searching) w)
      end
  end.

(** Lines 329-420: from the result of the search to the await on the
    edited reply, on the object the call captured.  The call goes on
    unless nothing was found or the permissions are missing. *)
Definition commandPlay_found (c : PlayCall) (w : World) : bool * World :=
  let message := c_message c in
  let guildId := guild_id message in
  let q := c_queue c in
  match c_found c with
  | None => (false, emit (Reply NotFound) w)
  | Some videoInfo =>
      let track := mkTrack (vtitle videoInfo) (vurl videoInfo)
                     (vduration videoInfo) (vthumbnail videoInfo)
                     (author_tag message) in
      let w := modify q (fun s => set_queue (queue s ++ [track]) s) w in
      let w := modify q (set_textChannel (Some (channel message))) w in
      let connected :=
        match heap w !! q with
        | Some s =>
            match connection s with
            | Some _ => Some w
            | None =>
                if negb (can_connect message) || negb (can_speak message)
                then None
                else
                  let '(cn, w) := joinVoiceChannel (c_voiceChannel c) w in
                  let w := modify q (set_connection (Some cn)) w in
                  Some (modify q (set_player (mkPlayer (Some guildId))) w)
            end
        | None => Some w
        end in
      match connected with
      | None => (false, emit (Reply MissingPermissions) w)
      | Some w =>
          match heap w !! q with
          | Some s =>
              (true,
               emit (Reply (if isPlaying s
                            then AddedToQueue track (length (queue s) + 1)%nat
                            else NowPlayingReply track (length (queue s)))) w)
          | None => (true, w)
          end
      end
  end.

(** Lines 422-425: after the reply is edited, [queue.isPlaying] is read
    again on the captured object. *)
Definition commandPlay_finish (c : PlayCall) (w : World) : World :=
  match heap w !! c_queue c with
  | Some s => if isPlaying s then w else playNextTrack (guild_id (c_message c)) w
  | None => w
  end.

(** [commandSkip], lines 431-475. *)
Definition commandSkip (message : Message) (raisesIdle : bool) (w : World) : World :=
  let guildId := guild_id message in
  match voice_channel message with
  | None => emit (Reply NotInVoiceChannel) w
  | Some _ =>
      match q ← queues w !! guildId; s ← heap w !! q; Some (q, s) with
      | None => emit (Reply NothingPlaying) w
      | Some (q, s) =>
          if negb (isPlaying s) then emit (Reply NothingPlaying) w
          else
            let skippedTrack := currentTrack s in
            let wasLooping := loopMode s =? LoopMode.TRACK in
            let w := if wasLooping then modify q (set_loopMode LoopMode.OFF) w else w in
            let w := player_stop raisesIdle q w in
            let w := if wasLooping then modify q (set_loopMode LoopMode.TRACK) w else w in
            match skippedTrack with
            | Some t => emit (Reply (Skipped t)) w
            | None => w
            end
      end
  end.

(** [commandStop], lines 480-518. *)
Definition commandStop (message : Message) (raisesIdle : bool) (w : World) : World :=
  let guildId := guild_id message in
  match voice_channel message with
  | None => emit (Reply NotInVoiceChannel) w
  | Some _ =>
      match q ← queues w !! guildId; s ← heap w !! q; c ← connection s; Some (q, c) with
      | None => emit (Reply NothingToStop) w
      | Some (q, c) =>
          let w := modify q (set_queue []) w in
          let w := modify q (set_currentTrack None) w in
          let w := modify q (set_isPlaying false) w in
          let w := player_stop raisesIdle q w in
          let w := emit (ConnectionDestroy c) w in
          let w := clearIdleTimeout guildId w in
          let w := set_queues (delete guildId (queues w)) w in
          emit (Reply Stopped) w
      end
  end.

(** [commandLoop], lines 714-739. *)
Definition commandLoop (message : Message) (w : World) : World :=
  let guildId := guild_id message in
  match q ← queues w !! guildId; s ← heap w !! q; _ ← currentTrack s; Some (q, s) with
  | None => emit (Reply NothingPlaying) w
  | Some (q, s) =>
      let mode := Z.rem (loopMode s + 1) 3 in
      emit (Reply (LoopModeChanged mode)) (modify q (set_loopMode mode) w)
  end.

(** ** The event loop *)

Inductive Event :=
| Play (message : Message) (args : list string) (found : option VideoInfo)
| Skip (message : Message) (raisesIdle : bool)
| Stop (message : Message) (raisesIdle : bool)
| Loop (message : Message)
| StreamReady (k : nat)
| StreamFailed (k : nat)
| TimerFired (t : nat)
| PlayerIdle (q : nat)
| PlayerError (q : nat).

Definition fire (cb : Callback) (w : World) : World :=
  match cb with
  | CbAdvance guildId => playNextTrack guildId w
  | CbIdle guildId q => idleExpired guildId q w
  end.

(** One turn of the event loop.  A timer runs once and only while it is
    pending; a suspended [playNextTrack] is resumed once. *)
Definition step (w : World) (e : Event) : World :=
  match e with
  | Play message args found => commandPlay message args found w
  | Skip message raisesIdle => commandSkip message raisesIdle w
  | Stop message raisesIdle => commandStop message raisesIdle w
  | Loop message => commandLoop message w
  | StreamReady k =>
      match suspended w !! k with
      | Some inv => playNextTrack_resume inv (set_suspended (delete k (suspended w)) w)
      | None => w
      end
  | StreamFailed k =>
      match suspended w !! k with
      | Some inv => playNextTrack_catch inv (set_suspended (delete k (suspended w)) w)
      | None => w
      end
  | TimerFired t =>
      match timers w !! t with
      | Some tm => fire (callback tm) (clearTimeout t w)
      | None => w
      end
  | PlayerIdle q => onIdle q w
  | PlayerError q => onError q w
  end.

Definition run (es : list Event) (w : World) : World := foldl step w es.

(** ** The event loop, with the awaits of %play and of the Now Playing
    notice *)

(** Where a call of [commandPlay] is suspended. *)
Inductive Await :=
| AwaitReply (c : PlayCall)      (* line 324 *)
| AwaitSearch (c : PlayCall)     (* line 327 *)
| AwaitEdit (c : PlayCall).      (* line 420 *)

(** The world, the calls of [commandPlay] that are suspended, and the calls
    of [playNextTrack] that have started their track and wait, inside the
    try block, for [queue.textChannel.send] (line 214). *)
Record Bot := mkBot {
  world : World;
  plays : gmap nat Await;
  nextPlay : nat;
  sends : gmap nat Suspended
}.

Definition boot : Bot := mkBot initial ∅ 0 ∅.

Inductive Input :=
| Base (e : Event)
| PlayBegin (message : Message) (args : list string) (found : option VideoInfo)
| PlayResume (p : nat)           (* the promise call p waits for resolves *)
| SendFailed (k : nat).          (* the send of line 214 is rejected *)

(** The call of [playNextTrack] that [StreamReady k] resumes, when it then
    waits for the Now Playing notice to be sent. *)
Definition awaits_send (k : nat) (w : World) : option Suspended :=
  inv ← suspended w !! k;
  s ← heap w !! s_queue inv;
  _ ← textChannel s;
  Some inv.

(** One turn of the event loop.  [Base (Play ...)] is a %play none of
    whose awaits lets another handler in; [PlayBegin] and [PlayResume] run
    it from await to await.  [Base (StreamFailed k)] is any failure of the
    try block before the track is started: the stream is refused, or
    [createAudioResource] or [player.play] throws when it arrives.  A
    rejected send enters the catch block of the call that made it, lines
    216-239, after the track has been started. *)
Definition react (b : Bot) (i : Input) : Bot :=
  match i with
  | Base e =>
      mkBot (step (world b) e) (plays b) (nextPlay b)
            (match e with
             | StreamReady k =>
                 match awaits_send k (world b) with
                 | Some inv => <[k := inv]> (sends b)
                 | None => sends b
                 end
             | _ => sends b
             end)
  | PlayBegin message args found =>
      match commandPlay_begin message args (world b) with
      | (Some (q, voiceChannel), w) =>
          mkBot w (<[nextPlay b := AwaitReply (mkPlayCall message voiceChannel q found)]>
                     (plays b))
                (S (nextPlay b)) (sends b)
      | (None, w) => mkBot w (plays b) (nextPlay b) (sends b)
      end
  | PlayResume p =>
      match plays b !! p with
      | Some (AwaitReply c) =>
          mkBot (world b) (<[p := AwaitSearch c]> (plays b)) (nextPlay b) (sends b)
      | Some (AwaitSearch c) =>
          match commandPlay_found c (world b) with
          | (true, w) => mkBot w (<[p := AwaitEdit c]> (plays b)) (nextPlay b) (sends b)
          | (false, w) => mkBot w (delete p (plays b)) (nextPlay b) (sends b)
          end
      | Some (AwaitEdit c) =>
          mkBot (commandPlay_finish c (world b)) (delete p (plays b)) (nextPlay b) (sends b)
      | None => b
      end
  | SendFailed k =>
      match sends b !! k with
      | Some inv =>
          mkBot (playNextTrack_catch inv (world b)) (plays b) (nextPlay b)
                (delete k (sends b))
      | None => b
      end
  end.

Definition serve (inputs : list Input) (b : Bot) : Bot := foldl react b inputs.

(** The session of a guild, through the table. *)
Definition session (guildId : string) (w : World) : option GuildQueue :=
  q ← queues w !! guildId; heap w !! q.

(** The guard of [commandStop], line 493: the guild's object and its
    connection, when there is a session and it has one. *)
Definition active (guildId : string) (w : World) : option (nat * nat) :=
  q ← queues w !! guildId; s ← heap w !! q; c ← connection s; Some (q, c).

(** The track [commandPlay] builds from a search hit, lines 339-342. *)
Definition trackOf (message : Message) (v : VideoInfo) : Track :=
  mkTrack (vtitle v) (vurl v) (vduration v) (vthumbnail v) (author_tag message).

(** The URLs handed to [play.stream], in order: the resolution attempts. *)
Definition attempts (o : list Output) : list string :=
  omap (fun x => match x with Stream u => Some u | _ => None end) o.

(** The tracks given up on by the catch block (the Playback Error embed). *)
Definition givenUp (o : list Output) : list Track :=
  omap (fun x => match x with Send _ (PlaybackError t) => Some t | _ => None end) o.

(** ** Concrete inputs used in the examples *)

Definition songA : VideoInfo := mkVideoInfo "A" "https://youtu.be/a" 215 None.
Definition songB : VideoInfo := mkVideoInfo "B" "https://youtu.be/b" 187 None.
Definition songC : VideoInfo := mkVideoInfo "C" "https://youtu.be/c" 242 None.

(** A member of guild g, sitting in voice channel vc, writing in #music;
    the bot may connect and speak there. *)
Definition alice : Message := mkMessage "g" (Some "vc") "alice#0001" "music" true true.

(** The same member outside any voice channel. *)
Definition alice_away : Message := mkMessage "g" None "alice#0001" "music" true true.

Definition trackA : Track := trackOf alice songA.
Definition trackB : Track := trackOf alice songB.
Definition trackC : Track := trackOf alice songC.

(** ** Notions used in the statements *)

(** The four assignments of lines 173-181, as one update of the object. *)
Definition load (track : Track) (rest : list Track) (s : GuildQueue) : GuildQueue :=
  set_retryCount 0 (set_isPlaying true (set_currentTrack (Some track) (set_queue rest s))).

(** The two assignments of lines 160-161. *)
Definition unload (s : GuildQueue) : GuildQueue :=
  set_isPlaying false (set_currentTrack None s).

(** The claim as the specification words it: cycleLoopMode moves every
    session one step along OFF, TRACK, QUEUE, OFF. *)
Definition cycle_always_advances : Prop :=
  ∀ message w s,
    session (guild_id message) w = Some s →
    loopMode s = LoopMode.OFF →
    loopMode <$> session (guild_id message) (commandLoop message w)
      = Some LoopMode.TRACK.

(** [evolves R w w']: every entry of the table is still there, and every
    object of the store is still there, related by [R] to what it was. *)
Definition evolves (R : GuildQueue → GuildQueue → Prop) (w w' : World) : Prop :=
  (∀ g q, queues w !! g = Some q → queues w' !! g = Some q)
  ∧ (∀ q s, heap w !! q = Some s → ∃ s', heap w' !! q = Some s' ∧ R s s').

Definition same_loopMode (s s' : GuildQueue) : Prop := loopMode s' = loopMode s.


(** What [commandStop] leaves of the object, lines 503-505. *)
Definition cleared (s : GuildQueue) : Prop :=
  queue s = [] ∧ currentTrack s = None ∧ isPlaying s = false.

Definition stays_cleared (s s' : GuildQueue) : Prop := cleared s → cleared s'.

(** No session holds timer [t] as its idle timer. *)
Definition not_idle_timer (t : nat) (w : World) : Prop :=
  Forall (fun s => idleTimeout s ≠ Some t) (heap w).

(** Timer [t] is pending with [tm], was handed out by [setTimeout], and is
    not the idle timer of any session: a retry timer, or the replay timer
    of the Idle listener. *)
Definition pending (t : nat) (tm : Timer) (w : World) : Prop :=
  timers w !! t = Some tm ∧ (t < nextTimer w)%nat ∧ not_idle_timer t w.

(** A session that plays A with nothing queued: %play A, stream ready. *)
Definition playingA : World :=
  run [Play alice ["A"%string] (Some songA); StreamReady 0%nat] initial.

(** A plays in TRACK loop mode, B is queued. *)
Definition loopingA : World :=
  run [Play alice ["B"%string] (Some songB); Loop alice] playingA.

(** The stream of A failed once: the retry timer 0 is pending. *)
Definition retryingA : World :=
  run [Play alice ["A"%string] (Some songA); StreamFailed 0%nat] initial.

(** Three invocations of the advancer in flight at once in QUEUE mode: A
    plays, B and C are queued, the mode is cycled to QUEUE; the player
    reports an error and then goes Idle (two invocations, for B and for C);
    the stream of B arrives and B plays; the player reports an error and
    goes Idle again (two more, for B and for C).  Then the three pending
    streams fail one after the other. *)
Definition threeFailures : list Event :=
  [Play alice ["A"%string] (Some songA); StreamReady 0%nat;
   Play alice ["B"%string] (Some songB); Play alice ["C"%string] (Some songC);
   Loop alice; Loop alice;
   PlayerError 0%nat; PlayerIdle 0%nat; StreamReady 1%nat;
   PlayerError 0%nat; PlayerIdle 0%nat;
   StreamFailed 2%nat; StreamFailed 3%nat; StreamFailed 4%nat].

(** The second half of C3 as the specification words it: in QUEUE mode a
    track the catch block has just given up on is not in the queue. *)
Definition error_skip_discards : Prop :=
  ∀ es ch t g s,
    last (out (run es initial)) = Some (Send ch (PlaybackError t)) →
    session g (run es initial) = Some s →
    loopMode s = LoopMode.QUEUE →
    t ∉ queue s.

(** Lines 344-345 of [commandPlay]: the push and the text channel. *)
Definition enqueued (message : Message) (track : Track) (s : GuildQueue) : GuildQueue :=
  set_textChannel (Some (channel message)) (set_queue (queue s ++ [track]) s).

(** Lines 363-369 and 385-399: the connection and the listeners. *)
Definition joined (guildId : string) (c : nat) (s : GuildQueue) : GuildQueue :=
  set_player (mkPlayer (Some guildId)) (set_connection (Some c) s).

(** Lines 406-425 of [commandPlay] for the object as it was before the
    push: the edited reply, and the advancer unless something plays. *)
Definition announce (message : Message) (track : Track) (s : GuildQueue) (w : World) : World :=
  if isPlaying s then
    emit (Reply (AddedToQueue track (length (queue s ++ [track]) + 1)%nat)) w
  else
    playNextTrack (guild_id message)
      (emit (Reply (NowPlayingReply track (length (queue s ++ [track])))) w).





(** The guild has no session, or one that [getQueue] has just created. *)
Definition vacant (g : string) (w : World) : Prop :=
  match queues w !! g with
  | None => True
  | Some q => heap w !! q = Some newQueue
  end.

(** A plays with the loop off, B and C are queued. *)
Definition queuedBC : World :=
  run [Play alice ["B"%string] (Some songB); Play alice ["C"%string] (Some songC)] playingA.

(** A plays in TRACK loop mode and nothing is queued. *)
Definition loopingA_alone : World := run [Loop alice] playingA.

(** A plays in QUEUE loop mode, B is queued. *)
Definition cyclingA : World :=
  run [Play alice ["B"%string] (Some songB); Loop alice; Loop alice] playingA.

(** The object of guild g. *)
Definition the_session (w : World) : GuildQueue :=
  default newQueue (session "g"%string w).

(** ** Properties of session objects and of the table *)

(** The playing flag is set exactly when there is a current track. *)
Definition playing_matches_current (s : GuildQueue) : Prop :=
  isPlaying s = true ↔ is_Some (currentTrack s).

(** The loop mode is one of the three values of [LoopMode]. *)
Definition loopMode_valid (s : GuildQueue) : Prop :=
  loopMode s = LoopMode.OFF ∨ loopMode s = LoopMode.TRACK ∨ loopMode s = LoopMode.QUEUE.

Definition retryCount_bounded (s : GuildQueue) : Prop :=
  0 ≤ retryCount s ≤ MAX_RETRIES.

Definition same_player (s s' : GuildQueue) : Prop := player s' = player s.

(** The table is in order: every entry refers to an object of the store,
    no two guilds share an object, and the listeners of a guild's player
    were registered with that guild's id. *)
Definition tidy (w : World) : Prop :=
  (∀ g q, queues w !! g = Some q → is_Some (heap w !! q))
  ∧ (∀ g1 g2 q, queues w !! g1 = Some q → queues w !! g2 = Some q → g1 = g2)
  ∧ (∀ g q s g', queues w !! g = Some q → heap w !! q = Some s →
                 listeners (player s) = Some g' → g' = g).

(** [w'] has for guild [g] the table entry and the object that [w] has. *)
Definition spares (g : string) (w w' : World) : Prop :=
  queues w' !! g = queues w !! g
  ∧ (∀ q, queues w !! g = Some q → heap w' !! q = heap w !! q).

(** The guild a command is issued in. *)
Definition guild_of (e : Event) : option string :=
  match e with
  | Play message _ _ | Skip message _ | Stop message _ | Loop message =>
      Some (guild_id message)
  | _ => None
  end.

(** A member of another guild, h, in a voice channel there. *)
Definition bob : Message := mkMessage "h" (Some "lounge") "bob#0002" "general" true true.

(** Guild g plays A, guild h plays B. *)
Definition twoGuilds : list Event :=
  [Play alice ["A"%string] (Some songA); StreamReady 0%nat;
   Play bob ["B"%string] (Some songB); StreamReady 1%nat].

(** A member of guild g in a voice channel where the bot may not speak. *)
Definition carol : Message := mkMessage "g" (Some "stage") "carol#0003" "music" true false.

(** A plays in QUEUE loop mode; B, C and A are queued. *)
Definition cyclingABC : World :=
  run [Play alice ["B"%string] (Some songB); Play alice ["C"%string] (Some songC);
       Play alice ["A"%string] (Some songA); Loop alice; Loop alice] playingA.

(** Every pending idle timer is the one recorded in the session object it
    was armed on, and the playing flag of that object is not set. *)
Definition idle_ok (w : World) : Prop :=
  ∀ t g q ms,
    timers w !! t = Some (mkTimer (CbIdle g q) ms) →
    ∃ s, heap w !! q = Some s ∧ idleTimeout s = Some t ∧ isPlaying s = false.

(** A is played to its end with nothing queued behind it. *)
Definition playedOut : list Event :=
  [Play alice ["A"%string] (Some songA); StreamReady 0%nat; PlayerIdle 0%nat].

(** The call [k] of [playNextTrack] waits for its stream. *)
Definition awaiting (k : nat) (inv : Suspended) (w : World) : Prop :=
  suspended w !! k = Some inv ∧ (k < nextSuspended w)%nat.

(** What [player.stop()] and its Idle listener leave of a session that
    %stop has cleared. *)
Definition stays_stopped (s s' : GuildQueue) : Prop :=
  (cleared s → cleared s')
  ∧ textChannel s' = textChannel s
  ∧ loopMode s' = loopMode s.

(** %stop arrives while the stream of A is being fetched. *)
Definition fetchingA : World := run [Play alice ["A"%string] (Some songA)] initial.

(** ** Durations as text *)

(** [s.padStart(2, '0')]. *)
Definition padStart2 (s : string) : string :=
  String.concat "" (replicate (2 - String.length s) "0"%string) +:+ s.

(** [formatDuration], lines 102-112, on a whole number of seconds. *)
Definition formatDuration (seconds : Z) : string :=
  if seconds =? 0 then "00:00"
  else
    let hours := seconds / 3600 in
    let minutes := Z.rem seconds 3600 / 60 in
    let secs := Z.rem seconds 60 in
    if 0 <? hours then
      pretty hours +:+ ":" +:+ padStart2 (pretty minutes) +:+ ":" +:+ padStart2 (pretty secs)
    else pretty minutes +:+ ":" +:+ padStart2 (pretty secs).

(** Whether a string holds a colon. *)
Fixpoint has_colon (s : string) : bool :=
  match s with
  | EmptyString => false
  | String c s => if decide (c = ":"%char) then true else has_colon s
  end.

(** The two-digit fields of the numbers below sixty, pairwise distinct. *)
Definition two_digit_fields_differ : bool :=
  forallb (fun x => forallb (fun y =>
    implb (String.eqb (padStart2 (pretty (Z.of_nat x))) (padStart2 (pretty (Z.of_nat y))))
          (Nat.eqb x y)) (seq 0 60)) (seq 0 60).

(** ** %play calls that overlap *)














(** A plays with the loop off, B is queued. *)
Definition queuedB : World := run [Play alice ["B"%string] (Some songB)] playingA.
(** ** Basic facts about the store *)

Lemma heap_modify q f w : heap (modify q f w) = alter f q (heap w).
Proof. reflexivity. Qed.

Lemma lookup_modify_eq q f w s :
  heap w !! q = Some s → heap (modify q f w) !! q = Some (f s).
Proof. intros H. rewrite heap_modify, list_lookup_alter_eq, H. reflexivity. Qed.

Lemma lookup_modify_ne q q' f w :
  q ≠ q' → heap (modify q f w) !! q' = heap w !! q'.
Proof. intros H. rewrite heap_modify. by apply list_lookup_alter_ne. Qed.

Lemma set_loopMode_id s : set_loopMode (loopMode s) s = s.
Proof. by destruct s. Qed.

Lemma modify_modify q f g w : modify q f (modify q g w) = modify q (f ∘ g) w.
Proof. unfold modify. simpl. by rewrite list_alter_alter_eq. Qed.

Lemma lookup_snoc {A} (l : list A) (x : A) : (l ++ [x]) !! length l = Some x.
Proof. by apply list_lookup_middle. Qed.

Lemma alter_snoc {A} (f : A → A) (l : list A) (x : A) :
  alter f (length l) (l ++ [x]) = l ++ [f x].
Proof.
  replace (length l) with (length l + 0)%nat at 1 by lia.
  by rewrite alter_app_r.
Qed.

(** *** The functions on a guild whose object is known *)

Lemma getQueue_present g w q : queues w !! g = Some q → getQueue g w = (q, w).
Proof. intros H. unfold getQueue. by rewrite H. Qed.

Lemma getQueue_absent g w :
  queues w !! g = None →
  getQueue g w =
    (length (heap w),
     set_heap (heap w ++ [newQueue])
              (set_queues (<[g := length (heap w)]> (queues w)) w)).
Proof. intros H. unfold getQueue. by rewrite H. Qed.

Lemma getQueue_entry g w : queues (getQueue g w).2 !! g = Some (getQueue g w).1.
Proof.
  unfold getQueue. destruct (queues w !! g) eqn:H; simpl; [done|].
  apply lookup_insert_eq.
Qed.

Lemma clearIdleTimeout_at g w q s :
  queues w !! g = Some q → heap w !! q = Some s →
  clearIdleTimeout g w =
    match idleTimeout s with
    | Some t => modify q (set_idleTimeout None) (clearTimeout t w)
    | None => w
    end.
Proof. intros Hq Hs. unfold clearIdleTimeout. by rewrite Hq, Hs. Qed.

(** Whatever [clearIdleTimeout] does, an object keeps all its fields but
    [idleTimeout]. *)
Lemma clearIdleTimeout_lookup g w q s :
  heap w !! q = Some s →
  ∃ v, heap (clearIdleTimeout g w) !! q = Some (set_idleTimeout v s).
Proof.
  intros Hs. unfold clearIdleTimeout.
  assert (Hid : heap w !! q = Some (set_idleTimeout (idleTimeout s) s))
    by (rewrite Hs; by destruct s).
  destruct (queues w !! g) as [q0|]; [|eauto].
  destruct (heap w !! q0) as [s0|] eqn:Hs0; [|eauto].
  destruct (idleTimeout s0) as [t|]; [|eauto].
  destruct (decide (q0 = q)) as [->|Hne].
  - exists None. rewrite heap_modify, list_lookup_alter_eq. simpl.
    rewrite Hs. reflexivity.
  - exists (idleTimeout s). rewrite heap_modify, list_lookup_alter_ne by done.
    exact Hid.
Qed.

Lemma clearIdleTimeout_queues g w : queues (clearIdleTimeout g w) = queues w.
Proof.
  unfold clearIdleTimeout.
  destruct (queues w !! g) as [q|]; [|done].
  destruct (heap w !! q) as [s|]; [|done].
  by destruct (idleTimeout s).
Qed.

Lemma clearIdleTimeout_out g w : out (clearIdleTimeout g w) = out w.
Proof.
  unfold clearIdleTimeout.
  destruct (queues w !! g) as [q|]; [|done].
  destruct (heap w !! q) as [s|]; [|done].
  by destruct (idleTimeout s).
Qed.

Lemma playNextTrack_at g w q s :
  queues w !! g = Some q → heap w !! q = Some s →
  playNextTrack g w =
    match queue s with
    | [] => setIdleTimeout g (modify q unload w)
    | hd :: tl =>
        suspend (mkSuspended g q (selectTrack s hd tl).1)
          (emit (Stream (url (selectTrack s hd tl).1))
             (modify q (load (selectTrack s hd tl).1 (selectTrack s hd tl).2)
                     (clearIdleTimeout g w)))
    end.
Proof.
  intros Hq Hs. unfold playNextTrack. rewrite (getQueue_present _ _ _ Hq), Hs.
  destruct (queue s) as [|hd tl].
  - by rewrite modify_modify.
  - destruct (selectTrack s hd tl) as [track rest]. simpl.
    by rewrite !modify_modify.
Qed.

Lemma playNextTrack_absent g w :
  queues w !! g = None →
  playNextTrack g w = setIdleTimeout g (modify (length (heap w)) unload (getQueue g w).2).
Proof.
  intros Hq. unfold playNextTrack. rewrite (getQueue_absent _ _ Hq). simpl.
  rewrite lookup_snoc. simpl. by rewrite modify_modify.
Qed.

(** ** %loop *)

Lemma commandLoop_accepted message w q s t :
  queues w !! guild_id message = Some q →
  heap w !! q = Some s →
  currentTrack s = Some t →
  commandLoop message w =
    emit (Reply (LoopModeChanged (Z.rem (loopMode s + 1) 3)))
         (modify q (set_loopMode (Z.rem (loopMode s + 1) 3)) w).
Proof.
  intros Hq Hs Ht. unfold commandLoop. rewrite Hq. simpl. rewrite Hs. simpl.
  rewrite Ht. reflexivity.
Qed.

Lemma commandLoop_rejected message w :
  (∀ q s, queues w !! guild_id message = Some q → heap w !! q = Some s →
          currentTrack s = None) →
  commandLoop message w = emit (Reply NothingPlaying) w.
Proof.
  intros H. unfold commandLoop.
  destruct (queues w !! guild_id message) as [q|] eqn:Hq; simpl; [|done].
  destruct (heap w !! q) as [s|] eqn:Hs; simpl; [|done].
  by rewrite (H q s).
Qed.

(** C10, as stated, fails: %play with a query that finds nothing leaves a
    session without a current track; %loop on it is refused with Nothing
    Playing and the mode stays OFF. *)
Lemma commandLoop_gated : ¬ cycle_always_advances.
Proof.
  intros H.
  specialize (H alice (commandPlay alice ["nothing"%string] None initial) newQueue).
  vm_compute in H. specialize (H eq_refl eq_refl). discriminate H.
Qed.

(** C10 (amended): on a guild whose session has a current track, %loop
    moves the loop mode one step along OFF, TRACK, QUEUE, OFF, replies with
    the new mode and changes nothing else: the table, the timers and every
    other field and object are as before; three applications in a row give
    back the session as it was. *)
Theorem commandLoop_cycles message w q s t :
  queues w !! guild_id message = Some q →
  heap w !! q = Some s →
  currentTrack s = Some t →
  0 ≤ loopMode s < 3 →
  let next := if loopMode s =? LoopMode.OFF then LoopMode.TRACK
              else if loopMode s =? LoopMode.TRACK then LoopMode.QUEUE
              else LoopMode.OFF in
  let w' := commandLoop message w in
  heap w' = <[q := set_loopMode next s]> (heap w)
  ∧ queues w' = queues w
  ∧ timers w' = timers w
  ∧ suspended w' = suspended w
  ∧ out w' = out w ++ [Reply (LoopModeChanged next)]
  ∧ heap (commandLoop message (commandLoop message w')) = heap w.
Proof.
  intros Hq Hs Ht Hm next w'.
  assert (Hnext : Z.rem (loopMode s + 1) 3 = next).
  { subst next. unfold LoopMode.OFF, LoopMode.TRACK, LoopMode.QUEUE.
    assert (loopMode s = 0 ∨ loopMode s = 1 ∨ loopMode s = 2) as [E|[E|E]] by lia;
      rewrite E; reflexivity. }
  assert (Hw' : w' = emit (Reply (LoopModeChanged next)) (modify q (set_loopMode next) w)).
  { subst w'. rewrite (commandLoop_accepted _ _ _ _ _ Hq Hs Ht), Hnext. reflexivity. }
  assert (Hh : heap w' = <[q := set_loopMode next s]> (heap w)).
  { rewrite Hw'. simpl. apply list_eq. intros i.
    destruct (decide (q = i)) as [<-|Hne].
    - rewrite list_lookup_alter_eq, Hs, list_lookup_insert_eq; [done|].
      by eapply lookup_lt_Some.
    - by rewrite list_lookup_alter_ne, list_lookup_insert_ne. }
  repeat split; try (rewrite Hw'; reflexivity); [exact Hh|].
  assert (Hs1 : heap w' !! q = Some (set_loopMode next s)).
  { rewrite Hh. apply list_lookup_insert_eq. by eapply lookup_lt_Some. }
  assert (Hq1 : queues w' !! guild_id message = Some q) by (rewrite Hw'; exact Hq).
  rewrite (commandLoop_accepted _ _ _ _ t Hq1 Hs1 Ht).
  set (n2 := Z.rem (loopMode (set_loopMode next s) + 1) 3).
  set (w2 := emit _ _).
  assert (Hs2 : heap w2 !! q = Some (set_loopMode n2 (set_loopMode next s))).
  { subst w2. simpl. by rewrite list_lookup_alter_eq, Hs1. }
  rewrite (commandLoop_accepted _ w2 q _ t Hq1 Hs2 Ht).
  simpl. rewrite Hh.
  apply list_eq. intros i. destruct (decide (q = i)) as [<-|Hne].
  - rewrite !list_lookup_alter_eq, list_lookup_insert_eq by (by eapply lookup_lt_Some).
    rewrite Hs. simpl. f_equal. subst n2. simpl.
    assert (Z.rem (Z.rem (Z.rem (loopMode s + 1) 3 + 1) 3 + 1) 3 = loopMode s) as E.
    { assert (loopMode s = 0 ∨ loopMode s = 1 ∨ loopMode s = 2) as [E|[E|E]] by lia;
        rewrite E; reflexivity. }
    rewrite <- Hnext. rewrite E. by destruct s.
  - by rewrite !list_lookup_alter_ne, list_lookup_insert_ne.
Qed.

(** The amended C10 at a session that plays A: Play, stream ready, then
    %loop. *)
Lemma commandLoop_cycles_witness :
  let w := run [Play alice ["A"%string] (Some songA); StreamReady 0%nat] initial in
  heap (commandLoop alice (commandLoop alice (commandLoop alice w))) = heap w.
Proof.
  intros w.
  refine (proj2 (proj2 (proj2 (proj2 (proj2
    (commandLoop_cycles alice w 0%nat
       (mkGuildQueue [] (mkPlayer (Some "g"%string)) (Some 0%nat) (Some trackA) true 0 None
                     (Some "music"%string) 0)
       trackA _ _ _ _)))))); [reflexivity | reflexivity | reflexivity | simpl; lia].
Defined.

(** ** Frame properties of the advancer *)

Section Frame.
Variable R : GuildQueue → GuildQueue → Prop.
Hypothesis R_refl : ∀ s, R s s.
Hypothesis R_trans : ∀ s1 s2 s3, R s1 s2 → R s2 s3 → R s1 s3.

Local Abbreviation evolves := (evolves R).

Lemma evolves_refl w : evolves w w.
Proof. split; eauto. Qed.

Lemma evolves_trans w1 w2 w3 : evolves w1 w2 → evolves w2 w3 → evolves w1 w3.
Proof.
  intros [T1 H1] [T2 H2]. split; [eauto|].
  intros q s Hs. destruct (H1 q s Hs) as (s2 & Hs2 & R12).
  destruct (H2 q s2 Hs2) as (s3 & Hs3 & R23). eauto.
Qed.

Lemma evolves_same w w' :
  queues w' = queues w → heap w' = heap w → evolves w w'.
Proof. intros Hq Hh. split; rewrite ?Hq, ?Hh; eauto. Qed.

Lemma evolves_modify q f w :
  (∀ s, heap w !! q = Some s → R s (f s)) → evolves w (modify q f w).
Proof.
  intros Hf. split; [done|]. intros q' s Hs.
  destruct (decide (q = q')) as [<-|Hne].
  - exists (f s). split; [by apply lookup_modify_eq | by apply Hf].
  - exists s. split; [by rewrite lookup_modify_ne | apply R_refl].
Qed.

Lemma evolves_getQueue g w : evolves w (getQueue g w).2.
Proof.
  unfold getQueue. destruct (queues w !! g) as [q|] eqn:Hq; simpl.
  - apply evolves_refl.
  - split; simpl.
    + intros g' q' H. destruct (decide (g = g')) as [<-|Hne]; [congruence|].
      by rewrite lookup_insert_ne.
    + intros q' s Hs. exists s. split; [by apply lookup_app_l_Some | apply R_refl].
Qed.

Hypothesis R_idleTimeout : ∀ v s, R s (set_idleTimeout v s).

Lemma evolves_clearIdleTimeout g w : evolves w (clearIdleTimeout g w).
Proof.
  split; [by rewrite clearIdleTimeout_queues|].
  intros q s Hs. destruct (clearIdleTimeout_lookup g w q s Hs) as [v Hv]. eauto.
Qed.

Lemma evolves_setIdleTimeout g w : evolves w (setIdleTimeout g w).
Proof.
  unfold setIdleTimeout.
  eapply evolves_trans; [apply (evolves_clearIdleTimeout g)|].
  destruct (queues (clearIdleTimeout g w) !! g) as [q|]; [|apply evolves_refl].
  simpl. eapply evolves_trans; [|apply evolves_modify; auto].
  by apply evolves_same.
Qed.

Hypothesis R_unload : ∀ s, queue s = [] → R s (unload s).
Hypothesis R_load : ∀ s track rest, queue s ≠ [] → R s (load track rest s).

Lemma evolves_playNextTrack g w : evolves w (playNextTrack g w).
Proof.
  pose proof (evolves_getQueue g w) as H0.
  pose proof (getQueue_entry g w) as Hq.
  assert (E : playNextTrack g w = playNextTrack g (getQueue g w).2).
  { unfold playNextTrack at 2. rewrite (getQueue_present _ _ _ Hq).
    unfold playNextTrack. by destruct (getQueue g w). }
  rewrite E. eapply evolves_trans; [exact H0|].
  destruct (getQueue g w) as [q w0]. simpl in *.
  destruct (heap w0 !! q) as [s|] eqn:Hs.
  - rewrite (playNextTrack_at _ _ _ _ Hq Hs).
    destruct (queue s) as [|hd tl] eqn:Hqueue.
    + eapply evolves_trans; [|apply evolves_setIdleTimeout].
      apply evolves_modify. intros s' Hs'.
      assert (s' = s) by congruence. subst s'. by apply R_unload.
    + eapply evolves_trans; [apply (evolves_clearIdleTimeout g)|].
      eapply evolves_trans; [|by apply evolves_same].
      apply evolves_modify. intros s' Hs'.
      destruct (clearIdleTimeout_lookup g w0 q s Hs) as [v Hv].
      assert (s' = set_idleTimeout v s) by congruence. subst s'.
      apply R_load. simpl. by rewrite Hqueue.
  - unfold playNextTrack. rewrite (getQueue_present _ _ _ Hq), Hs.
    apply evolves_refl.
Qed.

Lemma evolves_onIdle q w : evolves w (onIdle q w).
Proof.
  unfold onIdle.
  destruct (heap w !! q) as [s|]; [|apply evolves_refl].
  destruct (listeners (player s)) as [g|]; [|apply evolves_refl].
  destruct (negb _); [apply evolves_playNextTrack | by apply evolves_same].
Qed.

Lemma evolves_player_stop b q w : evolves w (player_stop b q w).
Proof.
  unfold player_stop. destruct b.
  - eapply evolves_trans; [|apply evolves_onIdle]. by apply evolves_same.
  - by apply evolves_same.
Qed.
End Frame.

(** ** %skip and the loop mode *)

Lemma player_stop_same_loopMode b q w : evolves same_loopMode w (player_stop b q w).
Proof.
  apply evolves_player_stop; unfold same_loopMode; try done; congruence.
Qed.

(** C9: %skip leaves the loop mode of every session as it found it, whether
    the command is refused or carried out, in every loop mode, and whether
    the player raises Idle inside [stop()] or later; the guild keeps its
    table entry. *)
Theorem commandSkip_keeps_loopMode message raisesIdle w g q s :
  queues w !! g = Some q →
  heap w !! q = Some s →
  let w' := commandSkip message raisesIdle w in
  queues w' !! g = Some q
  ∧ ∃ s', heap w' !! q = Some s' ∧ loopMode s' = loopMode s.
Proof.
  intros Hq Hs w'. subst w'. unfold commandSkip.
  destruct (voice_channel message) as [vc|]; [|simpl; eauto].
  destruct (queues w !! guild_id message) as [q0|] eqn:Hq0; simpl; [|eauto].
  destruct (heap w !! q0) as [s0|] eqn:Hs0; simpl; [|eauto].
  destruct (isPlaying s0); simpl; [|eauto].
  assert (Hend : ∀ w1 : World,
    (queues w1 !! g = Some q ∧ ∃ s', heap w1 !! q = Some s' ∧ loopMode s' = loopMode s) →
    let w2 := match currentTrack s0 with
              | Some t => emit (Reply (Skipped t)) w1
              | None => w1
              end in
    queues w2 !! g = Some q ∧ ∃ s', heap w2 !! q = Some s' ∧ loopMode s' = loopMode s).
  { intros w1 H. destruct (currentTrack s0); exact H. }
  apply Hend.
  destruct (loopMode s0 =? LoopMode.TRACK) eqn:Hmode.
  - apply Z.eqb_eq in Hmode.
    set (w0 := modify q0 (set_loopMode LoopMode.OFF) w).
    destruct (player_stop_same_loopMode raisesIdle q0 w0) as [Ht Hh].
    split; [apply Ht; exact Hq|].
    destruct (decide (q0 = q)) as [->|Hne].
    + assert (s0 = s) by congruence. subst s0.
      destruct (Hh q (set_loopMode LoopMode.OFF s)) as (s1 & Hs1 & _).
      { subst w0. by apply lookup_modify_eq. }
      exists (set_loopMode LoopMode.TRACK s1). split; [by apply lookup_modify_eq|].
      simpl. congruence.
    + destruct (Hh q s) as (s1 & Hs1 & E1).
      { subst w0. by rewrite lookup_modify_ne. }
      exists s1. split; [by rewrite lookup_modify_ne | exact E1].
  - destruct (player_stop_same_loopMode raisesIdle q0 w) as [Ht Hh].
    split; [by apply Ht | by apply Hh].
Qed.

(** ** %play *)

(** %play with a hit on a guild that has no table entry: the session is
    created, the bot joins, and the advancer starts on the one track. *)
Lemma commandPlay_fresh message a args v w vc :
  queues w !! guild_id message = None →
  voice_channel message = Some vc →
  can_connect message = true →
  can_speak message = true →
  commandPlay message (a :: args) (Some v) w =
    mkWorld (<[guild_id message := length (heap w)]> (queues w))
            (heap w ++ [mkGuildQueue [] (mkPlayer (Some (guild_id message)))
                          (Some (nextConnection w)) (Some (trackOf message v)) true
                          LoopMode.OFF None (Some (channel message)) 0])
            (timers w) (nextTimer w)
            (<[nextSuspended w :=
                 mkSuspended (guild_id message) (length (heap w)) (trackOf message v)]>
               (suspended w))
            (S (nextSuspended w)) (S (nextConnection w))
            (out w ++ [Reply Searching; JoinVoiceChannel (nextConnection w) vc;
                       Reply (NowPlayingReply (trackOf message v) 1);
                       Stream (vurl v)]).
Proof.
  intros Hq Hvc Hc Hs. unfold commandPlay.
  rewrite (getQueue_absent _ _ Hq), Hvc. unfold modify. simpl.
  rewrite !alter_snoc, lookup_snoc. simpl. rewrite Hc, Hs. simpl.
  rewrite ?alter_snoc, ?lookup_snoc. simpl.
  unfold playNextTrack, getQueue. simpl. rewrite lookup_insert_eq. simpl.
  rewrite lookup_snoc. simpl.
  unfold clearIdleTimeout. simpl. rewrite lookup_insert_eq, lookup_snoc. simpl.
  unfold modify. simpl. rewrite ?alter_snoc. simpl.
  unfold suspend, emit. simpl. rewrite <- !app_assoc. reflexivity.
Qed.

(** ** %stop *)

Lemma player_stop_stays_cleared b q w : evolves stays_cleared w (player_stop b q w).
Proof.
  apply evolves_player_stop; unfold stays_cleared, cleared; simpl; try tauto.
  all: intros s track rest Hne [Hq _]; done.
Qed.

Lemma active_Some g w q c :
  active g w = Some (q, c) →
  queues w !! g = Some q ∧ ∃ s, heap w !! q = Some s ∧ connection s = Some c.
Proof.
  unfold active. intros H.
  destruct (queues w !! g) as [q0|]; simpl in H; [|done].
  destruct (heap w !! q0) as [s|] eqn:Hs; simpl in H; [|done].
  destruct (connection s) as [c0|] eqn:Hc; simpl in H; [|done].
  inversion H; subst. eauto.
Qed.

(** An accepted %stop removes the table entry and keeps the object. *)
Lemma commandStop_removes message raisesIdle w vc q c :
  voice_channel message = Some vc →
  active (guild_id message) w = Some (q, c) →
  queues (commandStop message raisesIdle w) !! guild_id message = None
  ∧ is_Some (heap (commandStop message raisesIdle w) !! q).
Proof.
  intros Hvc Hact. unfold commandStop. rewrite Hvc.
  change (q ← queues w !! guild_id message; s ← heap w !! q; c ← connection s; Some (q, c))
    with (active (guild_id message) w).
  rewrite Hact.
  destruct (active_Some _ _ _ _ Hact) as (Hq & s & Hs & Hc).
  rewrite !modify_modify.
  set (w0 := modify q _ w).
  assert (Hs0 : is_Some (heap w0 !! q)).
  { eexists. subst w0. by apply lookup_modify_eq. }
  destruct Hs0 as [s0 Hs0].
  destruct (player_stop_stays_cleared raisesIdle q w0) as [_ Hh].
  destruct (Hh q s0 Hs0) as (s1 & Hs1 & _).
  set (w1 := player_stop raisesIdle q w0) in *.
  destruct (clearIdleTimeout_lookup (guild_id message) (emit (ConnectionDestroy c) w1)
              q s1 Hs1) as [v Hs3].
  split; [simpl; apply lookup_delete_eq|]. by eexists.
Qed.

(** C7: %stop from a caller in a voice channel.  On a guild whose session
    has a transport connection it empties the queue, clears the current
    track and the playing flag, destroys the connection and deletes the
    table entry; a following %play that finds its song then builds the
    session anew: nothing queued behind the new current track, loop mode
    OFF, a new connection.  On a guild without a session, or whose session
    has no connection, it only answers that there is nothing to stop. *)
Theorem commandStop_spec message raisesIdle w vc :
  voice_channel message = Some vc →
  let g := guild_id message in
  let w' := commandStop message raisesIdle w in
  match active g w with
  | Some (q, c) =>
      queues w' !! g = None
      ∧ (∃ s', heap w' !! q = Some s' ∧ queue s' = [] ∧ currentTrack s' = None
               ∧ isPlaying s' = false)
      ∧ (∃ o, out w' = o ++ [ConnectionDestroy c; Reply Stopped])
      ∧ (∀ message' a args v vc',
           guild_id message' = g →
           voice_channel message' = Some vc' →
           can_connect message' = true →
           can_speak message' = true →
           session g (commandPlay message' (a :: args) (Some v) w')
           = Some (mkGuildQueue [] (mkPlayer (Some g)) (Some (nextConnection w'))
                     (Some (trackOf message' v)) true LoopMode.OFF None
                     (Some (channel message')) 0))
  | None => w' = emit (Reply NothingToStop) w
  end.
Proof.
  intros Hvc g w'. subst w'. unfold commandStop. rewrite Hvc. fold g.
  change (q ← queues w !! g; s ← heap w !! q; c ← connection s; Some (q, c))
    with (active g w).
  destruct (active g w) as [[q c]|] eqn:Hact; [|reflexivity].
  destruct (active_Some _ _ _ _ Hact) as (Hq & s & Hs & Hc).
  rewrite !modify_modify.
  set (w0 := modify q _ w).
  assert (Hs0 : ∃ s0, heap w0 !! q = Some s0 ∧ cleared s0).
  { eexists. split; [subst w0; by apply lookup_modify_eq|]. by unfold cleared. }
  destruct Hs0 as (s0 & Hs0 & Hcl0).
  destruct (player_stop_stays_cleared raisesIdle q w0) as [Ht Hh].
  destruct (Hh q s0 Hs0) as (s1 & Hs1 & Hcl1).
  specialize (Hcl1 Hcl0).
  set (w1 := player_stop raisesIdle q w0) in *.
  set (w2 := emit (ConnectionDestroy c) w1).
  assert (Hs2 : heap w2 !! q = Some s1) by exact Hs1.
  destruct (clearIdleTimeout_lookup g w2 q s1 Hs2) as [v Hs3].
  set (w3 := clearIdleTimeout g w2) in *.
  assert (Hgone : queues (emit (Reply Stopped) (set_queues (delete g (queues w3)) w3)) !! g = None).
  { simpl. apply lookup_delete_eq. }
  split; [exact Hgone|].
  split.
  { exists (set_idleTimeout v s1). split; [exact Hs3|].
    destruct Hcl1 as (? & ? & ?). by simpl. }
  split.
  { exists (out w1). simpl. subst w3. rewrite clearIdleTimeout_out. simpl.
    by rewrite <- app_assoc. }
  intros message' a args v' vc' Hg Hvc' Hcc Hcs.
  rewrite <- Hg in Hgone |- *.
  rewrite (commandPlay_fresh _ _ _ _ _ _ Hgone Hvc' Hcc Hcs).
  unfold session. simpl. rewrite lookup_insert_eq. simpl.
  by rewrite lookup_snoc.
Qed.

(** ** Timers that survive the advancer and %stop *)

Section Pending.
Variables (t : nat) (tm : Timer).

Local Abbreviation pending := (pending t tm).

Lemma pending_same w w' :
  timers w' = timers w → nextTimer w' = nextTimer w → heap w' = heap w →
  pending w → pending w'.
Proof. unfold pending, not_idle_timer. intros -> -> ->. done. Qed.

Lemma pending_modify q f w :
  (∀ s, idleTimeout s ≠ Some t → idleTimeout (f s) ≠ Some t) →
  pending w → pending (modify q f w).
Proof.
  intros Hf (Ht & Hlt & Hn). split; [done|]. split; [done|].
  unfold not_idle_timer in *. rewrite heap_modify.
  apply Forall_lookup. intros i s Hs.
  rewrite Forall_lookup in Hn.
  destruct (decide (q = i)) as [<-|Hne].
  - rewrite list_lookup_alter_eq in Hs.
    destruct (heap w !! q) as [s0|] eqn:Hs0; simpl in Hs; [|done].
    inversion Hs; subst. apply Hf. by eapply Hn.
  - rewrite list_lookup_alter_ne in Hs by done. by eapply Hn.
Qed.

Lemma pending_getQueue g w : pending w → pending (getQueue g w).2.
Proof.
  intros (Ht & Hlt & Hn). unfold getQueue.
  destruct (queues w !! g); simpl; [done|].
  split; [done|]. split; [done|].
  unfold not_idle_timer in *. simpl. apply Forall_app. split; [done|].
  by repeat constructor.
Qed.

Lemma pending_clearIdleTimeout g w : pending w → pending (clearIdleTimeout g w).
Proof.
  intros H. unfold clearIdleTimeout.
  destruct (queues w !! g) as [q|]; [|done].
  destruct (heap w !! q) as [s|] eqn:Hs; [|done].
  destruct (idleTimeout s) as [t'|] eqn:Hid; [|done].
  apply pending_modify; [done|].
  destruct H as (Ht & Hlt & Hn). split; [|done].
  simpl. rewrite lookup_delete_ne; [done|].
  intros ->. unfold not_idle_timer in Hn. rewrite Forall_lookup in Hn.
  by apply (Hn q s Hs).
Qed.

Lemma pending_setTimeout cb ms w : pending w → pending (setTimeout cb ms w).2.
Proof.
  intros (Ht & Hlt & Hn). split; [|split]; simpl; [|lia|done].
  rewrite lookup_insert_ne; [done|lia].
Qed.

Lemma pending_setIdleTimeout g w : pending w → pending (setIdleTimeout g w).
Proof.
  intros H. apply (pending_clearIdleTimeout g) in H. unfold setIdleTimeout.
  destruct (queues (clearIdleTimeout g w) !! g) as [q|]; [|done].
  pose proof (pending_setTimeout (CbIdle g q) IDLE_TIMEOUT _ H) as H'.
  simpl in *. apply pending_modify; [|exact H'].
  intros s _. simpl. destruct H as (_ & Hlt & _). intros [= E]. lia.
Qed.

Lemma pending_emit o w : pending w → pending (emit o w).
Proof. intros H. exact (pending_same w _ eq_refl eq_refl eq_refl H). Qed.

Lemma pending_suspend k w : pending w → pending (suspend k w).
Proof. intros H. exact (pending_same w _ eq_refl eq_refl eq_refl H). Qed.

Lemma pending_set_queues v w : pending w → pending (set_queues v w).
Proof. intros H. exact (pending_same w _ eq_refl eq_refl eq_refl H). Qed.

Lemma pending_playNextTrack g w : pending w → pending (playNextTrack g w).
Proof.
  intros H. apply (pending_getQueue g) in H. unfold playNextTrack.
  destruct (getQueue g w) as [q w0]. simpl in H.
  destruct (heap w0 !! q) as [s|]; [|done].
  destruct (queue s) as [|hd tl].
  - apply pending_setIdleTimeout. do 2 (apply pending_modify; [done|]). exact H.
  - destruct (selectTrack s hd tl) as [track rest].
    apply (pending_clearIdleTimeout g) in H.
    apply pending_suspend, pending_emit.
    do 4 (apply pending_modify; [done|]). exact H.
Qed.

Lemma pending_player_stop b q w : pending w → pending (player_stop b q w).
Proof.
  intros H. unfold player_stop.
  apply (pending_emit (PlayerStop q)) in H.
  destruct b; [|done]. unfold onIdle.
  destruct (heap _ !! q) as [s|]; [|done].
  destruct (listeners (player s)) as [g|]; [|done].
  destruct (negb _); [by apply pending_playNextTrack | by apply pending_setTimeout].
Qed.

Lemma pending_commandStop message b w : pending w → pending (commandStop message b w).
Proof.
  intros H. unfold commandStop.
  destruct (voice_channel message); [|by apply pending_emit].
  destruct (_ ≫= _) as [[q c]|]; [|by apply pending_emit].
  apply pending_emit, pending_set_queues, pending_clearIdleTimeout, pending_emit,
    pending_player_stop.
  do 3 (apply pending_modify; [done|]). exact H.
Qed.
End Pending.

(** The advancer on a guild without a table entry: [getQueue] enters a
    new object, the queue is empty, and the idle timer is armed on it. *)
Lemma playNextTrack_recreates g w :
  queues w !! g = None →
  playNextTrack g w =
    mkWorld (<[g := length (heap w)]> (queues w))
            (heap w ++ [set_idleTimeout (Some (nextTimer w)) newQueue])
            (<[nextTimer w := mkTimer (CbIdle g (length (heap w))) IDLE_TIMEOUT]> (timers w))
            (S (nextTimer w)) (suspended w) (nextSuspended w) (nextConnection w) (out w).
Proof.
  intros Hq. rewrite (playNextTrack_absent _ _ Hq), (getQueue_absent _ _ Hq).
  unfold modify. simpl. rewrite alter_snoc.
  unfold setIdleTimeout, clearIdleTimeout. simpl.
  rewrite lookup_insert_eq, lookup_snoc. simpl.
  rewrite lookup_insert_eq. simpl. unfold modify. simpl.
  by rewrite alter_snoc.
Qed.

(** C8: %stop does not cancel a pending retry timer.  When the timer
    fires after the stop, the advancer enters a new object for the guild in
    the table, without a connection, although nobody asked to play; its
    queue is empty, so the idle timer is armed on it, and when that one
    expires the entry stays, because only a session with a connection is
    removed. *)
Theorem retry_timer_outlives_stop message raisesIdle w vc q c t ms :
  voice_channel message = Some vc →
  active (guild_id message) w = Some (q, c) →
  pending t (mkTimer (CbAdvance (guild_id message)) ms) w →
  let g := guild_id message in
  let w1 := commandStop message raisesIdle w in
  let w2 := step w1 (TimerFired t) in
  let w3 := step w2 (TimerFired (nextTimer w1)) in
  queues w1 !! g = None
  ∧ timers w1 !! t = Some (mkTimer (CbAdvance g) ms)
  ∧ queues w2 !! g = Some (length (heap w1))
  ∧ heap w2 !! length (heap w1) = Some (set_idleTimeout (Some (nextTimer w1)) newQueue)
  ∧ (q < length (heap w1))%nat
  ∧ timers w2 !! nextTimer w1 = Some (mkTimer (CbIdle g (length (heap w1))) IDLE_TIMEOUT)
  ∧ session g w3 = Some (set_idleTimeout (Some (nextTimer w1)) newQueue).
Proof.
  intros Hvc Hact Hp g w1 w2 w3.
  destruct (commandStop_removes message raisesIdle w vc q c Hvc Hact) as [Hgone [s' Hs']].
  fold g w1 in Hgone, Hs'.
  pose proof (pending_commandStop t _ message raisesIdle w Hp) as (Ht & Hlt & _).
  fold w1 in Ht, Hlt.
  assert (Hq : queues (clearTimeout t w1) !! g = None) by exact Hgone.
  assert (E2 : w2 = playNextTrack g (clearTimeout t w1)).
  { subst w2. simpl. by rewrite Ht. }
  rewrite (playNextTrack_recreates _ _ Hq) in E2. simpl in E2.
  assert (E3 : w3 = clearTimeout (nextTimer w1) w2).
  { subst w3. simpl. rewrite E2 at 1 2. simpl. rewrite lookup_insert_eq. simpl.
    unfold idleExpired. rewrite E2. simpl. by rewrite lookup_snoc. }
  split; [exact Hgone|]. split; [exact Ht|].
  rewrite E3, E2. unfold session. simpl.
  rewrite !lookup_insert_eq, lookup_snoc. simpl. rewrite lookup_snoc.
  repeat split; try done.
  by eapply lookup_lt_Some.
Qed.

(** ** The statements above at concrete sessions *)

(** C9 at a session looping A, with Idle raised inside [stop()]. *)
Lemma commandSkip_keeps_loopMode_witness :
  queues (commandSkip alice true loopingA) !! "g"%string = Some 0%nat
  ∧ ∃ s', heap (commandSkip alice true loopingA) !! 0%nat = Some s'
          ∧ loopMode s' = LoopMode.TRACK.
Proof.
  apply (commandSkip_keeps_loopMode alice true loopingA "g"%string 0%nat
           (mkGuildQueue [trackB] (mkPlayer (Some "g"%string)) (Some 0%nat) (Some trackA)
                         true LoopMode.TRACK None (Some "music"%string) 0));
    vm_compute; reflexivity.
Defined.

(** C7 at the session playing A. *)
Lemma commandStop_spec_witness :
  queues (commandStop alice false playingA) !! "g"%string = None.
Proof.
  pose proof (commandStop_spec alice false playingA "vc"%string eq_refl) as H.
  simpl in H.
  change (active "g"%string playingA) with (Some (0%nat, 0%nat)) in H.
  exact (proj1 H).
Defined.

(** C8: %play A, the stream fails, %stop, the retry timer fires. *)
Lemma retry_timer_outlives_stop_witness :
  let w1 := commandStop alice false retryingA in
  queues w1 !! "g"%string = None
  ∧ session "g"%string (step w1 (TimerFired 0%nat))
    = Some (set_idleTimeout (Some 1%nat) newQueue).
Proof.
  assert (H : pending 0%nat (mkTimer (CbAdvance "g"%string) 1000) retryingA).
  { split; [reflexivity|]. split; [vm_compute; lia|].
    unfold not_idle_timer. vm_compute. repeat constructor. discriminate. }
  pose proof (retry_timer_outlives_stop alice false retryingA "vc"%string
                0%nat 0%nat 0%nat 1000 eq_refl eq_refl H) as H'.
  simpl in H'. destruct H' as (H1 & _ & H3 & H4 & _).
  split; [exact H1|].
  unfold session. simpl. rewrite H3. simpl. exact H4.
Defined.

(** ** The advancer on a known session *)

Lemma setIdleTimeout_at g w q s :
  queues w !! g = Some q → heap w !! q = Some s →
  let w' := setIdleTimeout g w in
  queues w' = queues w
  ∧ heap w' !! q = Some (set_idleTimeout (Some (nextTimer w)) s)
  ∧ timers w' !! nextTimer w = Some (mkTimer (CbIdle g q) IDLE_TIMEOUT)
  ∧ (∀ t, idleTimeout s ≠ Some t → t ≠ nextTimer w → timers w' !! t = timers w !! t)
  ∧ (∀ t, idleTimeout s = Some t → t ≠ nextTimer w → timers w' !! t = None)
  ∧ nextTimer w' = S (nextTimer w)
  ∧ suspended w' = suspended w
  ∧ nextSuspended w' = nextSuspended w
  ∧ out w' = out w.
Proof.
  intros Hq Hs w'. subst w'. unfold setIdleTimeout.
  rewrite clearIdleTimeout_queues, Hq.
  rewrite (clearIdleTimeout_at _ _ _ _ Hq Hs).
  destruct (idleTimeout s) as [t0|] eqn:Hid; simpl.
  - rewrite !list_lookup_alter_eq, Hs. simpl.
    repeat split; try done.
    + apply lookup_insert_eq.
    + intros t Ht Hne. rewrite lookup_insert_ne by done.
      rewrite lookup_delete_ne; [done|congruence].
    + intros t [= ->] Hne. rewrite lookup_insert_ne by done.
      apply lookup_delete_eq.
  - rewrite list_lookup_alter_eq, Hs. simpl.
    repeat split; try done.
    + apply lookup_insert_eq.
    + intros t _ Hne. by rewrite lookup_insert_ne.
Qed.

(** Lines 158-164 on a session whose queue is empty. *)
Lemma playNextTrack_empty g w q s :
  queues w !! g = Some q → heap w !! q = Some s → queue s = [] →
  let w' := playNextTrack g w in
  queues w' = queues w
  ∧ heap w' !! q = Some (set_idleTimeout (Some (nextTimer w)) (unload s))
  ∧ timers w' !! nextTimer w = Some (mkTimer (CbIdle g q) IDLE_TIMEOUT)
  ∧ (∀ t, idleTimeout s = Some t → t ≠ nextTimer w → timers w' !! t = None)
  ∧ suspended w' = suspended w
  ∧ out w' = out w.
Proof.
  intros Hq Hs Hempty w'. subst w'.
  rewrite (playNextTrack_at _ _ _ _ Hq Hs), Hempty.
  assert (Hs' : heap (modify q unload w) !! q = Some (unload s))
    by (by apply lookup_modify_eq).
  destruct (setIdleTimeout_at g (modify q unload w) q (unload s) Hq Hs')
    as (H1 & H2 & H3 & _ & H5 & _ & H7 & _ & H9).
  repeat split; try done.
Qed.

(** Lines 166-186 on a session with something queued. *)
Lemma playNextTrack_select g w q s hd tl :
  queues w !! g = Some q → heap w !! q = Some s → queue s = hd :: tl →
  let w' := playNextTrack g w in
  let track := (selectTrack s hd tl).1 in
  let rest := (selectTrack s hd tl).2 in
  queues w' = queues w
  ∧ heap w' !! q = Some (load track rest (set_idleTimeout None s))
  ∧ (∀ t, idleTimeout s = Some t → timers w' !! t = None)
  ∧ (∀ t, idleTimeout s ≠ Some t → timers w' !! t = timers w !! t)
  ∧ nextTimer w' = nextTimer w
  ∧ suspended w' = <[nextSuspended w := mkSuspended g q track]> (suspended w)
  ∧ nextSuspended w' = S (nextSuspended w)
  ∧ out w' = out w ++ [Stream (url track)].
Proof.
  intros Hq Hs Hqueue w' track rest. subst w'.
  rewrite (playNextTrack_at _ _ _ _ Hq Hs), Hqueue. fold track rest.
  rewrite (clearIdleTimeout_at _ _ _ _ Hq Hs).
  destruct (idleTimeout s) as [t0|] eqn:Hid; simpl.
  - rewrite !list_lookup_alter_eq, Hs. simpl.
    repeat split; try done.
    + intros t [= ->]. apply lookup_delete_eq.
    + intros t Hne. rewrite lookup_delete_ne; [done|congruence].
  - rewrite list_lookup_alter_eq, Hs. simpl.
    repeat split; try done.
    by rewrite <- Hid; destruct s.
Qed.

(** The catch block while retries are left, lines 220-224. *)
Lemma playNextTrack_catch_retry k w s :
  heap w !! s_queue k = Some s → retryCount s < MAX_RETRIES →
  playNextTrack_catch k w =
    (setTimeout (CbAdvance (s_guildId k)) 1000
       (modify (s_queue k) (set_retryCount (retryCount s + 1)) w)).2.
Proof.
  intros Hs Hlt. unfold playNextTrack_catch. rewrite Hs.
  by rewrite (proj2 (Z.ltb_lt _ _) Hlt).
Qed.

(** The catch block when none is left, lines 226-238. *)
Lemma playNextTrack_catch_giveUp k w s :
  heap w !! s_queue k = Some s → MAX_RETRIES ≤ retryCount s →
  playNextTrack_catch k w =
    (setTimeout (CbAdvance (s_guildId k)) 500
       match textChannel s with
       | Some ch => emit (Send ch (PlaybackError (s_track k))) w
       | None => w
       end).2.
Proof.
  intros Hs Hge. unfold playNextTrack_catch. rewrite Hs.
  by rewrite (proj2 (Z.ltb_ge _ _) Hge).
Qed.

(** ** Track loop *)

Lemma selectTrack_TRACK s a hd tl :
  loopMode s = LoopMode.TRACK → currentTrack s = Some a →
  selectTrack s hd tl = (a, hd :: tl).
Proof. intros Hm Hc. unfold selectTrack. by rewrite Hc, Hm. Qed.

Lemma selectTrack_OFF s hd tl :
  loopMode s = LoopMode.OFF → selectTrack s hd tl = (hd, tl).
Proof. intros Hm. unfold selectTrack. rewrite Hm. by destruct (currentTrack s). Qed.

Lemma selectTrack_QUEUE s hd tl :
  loopMode s = LoopMode.QUEUE → selectTrack s hd tl = (hd, tl ++ [hd]).
Proof. intros Hm. unfold selectTrack. rewrite Hm. by destruct (currentTrack s). Qed.

(** The Idle listener in TRACK mode: the replay timer of line 390. *)
Lemma onIdle_TRACK q w s g :
  heap w !! q = Some s → listeners (player s) = Some g →
  loopMode s = LoopMode.TRACK →
  onIdle q w = (setTimeout (CbAdvance g) 100 w).2.
Proof. intros Hs Hl Hm. unfold onIdle. by rewrite Hs, Hl, Hm. Qed.

(** The track finishes in TRACK mode with something queued: the current
    track is loaded again and the queue is left as it is. *)
Lemma track_loop_replays g w q s a hd tl :
  queues w !! g = Some q → heap w !! q = Some s →
  listeners (player s) = Some g →
  loopMode s = LoopMode.TRACK → currentTrack s = Some a → queue s = hd :: tl →
  let w1 := step w (PlayerIdle q) in
  let w2 := step w1 (TimerFired (nextTimer w)) in
  heap w2 !! q = Some (load a (hd :: tl) (set_idleTimeout None s))
  ∧ suspended w2 = <[nextSuspended w := mkSuspended g q a]> (suspended w)
  ∧ out w2 = out w ++ [Stream (url a)].
Proof.
  intros Hq Hs Hl Hm Hc Hqueue w1 w2. subst w1 w2. simpl.
  rewrite (onIdle_TRACK _ _ _ _ Hs Hl Hm). simpl. rewrite lookup_insert_eq. simpl.
  set (wc := clearTimeout _ _).
  destruct (playNextTrack_select g wc q s hd tl Hq Hs Hqueue)
    as (_ & Hh & _ & _ & _ & Hsu & _ & Ho).
  rewrite (selectTrack_TRACK _ _ _ _ Hm Hc) in Hh, Hsu, Ho. simpl in *.
  by repeat split.
Qed.

(** C2 fails on the code when nothing is queued: the track finishes in
    TRACK mode with a current track, the replay timer of the Idle listener
    fires, and the advancer, which looks at the length of the queue before
    it looks at the loop mode, clears the current track and the playing
    flag and arms the idle timer.  No stream is requested: the track is
    not replayed. *)
Theorem track_loop_ends_on_empty_queue g w q s a :
  queues w !! g = Some q → heap w !! q = Some s →
  listeners (player s) = Some g →
  loopMode s = LoopMode.TRACK → currentTrack s = Some a → queue s = [] →
  let w1 := step w (PlayerIdle q) in
  let w2 := step w1 (TimerFired (nextTimer w)) in
  timers w1 !! nextTimer w = Some (mkTimer (CbAdvance g) 100)
  ∧ queues w2 !! g = Some q
  ∧ heap w2 !! q = Some (set_idleTimeout (Some (S (nextTimer w))) (unload s))
  ∧ timers w2 !! S (nextTimer w) = Some (mkTimer (CbIdle g q) IDLE_TIMEOUT)
  ∧ suspended w2 = suspended w
  ∧ out w2 = out w.
Proof.
  intros Hq Hs Hl Hm Hc Hqueue w1 w2. subst w1 w2. simpl.
  rewrite (onIdle_TRACK _ _ _ _ Hs Hl Hm). simpl. rewrite lookup_insert_eq. simpl.
  split; [done|].
  set (wc := clearTimeout _ _).
  destruct (playNextTrack_empty g wc q s Hq Hs Hqueue)
    as (Ht & Hh & Hti & _ & Hsu & Ho).
  rewrite Ht. by repeat split.
Qed.

(** ** %skip in TRACK mode *)

(** C4 fails on the code when the player raises Idle after [stop()] has
    returned: by then %skip has set the loop mode back to TRACK, the Idle
    listener arms the replay timer, and the advancer loads the skipped
    track again, leaving the queue as it was. *)
Theorem skip_replays_looped_track message w q s a hd tl vc :
  voice_channel message = Some vc →
  queues w !! guild_id message = Some q → heap w !! q = Some s →
  listeners (player s) = Some (guild_id message) →
  isPlaying s = true →
  loopMode s = LoopMode.TRACK → currentTrack s = Some a → queue s = hd :: tl →
  let w1 := commandSkip message false w in
  let w2 := step w1 (PlayerIdle q) in
  let w3 := step w2 (TimerFired (nextTimer w)) in
  heap w1 !! q = Some s
  ∧ out w1 = out w ++ [PlayerStop q; Reply (Skipped a)]
  ∧ heap w3 !! q = Some (load a (hd :: tl) (set_idleTimeout None s))
  ∧ out w3 = out w1 ++ [Stream (url a)].
Proof.
  intros Hvc Hq Hs Hl Hp Hm Hc Hqueue w1.
  assert (E1 : w1 = emit (Reply (Skipped a))
                      (modify q (set_loopMode LoopMode.TRACK ∘ set_loopMode LoopMode.OFF)
                         (emit (PlayerStop q) w))).
  { subst w1. unfold commandSkip. rewrite Hvc, Hq. simpl. rewrite Hs. simpl.
    rewrite Hp, Hm, Hc. simpl. unfold modify. simpl.
    by rewrite list_alter_alter_eq. }
  assert (Hs1 : heap w1 !! q = Some s).
  { rewrite E1. simpl. rewrite list_lookup_alter_eq, Hs. simpl.
    f_equal. rewrite <- Hm. by destruct s. }
  assert (Hq1 : queues w1 !! guild_id message = Some q) by (by rewrite E1).
  assert (Hn1 : nextTimer w1 = nextTimer w) by (by rewrite E1).
  assert (Ho1 : out w1 = out w ++ [PlayerStop q; Reply (Skipped a)]).
  { rewrite E1. simpl. by rewrite <- app_assoc. }
  intros w2 w3. subst w2 w3. rewrite <- Hn1.
  destruct (track_loop_replays _ w1 q s a hd tl Hq1 Hs1 Hl Hm Hc Hqueue)
    as (Hh & _ & Ho).
  by repeat split.
Qed.

(** When the player raises Idle inside [stop()], the listener runs while
    the loop mode is OFF, and %skip does advance to the head of the queue. *)
Lemma skip_advances_when_idle_is_raised_in_stop message w q s a hd tl vc :
  voice_channel message = Some vc →
  queues w !! guild_id message = Some q → heap w !! q = Some s →
  listeners (player s) = Some (guild_id message) →
  isPlaying s = true →
  loopMode s = LoopMode.TRACK → currentTrack s = Some a → queue s = hd :: tl →
  let w1 := commandSkip message true w in
  heap w1 !! q = Some (load hd tl (set_idleTimeout None s))
  ∧ out w1 = out w ++ [PlayerStop q; Stream (url hd); Reply (Skipped a)].
Proof.
  intros Hvc Hq Hs Hl Hp Hm Hc Hqueue w1. subst w1.
  unfold commandSkip. rewrite Hvc, Hq. simpl. rewrite Hs. simpl.
  rewrite Hp, Hm, Hc. simpl.
  set (w0 := modify q (set_loopMode LoopMode.OFF) w).
  assert (Hs0 : heap (emit (PlayerStop q) w0) !! q = Some (set_loopMode LoopMode.OFF s))
    by (by apply lookup_modify_eq).
  unfold player_stop, onIdle. rewrite Hs0. simpl. rewrite Hl. simpl.
  destruct (playNextTrack_select (guild_id message) (emit (PlayerStop q) w0) q
              (set_loopMode LoopMode.OFF s) hd tl Hq Hs0 Hqueue)
    as (_ & Hh & _ & _ & _ & _ & _ & Ho).
  rewrite (selectTrack_OFF (set_loopMode LoopMode.OFF s) hd tl eq_refl) in Hh, Ho.
  simpl in Hh, Ho.
  split.
  - rewrite list_lookup_alter_eq, Hh. simpl.
    f_equal. rewrite <- Hm. by destruct s.
  - rewrite Ho. by rewrite <- !app_assoc.
Qed.

(** ** Retries *)

(** C1 fails on the code.  With the loop off, a track whose stream fails
    is asked for once: the catch block finds [retryCount] at 0, where line
    181 has just put it, counts to 1 and arms the 1000 ms timer; the timer
    calls the advancer, which takes the next track from the queue and puts
    the counter back to 0.  The failed track is gone without a second
    attempt and without the Playback Error notice. *)
Theorem failed_track_gets_one_attempt g w q s hd nxt tl :
  queues w !! g = Some q → heap w !! q = Some s →
  loopMode s = LoopMode.OFF → queue s = hd :: nxt :: tl →
  let k := nextSuspended w in
  let w1 := playNextTrack g w in
  let w2 := step w1 (StreamFailed k) in
  let w3 := step w2 (TimerFired (nextTimer w)) in
  suspended w1 !! k = Some (mkSuspended g q hd)
  ∧ timers w2 !! nextTimer w = Some (mkTimer (CbAdvance g) 1000)
  ∧ (∃ s2, heap w2 !! q = Some s2 ∧ retryCount s2 = 1
           ∧ currentTrack s2 = Some hd ∧ queue s2 = nxt :: tl)
  ∧ (∃ s3, heap w3 !! q = Some s3 ∧ retryCount s3 = 0
           ∧ currentTrack s3 = Some nxt ∧ queue s3 = tl)
  ∧ suspended w3 !! k = None
  ∧ suspended w3 !! S k = Some (mkSuspended g q nxt)
  ∧ out w3 = out w ++ [Stream (url hd); Stream (url nxt)].
Proof.
  intros Hq Hs Hm Hqueue k w1 w2 w3.
  destruct (playNextTrack_select g w q s hd (nxt :: tl) Hq Hs Hqueue)
    as (Hq1 & Hs1 & _ & _ & Hn1 & Hsu1 & Hk1 & Ho1).
  rewrite (selectTrack_OFF _ _ _ Hm) in Hs1, Hsu1, Ho1. simpl in Hs1, Hsu1, Ho1.
  fold w1 in Hq1, Hs1, Hn1, Hsu1, Hk1, Ho1. fold k in Hsu1, Hk1.
  assert (Hk : suspended w1 !! k = Some (mkSuspended g q hd))
    by (rewrite Hsu1; apply lookup_insert_eq).
  split; [exact Hk|].
  set (s1 := load hd (nxt :: tl) (set_idleTimeout None s)) in *.
  set (wd := set_suspended (delete k (suspended w1)) w1).
  assert (E2 : w2 = (setTimeout (CbAdvance g) 1000
                       (modify q (set_retryCount (retryCount s1 + 1)) wd)).2).
  { subst w2. unfold step. rewrite Hk. fold wd.
    by rewrite (playNextTrack_catch_retry (mkSuspended g q hd) wd s1 Hs1). }
  assert (Hs2 : heap w2 !! q = Some (set_retryCount 1 s1)).
  { rewrite E2. simpl. by rewrite list_lookup_alter_eq, Hs1. }
  assert (Ht2 : timers w2 !! nextTimer w = Some (mkTimer (CbAdvance g) 1000)).
  { rewrite E2. simpl. rewrite Hn1. apply lookup_insert_eq. }
  split; [exact Ht2|].
  split; [by exists (set_retryCount 1 s1)|].
  assert (E3 : w3 = playNextTrack g (clearTimeout (nextTimer w) w2))
    by (subst w3; unfold step at 1; by rewrite Ht2).
  remember (clearTimeout (nextTimer w) w2) as wc eqn:Ewc.
  assert (Hqc : queues wc !! g = Some q) by (rewrite Ewc, E2; simpl; congruence).
  assert (Hsc2 : heap wc !! q = Some (set_retryCount 1 s1)) by (by rewrite Ewc).
  assert (Hkc : nextSuspended wc = S k) by (rewrite Ewc, E2; exact Hk1).
  assert (Hsc : suspended wc = delete k (suspended w1)) by (by rewrite Ewc, E2).
  assert (Hoc : out wc = out w1) by (by rewrite Ewc, E2).
  destruct (playNextTrack_select g wc q (set_retryCount 1 s1) nxt tl Hqc Hsc2 eq_refl)
    as (_ & Hs3 & _ & _ & _ & Hsu3 & _ & Ho3).
  rewrite (selectTrack_OFF (set_retryCount 1 s1) nxt tl Hm) in Hs3, Hsu3, Ho3.
  rewrite <- E3 in Hs3, Hsu3, Ho3.
  split; [eexists; split; [exact Hs3|done]|].
  rewrite Hsu3, Hkc, Hsc.
  split; [rewrite lookup_insert_ne by lia; apply lookup_delete_eq|].
  split; [apply lookup_insert_eq|].
  rewrite Ho3, Hoc, Ho1. simpl. by rewrite <- app_assoc.
Qed.

(** In TRACK mode on a session with a current track, a failure is followed
    by one more request for the same track: after the retry timer the
    session has the same current track, queue and mode and the counter is
    back at 0, so the next failure starts the same round again. *)
Lemma track_loop_retry_round g w q s a hd tl :
  queues w !! g = Some q → heap w !! q = Some s →
  loopMode s = LoopMode.TRACK → currentTrack s = Some a → queue s = hd :: tl →
  let k := nextSuspended w in
  let w1 := playNextTrack g w in
  let w2 := step w1 (StreamFailed k) in
  let w3 := step w2 (TimerFired (nextTimer w)) in
  (∃ s2, heap w2 !! q = Some s2 ∧ retryCount s2 = 1)
  ∧ (∃ s3, heap w3 !! q = Some s3 ∧ retryCount s3 = 0 ∧ currentTrack s3 = Some a
           ∧ queue s3 = hd :: tl ∧ loopMode s3 = LoopMode.TRACK)
  ∧ queues w3 !! g = Some q
  ∧ out w3 = out w ++ [Stream (url a); Stream (url a)].
Proof.
  intros Hq Hs Hm Hc Hqueue k w1 w2 w3.
  destruct (playNextTrack_select g w q s hd tl Hq Hs Hqueue)
    as (Hq1 & Hs1 & _ & _ & Hn1 & Hsu1 & Hk1 & Ho1).
  rewrite (selectTrack_TRACK _ _ _ _ Hm Hc) in Hs1, Hsu1, Ho1. simpl in Hs1, Hsu1, Ho1.
  fold w1 in Hq1, Hs1, Hn1, Hsu1, Hk1, Ho1. fold k in Hsu1, Hk1.
  assert (Hk : suspended w1 !! k = Some (mkSuspended g q a))
    by (rewrite Hsu1; apply lookup_insert_eq).
  set (s1 := load a (hd :: tl) (set_idleTimeout None s)) in *.
  set (wd := set_suspended (delete k (suspended w1)) w1).
  assert (E2 : w2 = (setTimeout (CbAdvance g) 1000
                       (modify q (set_retryCount (retryCount s1 + 1)) wd)).2).
  { subst w2. unfold step. rewrite Hk. fold wd.
    by rewrite (playNextTrack_catch_retry (mkSuspended g q a) wd s1 Hs1). }
  assert (Hs2 : heap w2 !! q = Some (set_retryCount 1 s1)).
  { rewrite E2. simpl. by rewrite list_lookup_alter_eq, Hs1. }
  assert (Ht2 : timers w2 !! nextTimer w = Some (mkTimer (CbAdvance g) 1000)).
  { rewrite E2. simpl. rewrite Hn1. apply lookup_insert_eq. }
  split; [by exists (set_retryCount 1 s1)|].
  assert (E3 : w3 = playNextTrack g (clearTimeout (nextTimer w) w2))
    by (subst w3; unfold step at 1; by rewrite Ht2).
  remember (clearTimeout (nextTimer w) w2) as wc eqn:Ewc.
  assert (Hqc : queues wc !! g = Some q) by (rewrite Ewc, E2; simpl; congruence).
  assert (Hsc2 : heap wc !! q = Some (set_retryCount 1 s1)) by (by rewrite Ewc).
  assert (Hoc : out wc = out w1) by (by rewrite Ewc, E2).
  destruct (playNextTrack_select g wc q (set_retryCount 1 s1) hd tl Hqc Hsc2 eq_refl)
    as (Hq3 & Hs3 & _ & _ & _ & _ & _ & Ho3).
  rewrite (selectTrack_TRACK (set_retryCount 1 s1) a hd tl Hm eq_refl) in Hs3, Ho3.
  rewrite <- E3 in Hq3, Hs3, Ho3.
  split; [eexists; split; [exact Hs3|done]|].
  split; [by rewrite Hq3|].
  rewrite Ho3, Hoc, Ho1. simpl. by rewrite <- app_assoc.
Qed.

(** ** Queue loop *)

Lemma resume_keeps_heap k w : heap (playNextTrack_resume k w) = heap w.
Proof.
  unfold playNextTrack_resume. simpl.
  destruct (heap w !! s_queue k) as [s|]; [|done].
  by destruct (textChannel s).
Qed.

Lemma catch_keeps_queue k w q s :
  heap w !! q = Some s →
  ∃ s', heap (playNextTrack_catch k w) !! q = Some s' ∧ queue s' = queue s.
Proof.
  intros Hs. unfold playNextTrack_catch.
  destruct (heap w !! s_queue k) as [s0|] eqn:Hs0; [|eauto].
  destruct (retryCount s0 <? MAX_RETRIES).
  - simpl. destruct (decide (s_queue k = q)) as [E|Hne].
    + rewrite E in *. rewrite list_lookup_alter_eq, Hs. simpl. eauto.
    + rewrite list_lookup_alter_ne by done. eauto.
  - destruct (textChannel s0); simpl; eauto.
Qed.

(** C3 fails on the code in its second half: after [threeFailures] the
    catch block has just given up on C (the Playback Error notice is the
    last thing sent), the session is in QUEUE mode, and C is in the queue. *)
Lemma given_up_track_stays_queued : ¬ error_skip_discards.
Proof.
  intros H.
  apply (H threeFailures "music"%string trackC "g"%string
           (mkGuildQueue [trackB; trackC] (mkPlayer (Some "g"%string)) (Some 0%nat)
                         (Some trackC) true LoopMode.QUEUE None (Some "music"%string) 2));
    [vm_compute; reflexivity .. |].
  apply list_elem_of_lookup. exists 1%nat. reflexivity.
Qed.

(** C3 (amended): in QUEUE mode the advancer moves the head of the queue
    to its tail when it selects it, before the stream is asked for; and
    neither the arrival of a stream nor its failure, with retries left or
    not, changes the queue of any session.  So the selected track is in the
    queue whether it plays to the end or fails. *)
Theorem queue_loop_requeues_at_selection g w q s hd tl :
  queues w !! g = Some q → heap w !! q = Some s →
  loopMode s = LoopMode.QUEUE → queue s = hd :: tl →
  let w1 := playNextTrack g w in
  (∃ s1, heap w1 !! q = Some s1 ∧ currentTrack s1 = Some hd
         ∧ queue s1 = tl ++ [hd] ∧ loopMode s1 = LoopMode.QUEUE)
  ∧ suspended w1 !! nextSuspended w = Some (mkSuspended g q hd)
  ∧ (∀ w' k q' s', heap w' !! q' = Some s' →
       (∃ s'', heap (step w' (StreamReady k)) !! q' = Some s'' ∧ queue s'' = queue s')
       ∧ (∃ s'', heap (step w' (StreamFailed k)) !! q' = Some s'' ∧ queue s'' = queue s')).
Proof.
  intros Hq Hs Hm Hqueue w1.
  destruct (playNextTrack_select g w q s hd tl Hq Hs Hqueue)
    as (_ & Hs1 & _ & _ & _ & Hsu1 & _ & _).
  rewrite (selectTrack_QUEUE _ _ _ Hm) in Hs1, Hsu1. simpl in Hs1, Hsu1.
  split; [eexists; split; [exact Hs1|done]|].
  split; [subst w1; rewrite Hsu1; apply lookup_insert_eq|].
  intros w' k q' s' Hs'. simpl. split.
  - destruct (suspended w' !! k); [|eauto].
    rewrite resume_keeps_heap. simpl. eauto.
  - destruct (suspended w' !! k); [|eauto].
    by apply catch_keeps_queue.
Qed.

(** ** %play on a guild that has a session *)

Lemma commandPlay_present message a args v w vc q s :
  queues w !! guild_id message = Some q → heap w !! q = Some s →
  voice_channel message = Some vc →
  commandPlay message (a :: args) (Some v) w =
    let track := trackOf message v in
    let w1 := modify q (enqueued message track) (emit (Reply Searching) w) in
    match connection s with
    | Some _ => announce message track s w1
    | None =>
        if negb (can_connect message) || negb (can_speak message)
        then emit (Reply MissingPermissions) w1
        else announce message track s
               (modify q (joined (guild_id message) (nextConnection w))
                       (joinVoiceChannel vc w1).2)
    end.
Proof.
  intros Hq Hs Hvc. unfold commandPlay.
  rewrite (getQueue_present _ _ _ Hq), Hvc. unfold joinVoiceChannel.
  cbv beta iota zeta. rewrite !modify_modify.
  rewrite lookup_modify_eq with (s := s) by (exact Hs).
  destruct (connection s) as [c|] eqn:Hc.
  - assert (Hc' : ∀ f, connection ((set_textChannel (Some (channel message)) ∘ f) s)
                       = connection (f s)) by done.
    cbv beta. unfold compose at 1. simpl connection. rewrite Hc.
    rewrite lookup_modify_eq with (s := s) by (exact Hs).
    reflexivity.
  - cbv beta. unfold compose at 1. simpl connection. rewrite Hc.
    destruct (negb (can_connect message) || negb (can_speak message)).
    + reflexivity.
    + erewrite lookup_modify_eq; [|simpl; apply lookup_modify_eq; exact Hs].
      reflexivity.
Qed.

(** ** Idle timer *)





(** ** Sequences of %play *)

Lemma attempts_app o1 o2 : attempts (o1 ++ o2) = attempts o1 ++ attempts o2.
Proof. apply omap_app. Qed.

Lemma getQueue_idem g w : getQueue g (getQueue g w).2 = getQueue g w.
Proof.
  pose proof (getQueue_entry g w) as H.
  rewrite (getQueue_present _ _ _ H). by destruct (getQueue g w).
Qed.

Lemma commandPlay_getQueue message args found w :
  commandPlay message args found w
  = commandPlay message args found (getQueue (guild_id message) w).2.
Proof.
  unfold commandPlay. rewrite getQueue_idem. by destruct (getQueue _ w).
Qed.

Lemma vacant_getQueue g w :
  vacant g w →
  let w0 := (getQueue g w).2 in
  queues w0 !! g = Some (getQueue g w).1
  ∧ heap w0 !! (getQueue g w).1 = Some newQueue
  ∧ suspended w0 = suspended w
  ∧ nextSuspended w0 = nextSuspended w
  ∧ out w0 = out w.
Proof.
  intros Hv. unfold vacant in Hv. unfold getQueue.
  destruct (queues w !! g) as [q|] eqn:Hq; simpl.
  - by rewrite Hq.
  - rewrite lookup_insert_eq, lookup_snoc. done.
Qed.


Lemma run_cons e es w : run (e :: es) w = run es (step w e).
Proof. reflexivity. Qed.

(** ** The remaining statements at concrete sessions *)

(** C1 at A playing with B and C queued: A ends, the stream of B fails,
    the retry timer fires, and the next stream asked for is that of C. *)
Lemma failed_track_gets_one_attempt_witness :
  out (step (step (playNextTrack "g"%string queuedBC)
                  (StreamFailed (nextSuspended queuedBC)))
            (TimerFired (nextTimer queuedBC)))
  = out queuedBC ++ [Stream (url trackB); Stream (url trackC)].
Proof.
  assert (H1 : queues queuedBC !! "g"%string = Some 0%nat) by (vm_compute; reflexivity).
  assert (H2 : heap queuedBC !! 0%nat = Some (the_session queuedBC))
    by (vm_compute; reflexivity).
  assert (H3 : loopMode (the_session queuedBC) = LoopMode.OFF)
    by (vm_compute; reflexivity).
  assert (H4 : queue (the_session queuedBC) = [trackB; trackC])
    by (vm_compute; reflexivity).
  pose proof (failed_track_gets_one_attempt "g"%string queuedBC 0%nat
                (the_session queuedBC) trackB trackC [] H1 H2 H3 H4) as H.
  cbv zeta in H. destruct H as (_ & _ & _ & _ & _ & _ & H). exact H.
Defined.

(** C2 at A looping alone: A ends, the replay timer fires, and the
    session is idle. *)
Lemma track_loop_ends_on_empty_queue_witness :
  heap (step (step loopingA_alone (PlayerIdle 0%nat))
             (TimerFired (nextTimer loopingA_alone))) !! 0%nat
  = Some (set_idleTimeout (Some (S (nextTimer loopingA_alone)))
                          (unload (the_session loopingA_alone)))
  ∧ out (step (step loopingA_alone (PlayerIdle 0%nat))
              (TimerFired (nextTimer loopingA_alone)))
    = out loopingA_alone.
Proof.
  assert (H1 : queues loopingA_alone !! "g"%string = Some 0%nat)
    by (vm_compute; reflexivity).
  assert (H2 : heap loopingA_alone !! 0%nat = Some (the_session loopingA_alone))
    by (vm_compute; reflexivity).
  assert (H3 : listeners (player (the_session loopingA_alone)) = Some "g"%string)
    by (vm_compute; reflexivity).
  assert (H4 : loopMode (the_session loopingA_alone) = LoopMode.TRACK)
    by (vm_compute; reflexivity).
  assert (H5 : currentTrack (the_session loopingA_alone) = Some trackA)
    by (vm_compute; reflexivity).
  assert (H6 : queue (the_session loopingA_alone) = []) by (vm_compute; reflexivity).
  pose proof (track_loop_ends_on_empty_queue "g"%string loopingA_alone 0%nat
                (the_session loopingA_alone) trackA H1 H2 H3 H4 H5 H6) as H.
  cbv zeta in H. destruct H as (_ & _ & Ha & _ & _ & Hb). exact (conj Ha Hb).
Defined.

(** C4 at A looping with B queued: %skip, Idle, replay timer; the
    stream asked for is that of A. *)
Lemma skip_replays_looped_track_witness :
  out (step (step (commandSkip alice false loopingA) (PlayerIdle 0%nat))
            (TimerFired (nextTimer loopingA)))
  = out (commandSkip alice false loopingA) ++ [Stream (url trackA)].
Proof.
  assert (H1 : queues loopingA !! guild_id alice = Some 0%nat) by (vm_compute; reflexivity).
  assert (H2 : heap loopingA !! 0%nat = Some (the_session loopingA))
    by (vm_compute; reflexivity).
  assert (H3 : listeners (player (the_session loopingA)) = Some (guild_id alice))
    by (vm_compute; reflexivity).
  assert (H4 : isPlaying (the_session loopingA) = true) by (vm_compute; reflexivity).
  assert (H5 : loopMode (the_session loopingA) = LoopMode.TRACK)
    by (vm_compute; reflexivity).
  assert (H6 : currentTrack (the_session loopingA) = Some trackA)
    by (vm_compute; reflexivity).
  assert (H7 : queue (the_session loopingA) = [trackB]) by (vm_compute; reflexivity).
  pose proof (skip_replays_looped_track alice loopingA 0%nat (the_session loopingA)
                trackA trackB [] "vc"%string eq_refl H1 H2 H3 H4 H5 H6 H7) as H.
  cbv zeta in H. destruct H as (_ & _ & _ & H). exact H.
Defined.

(** The amended C3 at A playing in QUEUE mode with B queued: the advancer
    selects B and leaves it in the queue. *)
Lemma queue_loop_requeues_at_selection_witness :
  ∃ s1, heap (playNextTrack "g"%string cyclingA) !! 0%nat = Some s1
        ∧ currentTrack s1 = Some trackB ∧ queue s1 = [] ++ [trackB]
        ∧ loopMode s1 = LoopMode.QUEUE.
Proof.
  assert (H1 : queues cyclingA !! "g"%string = Some 0%nat) by (vm_compute; reflexivity).
  assert (H2 : heap cyclingA !! 0%nat = Some (the_session cyclingA))
    by (vm_compute; reflexivity).
  assert (H3 : loopMode (the_session cyclingA) = LoopMode.QUEUE)
    by (vm_compute; reflexivity).
  assert (H4 : queue (the_session cyclingA) = [trackB]) by (vm_compute; reflexivity).
  pose proof (queue_loop_requeues_at_selection "g"%string cyclingA 0%nat
                (the_session cyclingA) trackB [] H1 H2 H3 H4) as H.
  cbv zeta in H. exact (proj1 H).
Defined.

(** ** What every session object satisfies, whatever happens

    [P] is a property of session objects that the literal of [getQueue]
    has and that every update bot.js makes to an object keeps.  Then [P]
    holds of every object after every run of the event loop. *)

Lemma Forall_modify (P : GuildQueue → Prop) q f w :
  (∀ s, heap w !! q = Some s → P s → P (f s)) →
  Forall P (heap w) → Forall P (heap (modify q f w)).
Proof.
  intros Hf H. rewrite heap_modify. rewrite Forall_lookup in H |- *.
  intros i s Hs. destruct (decide (q = i)) as [<-|Hne].
  - rewrite list_lookup_alter_eq in Hs.
    destruct (heap w !! q) as [s0|] eqn:Hs0; simpl in Hs; [|done].
    inversion Hs; subst. apply Hf; [done|]. by eapply H.
  - rewrite list_lookup_alter_ne in Hs by done. by eapply H.
Qed.

Lemma modify_dangling q f w : heap w !! q = None → modify q f w = w.
Proof.
  intros H. unfold modify. destruct w as [qs h ts nt su ns nc o]. simpl in *.
  unfold set_heap. simpl. f_equal.
  apply list_eq. intros i. destruct (decide (q = i)) as [<-|Hne].
  - by rewrite list_lookup_alter_eq, H.
  - by rewrite list_lookup_alter_ne.
Qed.

(** [playNextTrack] retrieves or creates the object and then runs on it. *)
Lemma playNextTrack_getQueue g w :
  playNextTrack g w = playNextTrack g (getQueue g w).2.
Proof.
  pose proof (getQueue_entry g w) as Hq.
  unfold playNextTrack at 2. rewrite (getQueue_present _ _ _ Hq).
  unfold playNextTrack. by destruct (getQueue g w).
Qed.

Lemma playNextTrack_dangling g w q :
  queues w !! g = Some q → heap w !! q = None → playNextTrack g w = w.
Proof.
  intros Hq Hs. unfold playNextTrack. by rewrite (getQueue_present _ _ _ Hq), Hs.
Qed.

Section ObjectInvariant.
Variable P : GuildQueue → Prop.
Hypothesis P_new : P newQueue.
Hypothesis P_idleTimeout : ∀ v s, P s → P (set_idleTimeout v s).
Hypothesis P_unload : ∀ s, P s → queue s = [] → P (unload s).
Hypothesis P_load :
  ∀ s hd tl, P s → queue s = hd :: tl →
             P (load (selectTrack s hd tl).1 (selectTrack s hd tl).2 s).
Hypothesis P_retry :
  ∀ s, P s → retryCount s < MAX_RETRIES → P (set_retryCount (retryCount s + 1) s).
Hypothesis P_enqueued : ∀ m t s, P s → P (enqueued m t s).
Hypothesis P_joined : ∀ g c s, P s → connection s = None → P (joined g c s).
Hypothesis P_cycle :
  ∀ s, P s → is_Some (currentTrack s) → P (set_loopMode (Z.rem (loopMode s + 1) 3) s).
Hypothesis P_override :
  ∀ s, P s → isPlaying s = true → loopMode s = LoopMode.TRACK →
       P (set_loopMode LoopMode.OFF s).
Hypothesis P_restore :
  ∀ s, P s → loopMode s = LoopMode.OFF → P (set_loopMode LoopMode.TRACK s).
Hypothesis P_stop :
  ∀ s, P s → P (set_isPlaying false (set_currentTrack None (set_queue [] s))).

Local Abbreviation inv := (fun w => Forall P (heap w)).

Lemma inv_getQueue g w : inv w → inv (getQueue g w).2.
Proof.
  intros H. unfold getQueue. destruct (queues w !! g); simpl; [done|].
  apply Forall_app. split; [done|]. by repeat constructor.
Qed.

Lemma inv_clearIdleTimeout g w : inv w → inv (clearIdleTimeout g w).
Proof.
  intros H. unfold clearIdleTimeout.
  destruct (queues w !! g) as [q|]; [|done].
  destruct (heap w !! q) as [s|]; [|done].
  destruct (idleTimeout s); [|done].
  apply Forall_modify; [|done]. intros s0 _. apply P_idleTimeout.
Qed.

Lemma inv_setIdleTimeout g w : inv w → inv (setIdleTimeout g w).
Proof.
  intros H. apply (inv_clearIdleTimeout g) in H. unfold setIdleTimeout.
  destruct (queues (clearIdleTimeout g w) !! g) as [q|]; [|done].
  simpl. apply Forall_modify; [|done].
  intros s0 _. apply P_idleTimeout.
Qed.

Lemma inv_playNextTrack g w : inv w → inv (playNextTrack g w).
Proof.
  intros H. apply (inv_getQueue g) in H.
  rewrite playNextTrack_getQueue.
  pose proof (getQueue_entry g w) as Hq.
  destruct (getQueue g w) as [q w0]. simpl in *.
  destruct (heap w0 !! q) as [s|] eqn:Hs.
  - rewrite (playNextTrack_at _ _ _ _ Hq Hs).
    destruct (queue s) as [|hd tl] eqn:Hqueue.
    + apply inv_setIdleTimeout. apply Forall_modify; [|done].
      intros s' Hs' Hp. assert (s' = s) by congruence. subst. by apply P_unload.
    + apply (inv_clearIdleTimeout g) in H.
      destruct (clearIdleTimeout_lookup g w0 q s Hs) as [v Hv].
      apply (Forall_modify P q _ (clearIdleTimeout g w0)); [|done].
      intros s' Hs' Hp. assert (s' = set_idleTimeout v s) by congruence. subst s'.
      apply (P_load (set_idleTimeout v s) hd tl Hp). simpl. exact Hqueue.
  - by rewrite (playNextTrack_dangling _ _ _ Hq Hs).
Qed.

Lemma inv_onIdle q w : inv w → inv (onIdle q w).
Proof.
  intros H. unfold onIdle.
  destruct (heap w !! q) as [s|]; [|done].
  destruct (listeners (player s)) as [g|]; [|done].
  destruct (negb _); [by apply inv_playNextTrack | done].
Qed.

Lemma inv_onError q w : inv w → inv (onError q w).
Proof.
  intros H. unfold onError.
  destruct (heap w !! q) as [s|]; [|done].
  destruct (listeners (player s)) as [g|]; [|done].
  by apply inv_playNextTrack.
Qed.

Lemma inv_player_stop b q w : inv w → inv (player_stop b q w).
Proof.
  intros H. unfold player_stop. destruct b; [|done].
  by apply (inv_onIdle q (emit (PlayerStop q) w)).
Qed.

Lemma inv_catch k w : inv w → inv (playNextTrack_catch k w).
Proof.
  intros H. unfold playNextTrack_catch.
  destruct (heap w !! s_queue k) as [s|] eqn:Hs; [|done].
  destruct (retryCount s <? MAX_RETRIES) eqn:Hlt.
  - simpl. apply (Forall_modify P (s_queue k) _ w); [|done].
    intros s' Hs' Hp. assert (s' = s) by congruence. subst s'.
    apply P_retry; [done|]. by apply Z.ltb_lt.
  - by destruct (textChannel s).
Qed.

Lemma inv_resume k w : inv w → inv (playNextTrack_resume k w).
Proof. intros H. cbv beta. by rewrite resume_keeps_heap. Qed.

Lemma inv_commandPlay message args found w :
  inv w → inv (commandPlay message args found w).
Proof.
  intros H. apply (inv_getQueue (guild_id message)) in H.
  rewrite commandPlay_getQueue.
  pose proof (getQueue_entry (guild_id message) w) as Hq.
  destruct (getQueue (guild_id message) w) as [q w0]. simpl in *.
  destruct (voice_channel message) as [vc|] eqn:Hvc;
    [|unfold commandPlay; by rewrite (getQueue_present _ _ _ Hq), Hvc].
  destruct args as [|a args];
    [unfold commandPlay; by rewrite (getQueue_present _ _ _ Hq), Hvc|].
  destruct found as [v|];
    [|unfold commandPlay; by rewrite (getQueue_present _ _ _ Hq), Hvc].
  destruct (heap w0 !! q) as [s|] eqn:Hs.
  - rewrite (commandPlay_present _ _ _ _ _ _ _ _ Hq Hs Hvc). cbv zeta.
    set (w1 := modify q _ _).
    assert (H1 : inv w1).
    { subst w1. apply (Forall_modify P q _ (emit (Reply Searching) w0)); [|done].
      intros s' _ Hp. by apply P_enqueued. }
    assert (Hs1 : heap w1 !! q = Some (enqueued message (trackOf message v) s)).
    { subst w1. by apply lookup_modify_eq. }
    assert (Hann : ∀ w2, inv w2 → inv (announce message (trackOf message v) s w2)).
    { intros w2 H2. unfold announce. destruct (isPlaying s); [done|].
      by apply inv_playNextTrack. }
    destruct (connection s) as [c|] eqn:Hc; [by apply Hann|].
    destruct (negb _ || negb _); [done|].
    apply Hann.
    apply (Forall_modify P q _ (joinVoiceChannel vc w1).2); [|done].
    intros s' Hs' Hp.
    change (heap (joinVoiceChannel vc w1).2) with (heap w1) in Hs'.
    assert (s' = enqueued message (trackOf message v) s) by congruence. subst s'.
    by apply P_joined.
  - unfold commandPlay. rewrite (getQueue_present _ _ _ Hq), Hvc. cbv zeta.
    repeat (rewrite (modify_dangling q _ (emit (Reply Searching) w0)) by (exact Hs)).
    repeat (change (heap (emit (Reply Searching) w0)) with (heap w0); rewrite Hs).
    exact H.
Qed.

Lemma inv_commandSkip message b w : inv w → inv (commandSkip message b w).
Proof.
  intros H. unfold commandSkip.
  destruct (voice_channel message) as [vc|]; [|done].
  destruct (queues w !! guild_id message) as [q|]; simpl; [|done].
  destruct (heap w !! q) as [s|] eqn:Hs; simpl; [|done].
  destruct (isPlaying s) eqn:Hp; simpl; [|done].
  assert (Hend : ∀ w1, inv w1 →
            inv (match currentTrack s with
                 | Some t => emit (Reply (Skipped t)) w1
                 | None => w1
                 end)) by (intros w1 H1; by destruct (currentTrack s)).
  apply Hend.
  destruct (loopMode s =? LoopMode.TRACK) eqn:Hm; [|by apply inv_player_stop].
  apply Z.eqb_eq in Hm.
  set (w0 := modify q (set_loopMode LoopMode.OFF) w).
  assert (H0 : inv w0).
  { apply Forall_modify; [|done]. intros s' Hs' Hp'.
    assert (s' = s) by congruence. subst s'. by apply P_override. }
  destruct (player_stop_same_loopMode b q w0) as [_ Hh].
  destruct (Hh q (set_loopMode LoopMode.OFF s)) as (s1 & Hs1 & Hm1);
    [subst w0; by apply lookup_modify_eq|].
  apply Forall_modify; [|by apply inv_player_stop].
  intros s' Hs' Hp'. assert (s' = s1) by congruence. subst s'.
  apply P_restore; [done|]. exact Hm1.
Qed.

Lemma inv_commandStop message b w : inv w → inv (commandStop message b w).
Proof.
  intros H. unfold commandStop.
  destruct (voice_channel message) as [vc|]; [|done].
  destruct (_ ≫= _) as [[q c]|]; [|done].
  rewrite !modify_modify.
  apply (inv_clearIdleTimeout (guild_id message) (emit _ _)).
  apply inv_player_stop.
  apply Forall_modify; [|done]. intros s' _ Hp. by apply P_stop.
Qed.

Lemma inv_commandLoop message w : inv w → inv (commandLoop message w).
Proof.
  intros H. unfold commandLoop.
  destruct (queues w !! guild_id message) as [q|]; simpl; [|done].
  destruct (heap w !! q) as [s|] eqn:Hs; simpl; [|done].
  destruct (currentTrack s) as [t|] eqn:Hc; simpl; [|done].
  apply Forall_modify; [|done]. intros s' Hs' Hp.
  assert (s' = s) by congruence. subst s'. apply P_cycle; [done|]. by rewrite Hc.
Qed.

Lemma inv_step w e : inv w → inv (step w e).
Proof.
  intros H. destruct e; simpl.
  - by apply inv_commandPlay.
  - by apply inv_commandSkip.
  - by apply inv_commandStop.
  - by apply inv_commandLoop.
  - destruct (suspended w !! k); [|done]. by apply inv_resume.
  - destruct (suspended w !! k); [|done]. by apply inv_catch.
  - destruct (timers w !! t) as [tm|]; [|done].
    destruct (callback tm); simpl.
    + by apply inv_playNextTrack.
    + unfold idleExpired. simpl. destruct (heap w !! q) as [s|]; [|done].
      by destruct (connection s).
  - by apply inv_onIdle.
  - by apply inv_onError.
Qed.

Lemma inv_run es : ∀ w, inv w → inv (run es w).
Proof.
  induction es as [|e es IH]; intros w H; [done|].
  rewrite run_cons. apply IH. by apply inv_step.
Qed.

Lemma inv_reachable es q s : heap (run es initial) !! q = Some s → P s.
Proof.
  intros Hs. assert (H : Forall P (heap (run es initial))).
  { apply (inv_run es initial). constructor. }
  rewrite Forall_lookup in H. by eapply H.
Qed.
End ObjectInvariant.

Lemma reachable_playing_matches_current es q s :
  heap (run es initial) !! q = Some s → playing_matches_current s.
Proof.
  intros Hs.
  apply (inv_reachable playing_matches_current) with (es := es) (q := q);
    try done; unfold playing_matches_current; simpl; try tauto.
  all: intros; split; [done|]; by intros [? ?].
Qed.

(** X1: after any run of the event loop, every session object has its
    playing flag set exactly when it has a current track. *)
Theorem isPlaying_iff_currentTrack es :
  Forall playing_matches_current (heap (run es initial)).
Proof.
  apply Forall_lookup. intros q s Hs. by eapply reachable_playing_matches_current.
Qed.

(** X2: after any run, the loop mode of every session is OFF, TRACK or
    QUEUE, so the label looked up in ['Off', 'Track', 'Queue'] exists. *)
Theorem loopMode_in_range es :
  Forall loopMode_valid (heap (run es initial)).
Proof.
  apply Forall_lookup. intros q s Hs.
  apply (inv_reachable loopMode_valid) with (es := es) (q := q);
    try done; unfold loopMode_valid, LoopMode.OFF, LoopMode.TRACK, LoopMode.QUEUE;
    simpl; try tauto.
  intros s0 [E|[E|E]] _; rewrite E; simpl; tauto.
Qed.

(** X3: after any run, in whatever order streams fail and timers fire,
    [retryCount] is between 0 and [MAX_RETRIES]. *)
Theorem retryCount_in_range es :
  Forall retryCount_bounded (heap (run es initial)).
Proof.
  apply Forall_lookup. intros q s Hs.
  apply (inv_reachable retryCount_bounded) with (es := es) (q := q);
    try done; unfold retryCount_bounded, MAX_RETRIES; simpl; try tauto; try lia.
Qed.

(** ** The table stays in order *)

Lemma tidy_evolves w w' :
  queues w' = queues w → evolves same_player w w' → tidy w → tidy w'.
Proof.
  intros Eq [_ Hh] (Ha & Hb & Hc). unfold tidy. rewrite Eq. split; [|split].
  - intros g q Hq. destruct (Ha g q Hq) as [s Hs].
    destruct (Hh q s Hs) as (s' & Hs' & _). by eexists.
  - exact Hb.
  - intros g q s' g' Hq Hs' Hl. destruct (Ha g q Hq) as [s Hs].
    destruct (Hh q s Hs) as (s'' & Hs'' & Hp).
    assert (s'' = s') by congruence. subst s''.
    apply (Hc g q s g' Hq Hs). unfold same_player in Hp. by rewrite <- Hp.
Qed.

Lemma tidy_same w w' : queues w' = queues w → heap w' = heap w → tidy w → tidy w'.
Proof. intros Eq Eh. unfold tidy. by rewrite Eq, Eh. Qed.

Lemma tidy_emit o w : tidy w → tidy (emit o w).
Proof. exact (tidy_same w _ eq_refl eq_refl). Qed.

Lemma tidy_modify q f w :
  (∀ s, player (f s) = player s) → tidy w → tidy (modify q f w).
Proof.
  intros Hf. apply tidy_evolves; [done|].
  apply evolves_modify; unfold same_player; [done|]. intros s _. apply Hf.
Qed.

Lemma tidy_getQueue g w : tidy w → tidy (getQueue g w).2.
Proof.
  intros (Ha & Hb & Hc). unfold getQueue.
  destruct (queues w !! g) as [q|] eqn:Hq; simpl; [done|].
  split; [|split]; simpl.
  - intros g1 q1 H1. destruct (decide (g = g1)) as [<-|Hne].
    + rewrite lookup_insert_eq in H1. inversion H1; subst.
      rewrite lookup_snoc. by eexists.
    + rewrite lookup_insert_ne in H1 by done.
      destruct (Ha g1 q1 H1) as [s Hs]. exists s. by apply lookup_app_l_Some.
  - intros g1 g2 q1 H1 H2.
    destruct (decide (g = g1)) as [<-|Hne1]; destruct (decide (g = g2)) as [E2|Hne2];
      try done.
    + rewrite lookup_insert_eq in H1. rewrite lookup_insert_ne in H2 by done.
      inversion H1; subst. destruct (Ha g2 _ H2) as [s Hs].
      apply lookup_lt_Some in Hs. lia.
    + subst g2. rewrite lookup_insert_eq in H2. rewrite lookup_insert_ne in H1 by done.
      inversion H2; subst. destruct (Ha g1 _ H1) as [s Hs].
      apply lookup_lt_Some in Hs. lia.
    + rewrite lookup_insert_ne in H1 by done. rewrite lookup_insert_ne in H2 by done.
      by eapply Hb.
  - intros g1 q1 s g' H1 Hs Hl. destruct (decide (g = g1)) as [<-|Hne].
    + rewrite lookup_insert_eq in H1. inversion H1; subst.
      rewrite lookup_snoc in Hs. inversion Hs; subst. done.
    + rewrite lookup_insert_ne in H1 by done.
      destruct (Ha g1 q1 H1) as [s1 Hs1].
      rewrite (lookup_app_l_Some _ _ _ _ Hs1) in Hs. inversion Hs; subst.
      by eapply Hc.
Qed.

Lemma tidy_delete g w : tidy w → tidy (set_queues (delete g (queues w)) w).
Proof.
  intros (Ha & Hb & Hc). split; [|split]; simpl.
  - intros g1 q1 H1. apply lookup_delete_Some in H1 as [_ H1]. by eapply Ha.
  - intros g1 g2 q1 H1 H2. apply lookup_delete_Some in H1 as [_ H1].
    apply lookup_delete_Some in H2 as [_ H2]. by eapply Hb.
  - intros g1 q1 s g' H1 Hs Hl. apply lookup_delete_Some in H1 as [_ H1].
    by eapply Hc.
Qed.

Lemma setIdleTimeout_queues g w : queues (setIdleTimeout g w) = queues w.
Proof.
  unfold setIdleTimeout. rewrite clearIdleTimeout_queues.
  destruct (queues w !! g); simpl; by rewrite clearIdleTimeout_queues.
Qed.

Lemma playNextTrack_queues g w q :
  queues w !! g = Some q → queues (playNextTrack g w) = queues w.
Proof.
  intros Hq. unfold playNextTrack. rewrite (getQueue_present _ _ _ Hq).
  destruct (heap w !! q) as [s|]; [|done].
  destruct (queue s) as [|hd tl].
  - by rewrite setIdleTimeout_queues.
  - destruct (selectTrack s hd tl). simpl. by rewrite clearIdleTimeout_queues.
Qed.

Lemma playNextTrack_same_player g w : evolves same_player w (playNextTrack g w).
Proof. apply evolves_playNextTrack; unfold same_player; try done; congruence. Qed.

Lemma tidy_playNextTrack g w : tidy w → tidy (playNextTrack g w).
Proof.
  intros H. apply (tidy_getQueue g) in H. rewrite playNextTrack_getQueue.
  pose proof (getQueue_entry g w) as Hq.
  destruct (getQueue g w) as [q w0]. simpl in *.
  eapply tidy_evolves; [|apply playNextTrack_same_player|exact H].
  by eapply playNextTrack_queues.
Qed.

Lemma tidy_onIdle q w : tidy w → tidy (onIdle q w).
Proof.
  intros H. unfold onIdle.
  destruct (heap w !! q) as [s|]; [|done].
  destruct (listeners (player s)) as [g|]; [|done].
  destruct (negb _); [by apply tidy_playNextTrack | by eapply tidy_same].
Qed.

Lemma tidy_player_stop b q w : tidy w → tidy (player_stop b q w).
Proof.
  intros H. unfold player_stop.
  assert (H' : tidy (emit (PlayerStop q) w)) by (by eapply tidy_same).
  destruct b; [by apply tidy_onIdle | done].
Qed.

Lemma tidy_clearIdleTimeout g w : tidy w → tidy (clearIdleTimeout g w).
Proof.
  apply tidy_evolves; [apply clearIdleTimeout_queues|].
  apply evolves_clearIdleTimeout; unfold same_player; done.
Qed.

(** Registering the listeners of guild [g] on the object of guild [g]. *)
Lemma tidy_joined g c q w :
  queues w !! g = Some q → tidy w → tidy (modify q (joined g c) w).
Proof.
  intros Hq (Ha & Hb & Hc). split; [|split]; simpl.
  - intros g1 q1 H1. destruct (Ha g1 q1 H1) as [s Hs].
    destruct (decide (q = q1)) as [<-|Hne].
    + rewrite list_lookup_alter_eq, Hs. by eexists.
    + rewrite list_lookup_alter_ne by done. by eexists.
  - exact Hb.
  - intros g1 q1 s g' H1 Hs Hl. destruct (decide (q = q1)) as [<-|Hne].
    + rewrite list_lookup_alter_eq in Hs.
      destruct (heap w !! q) as [s0|]; simpl in Hs; [|done].
      inversion Hs; subst. simpl in Hl. inversion Hl; subst. by eapply Hb.
    + rewrite list_lookup_alter_ne in Hs by done. by eapply Hc.
Qed.

Lemma tidy_commandPlay message args found w :
  tidy w → tidy (commandPlay message args found w).
Proof.
  intros H. apply (tidy_getQueue (guild_id message)) in H.
  rewrite commandPlay_getQueue.
  pose proof (getQueue_entry (guild_id message) w) as Hq.
  destruct (getQueue (guild_id message) w) as [q w0]. simpl in *.
  destruct (voice_channel message) as [vc|] eqn:Hvc;
    [|unfold commandPlay; rewrite (getQueue_present _ _ _ Hq), Hvc; by eapply tidy_same].
  destruct args as [|a args];
    [unfold commandPlay; rewrite (getQueue_present _ _ _ Hq), Hvc; by eapply tidy_same|].
  destruct found as [v|];
    [|unfold commandPlay; rewrite (getQueue_present _ _ _ Hq), Hvc; by eapply tidy_same].
  destruct (proj1 H _ _ Hq) as [s Hs].
  rewrite (commandPlay_present _ _ _ _ _ _ _ _ Hq Hs Hvc). cbv zeta.
  set (w1 := modify q _ _).
  assert (H1 : tidy w1).
  { subst w1. apply tidy_modify; [done|]. by eapply tidy_same. }
  assert (Hann : ∀ w2, tidy w2 → tidy (announce message (trackOf message v) s w2)).
  { intros w2 H2. unfold announce. destruct (isPlaying s).
    - by eapply tidy_same.
    - apply tidy_playNextTrack. by eapply tidy_same. }
  destruct (connection s) as [c|]; [by apply Hann|].
  destruct (negb _ || negb _); [by eapply tidy_same|].
  apply Hann. apply tidy_joined; [done|]. by eapply tidy_same.
Qed.

Lemma tidy_commandSkip message b w : tidy w → tidy (commandSkip message b w).
Proof.
  intros H. unfold commandSkip.
  destruct (voice_channel message) as [vc|]; [|by eapply tidy_same].
  destruct (queues w !! guild_id message) as [q|]; simpl; [|by eapply tidy_same].
  destruct (heap w !! q) as [s|] eqn:Hs; simpl; [|by eapply tidy_same].
  destruct (isPlaying s); simpl; [|by eapply tidy_same].
  assert (Hend : ∀ w1, tidy w1 →
            tidy (match currentTrack s with
                  | Some t => emit (Reply (Skipped t)) w1
                  | None => w1
                  end)).
  { intros w1 H1. destruct (currentTrack s); [by eapply tidy_same | done]. }
  apply Hend.
  destruct (loopMode s =? LoopMode.TRACK); [|by apply tidy_player_stop].
  apply tidy_modify; [done|]. apply tidy_player_stop. by apply tidy_modify.
Qed.

Lemma tidy_commandStop message b w : tidy w → tidy (commandStop message b w).
Proof.
  intros H. unfold commandStop.
  destruct (voice_channel message) as [vc|]; [|by eapply tidy_same].
  destruct (_ ≫= _) as [[q c]|]; [|by eapply tidy_same].
  apply tidy_emit, tidy_delete, tidy_clearIdleTimeout, tidy_emit, tidy_player_stop.
  do 3 (apply tidy_modify; [done|]). exact H.
Qed.

Lemma tidy_commandLoop message w : tidy w → tidy (commandLoop message w).
Proof.
  intros H. unfold commandLoop.
  destruct (_ ≫= _) as [[q s]|]; [|by apply tidy_emit].
  apply tidy_emit. by apply tidy_modify.
Qed.

Lemma tidy_step w e : tidy w → tidy (step w e).
Proof.
  intros H. destruct e; simpl.
  - by apply tidy_commandPlay.
  - by apply tidy_commandSkip.
  - by apply tidy_commandStop.
  - by apply tidy_commandLoop.
  - destruct (suspended w !! k) as [inv|]; [|done].
    apply (tidy_same w); [|by rewrite resume_keeps_heap|exact H].
    unfold playNextTrack_resume. simpl.
    destruct (heap w !! _) as [s0|]; [|done]. by destruct (textChannel s0).
  - destruct (suspended w !! k) as [inv|]; [|done].
    unfold playNextTrack_catch. simpl.
    destruct (heap w !! s_queue inv) as [s|]; [|by apply (tidy_same w)].
    destruct (retryCount s <? MAX_RETRIES).
    + apply (tidy_same (modify (s_queue inv) (set_retryCount (retryCount s + 1))
                          (set_suspended (delete k (suspended w)) w)));
        [done..|].
      apply tidy_modify; [done|]. by apply (tidy_same w).
    + destruct (textChannel s); by apply (tidy_same w).
  - destruct (timers w !! t) as [tm|]; [|done].
    assert (H' : tidy (clearTimeout t w)) by (by eapply tidy_same).
    destruct (callback tm); simpl.
    + by apply tidy_playNextTrack.
    + unfold idleExpired. destruct (heap _ !! q) as [s|]; [|done].
      destruct (connection s); [|done].
      apply (tidy_delete guildId (emit _ (clearTimeout t w))). by eapply tidy_same.
  - by apply tidy_onIdle.
  - unfold onError. destruct (heap w !! q) as [s|]; [|done].
    destruct (listeners (player s)); [|done]. by apply tidy_playNextTrack.
Qed.

Lemma reachable_tidy es : tidy (run es initial).
Proof.
  assert (H : ∀ w, tidy w → tidy (run es w)).
  { induction es as [|e es IH]; intros w Hw; [done|].
    rewrite run_cons. apply IH. by apply tidy_step. }
  apply H. split; [|split]; simpl.
  - intros g q Hq. by rewrite lookup_empty in Hq.
  - intros g1 g2 q Hq. by rewrite lookup_empty in Hq.
  - intros g q s g' Hq. by rewrite lookup_empty in Hq.
Qed.

(** X4: after any run of the event loop, every table entry refers to a
    session object, two guilds never share one, and a player's listeners
    carry the id of the guild the object belongs to. *)
Theorem table_stays_tidy es : tidy (run es initial).
Proof.
  assert (H : ∀ w, tidy w → tidy (run es w)).
  { induction es as [|e es IH]; intros w Hw; [done|].
    rewrite run_cons. apply IH. by apply tidy_step. }
  apply H. split; [|split]; simpl.
  - intros g q Hq. by rewrite lookup_empty in Hq.
  - intros g1 g2 q Hq. by rewrite lookup_empty in Hq.
  - intros g q s g' Hq. by rewrite lookup_empty in Hq.
Qed.

(** ** Guilds do not interfere *)

Lemma spares_refl g w : spares g w w.
Proof. by split. Qed.

Lemma spares_trans g w1 w2 w3 : spares g w1 w2 → spares g w2 w3 → spares g w1 w3.
Proof.
  intros [Q1 H1] [Q2 H2]. split; [congruence|].
  intros q Hq. rewrite H2 by congruence. by apply H1.
Qed.

Lemma spares_same g w w' : queues w' = queues w → heap w' = heap w → spares g w w'.
Proof. intros Eq Eh. split; by rewrite ?Eq, ?Eh. Qed.

Lemma spares_session g w w' : spares g w w' → session g w' = session g w.
Proof.
  intros [Q H]. unfold session. rewrite Q.
  destruct (queues w !! g) as [q|] eqn:Hq; simpl; [|done]. by apply H.
Qed.

Lemma spares_modify g q f w : queues w !! g ≠ Some q → spares g w (modify q f w).
Proof.
  intros Hne. split; [done|]. intros q' Hq'.
  apply lookup_modify_ne. congruence.
Qed.

(** In a tidy table the object of another guild is another object. *)
Lemma tidy_other g g0 q0 w :
  tidy w → g ≠ g0 → queues w !! g0 = Some q0 → queues w !! g ≠ Some q0.
Proof. intros (_ & Hb & _) Hne H0 H. apply Hne. by eapply Hb. Qed.

Lemma spares_getQueue g g0 w : tidy w → g ≠ g0 → spares g w (getQueue g0 w).2.
Proof.
  intros (Ha & _) Hne. unfold getQueue.
  destruct (queues w !! g0) eqn:H0; simpl; [apply spares_refl|].
  split; simpl.
  - by rewrite lookup_insert_ne.
  - intros q Hq. destruct (Ha g q Hq) as [s Hs]. rewrite Hs.
    by apply lookup_app_l_Some.
Qed.

Lemma spares_clearIdleTimeout g g0 w :
  tidy w → g ≠ g0 → spares g w (clearIdleTimeout g0 w).
Proof.
  intros Ht Hne. unfold clearIdleTimeout.
  destruct (queues w !! g0) as [q0|] eqn:H0; [|apply spares_refl].
  destruct (heap w !! q0) as [s|]; [|apply spares_refl].
  destruct (idleTimeout s) as [t|]; [|apply spares_refl].
  apply (spares_trans _ _ (clearTimeout t w)); [by apply spares_same|].
  apply spares_modify. by eapply tidy_other.
Qed.

Lemma spares_setIdleTimeout g g0 w :
  tidy w → g ≠ g0 → spares g w (setIdleTimeout g0 w).
Proof.
  intros Ht Hne. unfold setIdleTimeout.
  pose proof (spares_clearIdleTimeout g g0 w Ht Hne) as H1.
  pose proof (tidy_clearIdleTimeout g0 w Ht) as Ht1.
  destruct (queues (clearIdleTimeout g0 w) !! g0) as [q0|] eqn:H0; [|done].
  eapply spares_trans; [exact H1|]. simpl.
  apply (spares_trans _ _ (setTimeout (CbIdle g0 q0) IDLE_TIMEOUT (clearIdleTimeout g0 w)).2);
    [by apply spares_same|].
  apply spares_modify. simpl. by eapply tidy_other.
Qed.

Lemma spares_playNextTrack g g0 w :
  tidy w → g ≠ g0 → spares g w (playNextTrack g0 w).
Proof.
  intros Ht Hne.
  pose proof (spares_getQueue g g0 w Ht Hne) as H0.
  pose proof (tidy_getQueue g0 w Ht) as Ht0.
  pose proof (getQueue_entry g0 w) as Hq.
  rewrite playNextTrack_getQueue.
  destruct (getQueue g0 w) as [q0 w0]. simpl in *.
  eapply spares_trans; [exact H0|].
  pose proof (tidy_other g g0 q0 w0 Ht0 Hne Hq) as Hother.
  destruct (proj1 Ht0 _ _ Hq) as [s Hs].
  rewrite (playNextTrack_at _ _ _ _ Hq Hs).
  destruct (queue s) as [|hd tl].
  - eapply spares_trans; [by apply (spares_modify g q0 unload)|].
    apply spares_setIdleTimeout; [|done]. by apply tidy_modify.
  - eapply spares_trans; [by apply (spares_clearIdleTimeout g g0)|].
    pose proof (tidy_clearIdleTimeout g0 w0 Ht0) as Ht1.
    eapply spares_trans; [|by apply spares_same].
    apply spares_modify. rewrite clearIdleTimeout_queues. exact Hother.
Qed.

Lemma spares_player_stop g g0 q0 b w :
  tidy w → g ≠ g0 → queues w !! g0 = Some q0 → spares g w (player_stop b q0 w).
Proof.
  intros Ht Hne H0. unfold player_stop.
  assert (H1 : spares g w (emit (PlayerStop q0) w)) by (by apply spares_same).
  destruct b; [|done]. eapply spares_trans; [exact H1|].
  unfold onIdle. destruct (heap _ !! q0) as [s|] eqn:Hs; [|apply spares_refl].
  destruct (listeners (player s)) as [g''|] eqn:Hl; [|apply spares_refl].
  assert (g'' = g0) by (by eapply (proj2 (proj2 Ht))). subst g''.
  destruct (negb _); [|by apply spares_same].
  apply spares_playNextTrack; [by apply tidy_emit | done].
Qed.

Lemma spares_commandPlay g message args found w :
  tidy w → g ≠ guild_id message → spares g w (commandPlay message args found w).
Proof.
  intros Ht Hne.
  pose proof (spares_getQueue g _ w Ht Hne) as H0.
  pose proof (tidy_getQueue (guild_id message) w Ht) as Ht0.
  pose proof (getQueue_entry (guild_id message) w) as Hq.
  rewrite commandPlay_getQueue.
  destruct (getQueue (guild_id message) w) as [q0 w0]. simpl in *.
  eapply spares_trans; [exact H0|].
  pose proof (tidy_other g _ q0 w0 Ht0 Hne Hq) as Hother.
  destruct (voice_channel message) as [vc|] eqn:Hvc;
    [|unfold commandPlay; rewrite (getQueue_present _ _ _ Hq), Hvc; by apply spares_same].
  destruct args as [|a args];
    [unfold commandPlay; rewrite (getQueue_present _ _ _ Hq), Hvc; by apply spares_same|].
  destruct found as [v|];
    [|unfold commandPlay; rewrite (getQueue_present _ _ _ Hq), Hvc; by apply spares_same].
  destruct (proj1 Ht0 _ _ Hq) as [s Hs].
  rewrite (commandPlay_present _ _ _ _ _ _ _ _ Hq Hs Hvc). cbv zeta.
  set (w1 := modify q0 _ _).
  assert (Ht1 : tidy w1).
  { subst w1. apply tidy_modify; [done|]. by apply tidy_emit. }
  assert (H1 : spares g w0 w1).
  { subst w1. apply (spares_trans _ _ (emit (Reply Searching) w0));
      [by apply spares_same|]. by apply spares_modify. }
  assert (Hann : ∀ w2, tidy w2 → spares g w0 w2 →
                       spares g w0 (announce message (trackOf message v) s w2)).
  { intros w2 Ht2 H2. eapply spares_trans; [exact H2|]. unfold announce.
    destruct (isPlaying s); [by apply spares_same|].
    eapply spares_trans; [|apply spares_playNextTrack; [by apply tidy_emit|done]].
    by apply spares_same. }
  destruct (connection s) as [c|]; [by apply Hann|].
  destruct (negb _ || negb _).
  { eapply spares_trans; [exact H1|]. by apply spares_same. }
  apply Hann.
  - apply tidy_joined; [done|]. by apply (tidy_same w1).
  - eapply spares_trans; [exact H1|].
    apply (spares_trans _ _ (joinVoiceChannel vc w1).2); [by apply spares_same|].
    apply spares_modify. exact Hother.
Qed.

Lemma spares_commandSkip g message b w :
  tidy w → g ≠ guild_id message → spares g w (commandSkip message b w).
Proof.
  intros Ht Hne. unfold commandSkip.
  destruct (voice_channel message) as [vc|]; [|by apply spares_same].
  destruct (queues w !! guild_id message) as [q0|] eqn:H0; simpl;
    [|by apply spares_same].
  destruct (heap w !! q0) as [s|] eqn:Hs; simpl; [|by apply spares_same].
  destruct (isPlaying s); simpl; [|by apply spares_same].
  pose proof (tidy_other g _ q0 w Ht Hne H0) as Hother.
  assert (Hend : ∀ w1, spares g w w1 →
            spares g w (match currentTrack s with
                        | Some t => emit (Reply (Skipped t)) w1
                        | None => w1
                        end)).
  { intros w1 H1. destruct (currentTrack s); [|done].
    eapply spares_trans; [exact H1|]. by apply spares_same. }
  apply Hend.
  destruct (loopMode s =? LoopMode.TRACK).
  - eapply spares_trans; [by apply (spares_modify g q0 (set_loopMode LoopMode.OFF))|].
    assert (Ht1 : tidy (modify q0 (set_loopMode LoopMode.OFF) w))
      by (by apply tidy_modify).
    eapply spares_trans; [by apply (spares_player_stop g (guild_id message) q0 b)|].
    apply spares_modify.
    assert (Hq' : queues (player_stop b q0 (modify q0 (set_loopMode LoopMode.OFF) w))
                  !! guild_id message = Some q0).
    { by apply (proj1 (player_stop_same_loopMode b q0 _)). }
    eapply tidy_other; [by apply tidy_player_stop|done|exact Hq'].
  - by apply (spares_player_stop g (guild_id message)).
Qed.

Lemma spares_commandStop g message b w :
  tidy w → g ≠ guild_id message → spares g w (commandStop message b w).
Proof.
  intros Ht Hne. unfold commandStop.
  destruct (voice_channel message) as [vc|]; [|by apply spares_same].
  destruct (_ ≫= _) as [[q0 c]|] eqn:Hact; [|by apply spares_same].
  destruct (active_Some _ _ _ _ Hact) as (H0 & _).
  pose proof (tidy_other g _ q0 w Ht Hne H0) as Hother.
  rewrite !modify_modify.
  set (w0 := modify q0 _ w).
  assert (Ht0 : tidy w0) by (subst w0; by apply tidy_modify).
  assert (S0 : spares g w w0) by (subst w0; by apply spares_modify).
  pose proof (spares_player_stop g _ q0 b w0 Ht0 Hne H0) as S1.
  pose proof (tidy_player_stop b q0 w0 Ht0) as Ht1.
  set (w1 := player_stop b q0 w0) in *.
  pose proof (spares_clearIdleTimeout g (guild_id message)
                (emit (ConnectionDestroy c) w1) (tidy_emit _ _ Ht1) Hne) as S2.
  eapply spares_trans; [exact S0|]. eapply spares_trans; [exact S1|].
  apply (spares_trans _ _ (emit (ConnectionDestroy c) w1)); [by apply spares_same|].
  eapply spares_trans; [exact S2|].
  split; simpl; [by rewrite lookup_delete_ne|done].
Qed.

Lemma spares_commandLoop g message w :
  tidy w → g ≠ guild_id message → spares g w (commandLoop message w).
Proof.
  intros Ht Hne. unfold commandLoop.
  destruct (queues w !! guild_id message) as [q0|] eqn:H0; simpl;
    [|by apply spares_same].
  destruct (heap w !! q0) as [s|]; simpl; [|by apply spares_same].
  destruct (currentTrack s); simpl; [|by apply spares_same].
  eapply spares_trans; [|by apply spares_same].
  apply spares_modify. by eapply tidy_other.
Qed.

(** X5: a command issued in one guild leaves the session of every other
    guild as it is: its table entry, its queue, its current track, its
    loop mode and all the rest. *)
Theorem commands_stay_in_their_guild es e g g' :
  guild_of e = Some g → g' ≠ g →
  session g' (step (run es initial) e) = session g' (run es initial).
Proof.
  intros He Hne. apply spares_session.
  pose proof (reachable_tidy es) as Ht.
  destruct e; simpl in He; try discriminate; inversion He; subst g; simpl.
  - by apply spares_commandPlay.
  - by apply spares_commandSkip.
  - by apply spares_commandStop.
  - by apply spares_commandLoop.
Qed.

(** X5 at two guilds that both play: %stop in g leaves the session of h. *)
Lemma commands_stay_in_their_guild_witness :
  session "h"%string (step (run twoGuilds initial) (Stop alice false))
  = session "h"%string (run twoGuilds initial).
Proof.
  apply (commands_stay_in_their_guild twoGuilds (Stop alice false) "g"%string "h"%string).
  - reflexivity.
  - discriminate.
Defined.

(** ** Refused commands *)

(** X6: after any run, a %skip that is accepted (caller in a voice
    channel, session playing) finds a current track, and its last act is
    the reply that names it: the title of the skipped track is never read
    from a missing track. *)
Theorem accepted_skip_names_the_track es message raisesIdle vc s :
  voice_channel message = Some vc →
  session (guild_id message) (run es initial) = Some s →
  isPlaying s = true →
  ∃ t, currentTrack s = Some t
       ∧ last (out (commandSkip message raisesIdle (run es initial)))
         = Some (Reply (Skipped t)).
Proof.
  intros Hvc Hs Hp. set (w := run es initial) in *.
  unfold session in Hs.
  destruct (queues w !! guild_id message) as [q|] eqn:Hq; simpl in Hs; [|done].
  pose proof (reachable_playing_matches_current es q s Hs) as Hiff.
  destruct (proj1 Hiff Hp) as [t Ht]. exists t. split; [done|].
  unfold commandSkip. rewrite Hvc. fold w. rewrite Hq. simpl. rewrite Hs. simpl.
  rewrite Hp, Ht. simpl. apply last_snoc.
Qed.

(** X6 at the session playing A. *)
Lemma accepted_skip_names_the_track_witness :
  ∃ t, currentTrack (the_session playingA) = Some t
       ∧ last (out (commandSkip alice false playingA)) = Some (Reply (Skipped t)).
Proof.
  apply (accepted_skip_names_the_track
           [Play alice ["A"%string] (Some songA); StreamReady 0%nat]
           alice false "vc"%string (the_session playingA));
    vm_compute; reflexivity.
Defined.

(** X7: a %play that is refused before anything is queued (caller not in
    a voice channel, empty query, or nothing found) still enters a session
    for a guild that had none: the table grows by one entry, the session
    is the empty one, it has no connection, so %stop will not remove it,
    and no timer is armed that would. *)
Theorem refused_play_creates_session message args found w :
  queues w !! guild_id message = None →
  voice_channel message = None ∨ args = [] ∨ found = None →
  let w' := commandPlay message args found w in
  session (guild_id message) w' = Some newQueue
  ∧ size (queues w') = S (size (queues w))
  ∧ active (guild_id message) w' = None
  ∧ (∀ b, voice_channel message ≠ None →
          commandStop message b w' = emit (Reply NothingToStop) w')
  ∧ timers w' = timers w
  ∧ suspended w' = suspended w
  ∧ attempts (out w') = attempts (out w).
Proof.
  intros Hq Hcase w'.
  assert (E : ∃ o, w' = mkWorld (<[guild_id message := length (heap w)]> (queues w))
                          (heap w ++ [newQueue]) (timers w) (nextTimer w)
                          (suspended w) (nextSuspended w) (nextConnection w)
                          (out w ++ o)
                   ∧ attempts o = []).
  { subst w'. unfold commandPlay. rewrite (getQueue_absent _ _ Hq).
    destruct (voice_channel message) as [vc|]; [|by eexists].
    destruct args as [|a args]; [by eexists|].
    destruct found as [v|]; [by destruct Hcase as [?|[?|?]]|].
    exists [Reply Searching; Reply NotFound]. split; [|done].
    unfold emit. simpl. rewrite <- ?app_assoc. reflexivity. }
  destruct E as (o & E & Ho).
  assert (Hsess : session (guild_id message) w' = Some newQueue).
  { rewrite E. unfold session. simpl. rewrite lookup_insert_eq. simpl.
    apply lookup_snoc. }
  assert (Hact : active (guild_id message) w' = None).
  { unfold active. unfold session in Hsess.
    destruct (queues w' !! guild_id message) as [q|]; simpl in *; [|done].
    by rewrite Hsess. }
  split; [exact Hsess|].
  split; [rewrite E; simpl; by apply map_size_insert_None|].
  split; [exact Hact|].
  split.
  { intros b Hvc. unfold commandStop.
    destruct (voice_channel message); [|done].
    change (q ← queues w' !! guild_id message; s ← heap w' !! q; c ← connection s; Some (q, c))
      with (active (guild_id message) w').
    by rewrite Hact. }
  rewrite E. simpl. repeat split; try done.
  by rewrite attempts_app, Ho, app_nil_r.
Qed.

(** X7 when alice, outside any voice channel, is the first to write %play. *)
Lemma refused_play_creates_session_witness :
  session "g"%string (commandPlay alice_away ["A"%string] (Some songA) initial)
  = Some newQueue
  ∧ size (queues (commandPlay alice_away ["A"%string] (Some songA) initial)) = 1%nat.
Proof.
  pose proof (refused_play_creates_session alice_away ["A"%string] (Some songA) initial
                eq_refl (or_introl eq_refl)) as H.
  cbv zeta in H. destruct H as (H1 & H2 & _). exact (conj H1 H2).
Defined.

(** ** %play without permissions *)

(** X8: %play in a voice channel where the bot may not connect or speak,
    on a guild without a session.  The reply is Missing Permissions, but
    the track has been pushed before the check: it stays queued, nothing
    plays and there is no connection.  The next %play of the guild that
    passes the check then loads the earlier track, while its reply shows
    the new one under the title Now Playing, at position 2. *)
Theorem missing_permissions_keeps_the_track
    message a args v vc message' a' args' v' vc' w :
  vacant (guild_id message) w →
  voice_channel message = Some vc →
  can_connect message = false ∨ can_speak message = false →
  guild_id message' = guild_id message →
  voice_channel message' = Some vc' →
  can_connect message' = true → can_speak message' = true →
  let g := guild_id message in
  let t := trackOf message v in
  let t' := trackOf message' v' in
  let w1 := commandPlay message (a :: args) (Some v) w in
  let w2 := commandPlay message' (a' :: args') (Some v') w1 in
  last (out w1) = Some (Reply MissingPermissions)
  ∧ session g w1 = Some (enqueued message t newQueue)
  ∧ suspended w1 = suspended w
  ∧ attempts (out w1) = attempts (out w)
  ∧ (∃ s2, session g w2 = Some s2 ∧ currentTrack s2 = Some t ∧ queue s2 = [t']
           ∧ isPlaying s2 = true ∧ is_Some (connection s2))
  ∧ out w2 = out w1 ++ [Reply Searching; JoinVoiceChannel (nextConnection w) vc';
                        Reply (NowPlayingReply t' 2); Stream (url t)].
Proof.
  intros Hv Hvc Hperm Hg Hvc' Hcc' Hcs' g t t' w1 w2. subst g.
  destruct (vacant_getQueue (guild_id message) w Hv) as (Hq0 & Hs0 & Hsu0 & Hk0 & Ho0).
  assert (E1 : w1 = commandPlay message (a :: args) (Some v) (getQueue (guild_id message) w).2)
    by apply commandPlay_getQueue.
  destruct (getQueue (guild_id message) w) as [q w0] eqn:Eg. simpl in *.
  assert (Hnc0 : nextConnection w0 = nextConnection w).
  { unfold getQueue in Eg. destruct (queues w !! guild_id message); by inversion Eg. }
  rewrite (commandPlay_present _ _ _ _ _ _ _ _ Hq0 Hs0 Hvc) in E1. simpl in E1.
  assert (Hp : negb (can_connect message) || negb (can_speak message) = true).
  { destruct Hperm as [-> | ->]; [done|]. by destruct (can_connect message). }
  rewrite Hp in E1. fold t in E1.
  assert (Hq1 : queues w1 !! guild_id message' = Some q) by (rewrite Hg, E1; exact Hq0).
  assert (Hs1 : heap w1 !! q = Some (enqueued message t newQueue)).
  { rewrite E1. simpl. by rewrite list_lookup_alter_eq, Hs0. }
  assert (Ho1 : out w1 = out w ++ [Reply Searching; Reply MissingPermissions]).
  { rewrite E1. simpl. rewrite Ho0. by rewrite <- app_assoc. }
  assert (Hnc1 : nextConnection w1 = nextConnection w) by (by rewrite E1).
  split; [rewrite Ho1; by rewrite (last_app _ [_; _])|].
  split; [unfold session; rewrite <- Hg, Hq1; exact Hs1|].
  split; [by rewrite E1|].
  split; [rewrite Ho1, attempts_app; simpl; by rewrite app_nil_r|].
  assert (E2 : w2 = playNextTrack (guild_id message')
                      (emit (Reply (NowPlayingReply t' 2))
                         (modify q (joined (guild_id message') (nextConnection w1))
                            (joinVoiceChannel vc'
                               (modify q (enqueued message' t')
                                  (emit (Reply Searching) w1))).2))).
  { subst w2. rewrite (commandPlay_present _ _ _ _ _ _ _ _ Hq1 Hs1 Hvc').
    simpl. by rewrite Hcc', Hcs'. }
  set (wj := emit (Reply (NowPlayingReply t' 2)) _) in E2.
  set (sj := joined (guild_id message') (nextConnection w1)
               (enqueued message' t' (enqueued message t newQueue))).
  assert (Hqj : queues wj !! guild_id message' = Some q) by exact Hq1.
  assert (Hsj : heap wj !! q = Some sj).
  { subst wj. simpl. by rewrite !list_lookup_alter_eq, Hs1. }
  destruct (playNextTrack_select _ wj q sj t [t'] Hqj Hsj eq_refl)
    as (Hq2 & Hs2 & _ & _ & _ & _ & _ & Ho2).
  rewrite <- E2 in Hq2, Hs2, Ho2. simpl in Hs2, Ho2.
  split.
  { exists (load t [t'] (set_idleTimeout None sj)). split.
    - unfold session. rewrite <- Hg, Hq2, Hqj. simpl. exact Hs2.
    - simpl. repeat split; try done. }
  rewrite Ho2. subst wj. simpl. rewrite Hnc1. by rewrite <- !app_assoc.
Qed.

(** X8: carol asks for A where the bot may not speak, then alice asks
    for B. *)
Lemma missing_permissions_keeps_the_track_witness :
  let w1 := commandPlay carol ["A"%string] (Some songA) initial in
  let w2 := commandPlay alice ["B"%string] (Some songB) w1 in
  last (out w1) = Some (Reply MissingPermissions)
  ∧ out w2 = out w1 ++ [Reply Searching; JoinVoiceChannel 0%nat "vc"%string;
                        Reply (NowPlayingReply trackB 2);
                        Stream (url (trackOf carol songA))].
Proof.
  pose proof (missing_permissions_keeps_the_track carol "A"%string [] songA "stage"%string
                alice "B"%string [] songB "vc"%string initial
                I eq_refl (or_intror eq_refl) eq_refl eq_refl eq_refl eq_refl) as H.
  cbv zeta in H. destruct H as (H1 & _ & _ & _ & _ & H6). exact (conj H1 H6).
Defined.

(** ** One track after the other *)

(** The player goes Idle outside TRACK mode with something queued: the
    head of the queue is loaded. *)
Lemma idle_selects_head g w q s hd tl :
  queues w !! g = Some q → heap w !! q = Some s →
  listeners (player s) = Some g →
  loopMode s ≠ LoopMode.TRACK → queue s = hd :: tl →
  let w' := step w (PlayerIdle q) in
  queues w' = queues w
  ∧ heap w' !! q = Some (load hd (selectTrack s hd tl).2 (set_idleTimeout None s))
  ∧ out w' = out w ++ [Stream (url hd)].
Proof.
  intros Hq Hs Hl Hm Hqueue w'. subst w'. simpl. unfold onIdle. rewrite Hs, Hl.
  assert (Hb : (loopMode s =? LoopMode.TRACK) = false) by (by apply Z.eqb_neq).
  rewrite Hb. simpl.
  assert (Hfst : (selectTrack s hd tl).1 = hd).
  { unfold selectTrack. rewrite Hb.
    destruct (currentTrack s); by destruct (loopMode s =? LoopMode.QUEUE). }
  destruct (playNextTrack_select g w q s hd tl Hq Hs Hqueue)
    as (H1 & H2 & _ & _ & _ & _ & _ & H8).
  rewrite Hfst in H2, H8. done.
Qed.

Lemma drain_in_order g q l :
  ∀ w s,
    queues w !! g = Some q → heap w !! q = Some s →
    listeners (player s) = Some g →
    loopMode s = LoopMode.OFF → queue s = l →
    let w' := run (replicate (length l) (PlayerIdle q)) w in
    queues w' !! g = Some q
    ∧ attempts (out w') = attempts (out w) ++ (url <$> l)
    ∧ ∃ s', heap w' !! q = Some s' ∧ queue s' = []
            ∧ listeners (player s') = Some g
            ∧ loopMode s' = LoopMode.OFF
            ∧ match last l with
              | Some t => currentTrack s' = Some t ∧ isPlaying s' = true
              | None => s' = s
              end.
Proof.
  induction l as [|hd tl IH]; intros w s Hq Hs Hl Hm Hqueue.
  - simpl. split; [done|]. split; [by rewrite app_nil_r|]. by exists s.
  - assert (Hm' : loopMode s ≠ LoopMode.TRACK) by (by rewrite Hm).
    destruct (idle_selects_head g w q s hd tl Hq Hs Hl Hm' Hqueue) as (H1 & H2 & H3).
    rewrite (selectTrack_OFF _ _ _ Hm) in H2. simpl in H2.
    simpl length. simpl replicate. rewrite run_cons. cbv zeta.
    set (w1 := step w (PlayerIdle q)) in *.
    assert (Hq1 : queues w1 !! g = Some q) by (by rewrite H1).
    destruct (IH w1 _ Hq1 H2 Hl Hm eq_refl)
      as (Hq2 & Ha2 & s' & Hs' & Hqu' & Hl' & Hm2 & Hlast).
    split; [exact Hq2|].
    split; [rewrite Ha2, H3, attempts_app; simpl; by rewrite <- app_assoc|].
    exists s'. split; [exact Hs'|]. split; [exact Hqu'|].
    split; [exact Hl'|]. split; [exact Hm2|].
    destruct tl as [|t2 tl'].
    + simpl in Hlast. subst s'. simpl. done.
    + change (last (hd :: t2 :: tl')) with (last (t2 :: tl')).
      destruct (last (t2 :: tl')) eqn:E; [exact Hlast | by apply last_None in E].
Qed.

(** X9: with the loop off, as many Idle events as there are queued tracks
    load the tracks in queue order, one stream request each, and leave the
    queue empty with the last track current; the next Idle event clears
    the current track and the playing flag without another request. *)
Theorem queue_plays_in_order g w q s :
  queues w !! g = Some q → heap w !! q = Some s →
  listeners (player s) = Some g →
  loopMode s = LoopMode.OFF → queue s ≠ [] →
  let w' := run (replicate (length (queue s)) (PlayerIdle q)) w in
  let w'' := step w' (PlayerIdle q) in
  attempts (out w') = attempts (out w) ++ (url <$> queue s)
  ∧ (∃ s', heap w' !! q = Some s' ∧ queue s' = []
           ∧ currentTrack s' = last (queue s) ∧ isPlaying s' = true)
  ∧ attempts (out w'') = attempts (out w')
  ∧ (∃ s'', heap w'' !! q = Some s'' ∧ queue s'' = []
            ∧ currentTrack s'' = None ∧ isPlaying s'' = false).
Proof.
  intros Hq Hs Hl Hm Hne w' w''.
  destruct (drain_in_order g q (queue s) w s Hq Hs Hl Hm eq_refl)
    as (Hq' & Ha & s' & Hs' & Hqu' & Hl' & Hm' & Hlast).
  fold w' in Hq', Ha, Hs'.
  destruct (last (queue s)) as [t|] eqn:Hlt.
  2: { apply last_None in Hlt. done. }
  destruct Hlast as [Hc' Hp'].
  split; [exact Ha|].
  split; [by exists s'|].
  assert (E : w'' = playNextTrack g w').
  { subst w''. simpl. unfold onIdle. by rewrite Hs', Hl', Hm'. }
  destruct (playNextTrack_empty g w' q s' Hq' Hs' Hqu') as (_ & H2 & _ & _ & _ & H6).
  rewrite <- E in H2, H6.
  split; [by rewrite H6|].
  eexists. split; [exact H2|]. by simpl.
Qed.

Lemma rotate_through g q l1 :
  ∀ l2 w s,
    queues w !! g = Some q → heap w !! q = Some s →
    listeners (player s) = Some g →
    loopMode s = LoopMode.QUEUE → queue s = l1 ++ l2 →
    let w' := run (replicate (length l1) (PlayerIdle q)) w in
    queues w' !! g = Some q
    ∧ attempts (out w') = attempts (out w) ++ (url <$> l1)
    ∧ ∃ s', heap w' !! q = Some s' ∧ queue s' = l2 ++ l1
            ∧ loopMode s' = LoopMode.QUEUE
            ∧ (l1 ≠ [] → currentTrack s' = last l1 ∧ isPlaying s' = true).
Proof.
  induction l1 as [|hd tl IH]; intros l2 w s Hq Hs Hl Hm Hqueue.
  - simpl. split; [done|]. split; [by rewrite app_nil_r|].
    exists s. rewrite app_nil_r. by repeat split.
  - assert (Hm' : loopMode s ≠ LoopMode.TRACK) by (by rewrite Hm).
    destruct (idle_selects_head g w q s hd (tl ++ l2) Hq Hs Hl Hm' Hqueue)
      as (H1 & H2 & H3).
    rewrite (selectTrack_QUEUE _ _ _ Hm) in H2. simpl in H2.
    simpl length. simpl replicate. rewrite run_cons. cbv zeta.
    set (w1 := step w (PlayerIdle q)) in *.
    assert (Hq1 : queues w1 !! g = Some q) by (by rewrite H1).
    assert (Hqueue1 : queue (load hd ((tl ++ l2) ++ [hd]) (set_idleTimeout None s))
                      = tl ++ (l2 ++ [hd])) by (simpl; by rewrite <- app_assoc).
    destruct (IH (l2 ++ [hd]) w1 _ Hq1 H2 Hl Hm Hqueue1)
      as (Hq2 & Ha2 & s' & Hs' & Hqu' & Hm2 & Hcur).
    split; [exact Hq2|].
    split; [rewrite Ha2, H3, attempts_app; simpl; by rewrite <- app_assoc|].
    exists s'. split; [exact Hs'|].
    split; [rewrite Hqu'; by rewrite <- app_assoc|].
    split; [exact Hm2|]. intros _.
    destruct tl as [|t2 tl'].
    + assert (E : Some s' = Some (load hd (([] ++ l2) ++ [hd]) (set_idleTimeout None s)))
        by (rewrite <- H2; symmetry; exact Hs').
      inversion E; subst s'. done.
    + change (last (hd :: t2 :: tl')) with (last (t2 :: tl')). by apply Hcur.
Qed.

(** X10: in QUEUE mode, as many Idle events as there are queued tracks
    load each queued track once, in queue order, and leave the queue
    exactly as it was: the queue cycles. *)
Theorem queue_loop_comes_round g w q s :
  queues w !! g = Some q → heap w !! q = Some s →
  listeners (player s) = Some g →
  loopMode s = LoopMode.QUEUE → queue s ≠ [] →
  let w' := run (replicate (length (queue s)) (PlayerIdle q)) w in
  attempts (out w') = attempts (out w) ++ (url <$> queue s)
  ∧ ∃ s', heap w' !! q = Some s' ∧ queue s' = queue s
          ∧ currentTrack s' = last (queue s) ∧ isPlaying s' = true
          ∧ loopMode s' = LoopMode.QUEUE.
Proof.
  intros Hq Hs Hl Hm Hne w'.
  destruct (rotate_through g q (queue s) [] w s Hq Hs Hl Hm)
    as (_ & Ha & s' & Hs' & Hqu' & Hm' & Hcur); [by rewrite app_nil_r|].
  split; [exact Ha|]. exists s'. destruct (Hcur Hne) as [Hc Hp].
  by repeat split.
Qed.

(** X9 at A playing with B and C queued. *)
Lemma queue_plays_in_order_witness :
  attempts (out (run (replicate (length (queue (the_session queuedBC))) (PlayerIdle 0%nat))
                     queuedBC))
  = attempts (out queuedBC) ++ (url <$> queue (the_session queuedBC)).
Proof.
  assert (H1 : queues queuedBC !! "g"%string = Some 0%nat) by (vm_compute; reflexivity).
  assert (H2 : heap queuedBC !! 0%nat = Some (the_session queuedBC))
    by (vm_compute; reflexivity).
  assert (H3 : listeners (player (the_session queuedBC)) = Some "g"%string)
    by (vm_compute; reflexivity).
  assert (H4 : loopMode (the_session queuedBC) = LoopMode.OFF)
    by (vm_compute; reflexivity).
  assert (H5 : queue (the_session queuedBC) ≠ []) by (vm_compute; discriminate).
  exact (proj1 (queue_plays_in_order "g"%string queuedBC 0%nat (the_session queuedBC)
                  H1 H2 H3 H4 H5)).
Defined.

(** X10 at A playing in QUEUE mode with B, C and A queued. *)
Lemma queue_loop_comes_round_witness :
  ∃ s', heap (run (replicate (length (queue (the_session cyclingABC))) (PlayerIdle 0%nat))
                  cyclingABC) !! 0%nat = Some s'
        ∧ queue s' = queue (the_session cyclingABC)
        ∧ currentTrack s' = last (queue (the_session cyclingABC))
        ∧ isPlaying s' = true
        ∧ loopMode s' = LoopMode.QUEUE.
Proof.
  assert (H1 : queues cyclingABC !! "g"%string = Some 0%nat) by (vm_compute; reflexivity).
  assert (H2 : heap cyclingABC !! 0%nat = Some (the_session cyclingABC))
    by (vm_compute; reflexivity).
  assert (H3 : listeners (player (the_session cyclingABC)) = Some "g"%string)
    by (vm_compute; reflexivity).
  assert (H4 : loopMode (the_session cyclingABC) = LoopMode.QUEUE)
    by (vm_compute; reflexivity).
  assert (H5 : queue (the_session cyclingABC) ≠ []) by (vm_compute; discriminate).
  exact (proj2 (queue_loop_comes_round "g"%string cyclingABC 0%nat (the_session cyclingABC)
                  H1 H2 H3 H4 H5)).
Defined.

(** ** %play from await to await *)

(** A %play none of whose awaits lets another handler in is the three
    parts run one after the other. *)
Lemma commandPlay_phases message args found w :
  commandPlay message args found w =
  match commandPlay_begin message args w with
  | (Some (q, voiceChannel), w1) =>
      let c := mkPlayCall message voiceChannel q found in
      let '(goes_on, w2) := commandPlay_found c w1 in
      if goes_on then commandPlay_finish c w2 else w2
  | (None, w1) => w1
  end.
Proof.
  unfold commandPlay, commandPlay_begin, commandPlay_found, commandPlay_finish.
  destruct (getQueue (guild_id message) w) as [q w0].
  destruct (voice_channel message) as [vc|]; [|done].
  destruct args as [|a args]; [done|].
  destruct found as [v|]; [|done].
  cbn [c_message c_voiceChannel c_queue c_found].
  set (w1 := modify q (set_textChannel _) _).
  destruct (heap w1 !! q) as [s|] eqn:Hs.
  - destruct (connection s) as [cn|].
    + rewrite Hs. cbn [heap emit]. rewrite Hs. by destruct (isPlaying s).
    + destruct (negb _ || negb _); [done|].
      unfold joinVoiceChannel. cbv beta iota zeta.
      set (w2 := modify q (set_player _) _).
      destruct (heap w2 !! q) as [s2|] eqn:Hs2; [|by rewrite Hs2].
      cbn [heap emit]. rewrite Hs2. by destruct (isPlaying s2).
  - rewrite Hs. by rewrite Hs.
Qed.

(** ** Idle timers *)

Lemma idle_same w w' :
  heap w' = heap w → timers w' = timers w → idle_ok w → idle_ok w'.
Proof. unfold idle_ok. intros -> ->. done. Qed.

Lemma idle_emit o w : idle_ok w → idle_ok (emit o w).
Proof. exact (idle_same w _ eq_refl eq_refl). Qed.

Lemma idle_suspend k w : idle_ok w → idle_ok (suspend k w).
Proof. exact (idle_same w _ eq_refl eq_refl). Qed.

Lemma idle_set_queues v w : idle_ok w → idle_ok (set_queues v w).
Proof. exact (idle_same w _ eq_refl eq_refl). Qed.

Lemma idle_set_suspended v w : idle_ok w → idle_ok (set_suspended v w).
Proof. exact (idle_same w _ eq_refl eq_refl). Qed.

(** An update that leaves the idle timer alone and does not set the
    playing flag. *)
Lemma idle_modify q f w :
  (∀ s, idleTimeout (f s) = idleTimeout s) →
  (∀ s, isPlaying (f s) = false ∨ isPlaying (f s) = isPlaying s) →
  idle_ok w → idle_ok (modify q f w).
Proof.
  intros Hid Hpl Hi t g q' ms Htm.
  destruct (Hi t g q' ms Htm) as (s & Hs & Hidle & Hnp).
  destruct (decide (q = q')) as [<-|Hne].
  - exists (f s). split; [by apply lookup_modify_eq|]. rewrite Hid. split; [done|].
    destruct (Hpl s) as [E|E]; [done | by rewrite E].
  - exists s. by rewrite lookup_modify_ne.
Qed.

(** Any update of an object that records no idle timer, as long as it
    records none afterwards. *)
Lemma idle_modify_unarmed q f w s :
  heap w !! q = Some s → idleTimeout s = None →
  idle_ok w → idle_ok (modify q f w).
Proof.
  intros Hs Hnone Hi t g q' ms Htm.
  destruct (Hi t g q' ms Htm) as (s1 & Hs1 & Hidle & Hnp).
  destruct (decide (q = q')) as [<-|Hne]; [congruence|].
  exists s1. by rewrite lookup_modify_ne.
Qed.

Lemma idle_getQueue g w : idle_ok w → idle_ok (getQueue g w).2.
Proof.
  intros Hi. unfold getQueue. destruct (queues w !! g) as [q|]; simpl; [done|].
  intros t g' q' ms Htm. destruct (Hi t g' q' ms Htm) as (s & Hs & Hrest).
  exists s. split; [by apply lookup_app_l_Some | done].
Qed.

Lemma idle_setTimeout_advance g ms w :
  idle_ok w → idle_ok (setTimeout (CbAdvance g) ms w).2.
Proof.
  intros Hi t g' q' ms' Htm. simpl in Htm.
  destruct (decide (nextTimer w = t)) as [<-|Hne].
  - by rewrite lookup_insert_eq in Htm.
  - rewrite lookup_insert_ne in Htm by done. exact (Hi t g' q' ms' Htm).
Qed.

Lemma idle_clearTimeout t w : idle_ok w → idle_ok (clearTimeout t w).
Proof.
  intros Hi t' g q ms Htm. simpl in Htm.
  apply lookup_delete_Some in Htm as [_ Htm]. exact (Hi t' g q ms Htm).
Qed.

(** After [clearIdleTimeout] the session of the guild records no timer. *)
Lemma clearIdleTimeout_unarmed g w q s :
  queues w !! g = Some q → heap w !! q = Some s →
  heap (clearIdleTimeout g w) !! q = Some (set_idleTimeout None s).
Proof.
  intros Hq Hs. rewrite (clearIdleTimeout_at _ _ _ _ Hq Hs).
  destruct (idleTimeout s) eqn:Hid.
  - by apply lookup_modify_eq.
  - rewrite Hs. f_equal. rewrite <- Hid. by destruct s.
Qed.

Lemma idle_clearIdleTimeout g w : idle_ok w → idle_ok (clearIdleTimeout g w).
Proof.
  intros Hi. unfold clearIdleTimeout.
  destruct (queues w !! g) as [q|] eqn:Hq; [|done].
  destruct (heap w !! q) as [s|] eqn:Hs; [|done].
  destruct (idleTimeout s) as [t|] eqn:Hid; [|done].
  intros t' g' q' ms Htm. simpl in Htm.
  apply lookup_delete_Some in Htm as [Hne Htm].
  destruct (Hi t' g' q' ms Htm) as (s1 & Hs1 & Hidle & Hnp).
  destruct (decide (q = q')) as [<-|Hneq]; [congruence|].
  exists s1. by rewrite lookup_modify_ne.
Qed.

(** An object that records no idle timer has none pending. *)
Lemma unarmed_no_idle_timer w q s t g ms :
  idle_ok w → heap w !! q = Some s → idleTimeout s = None →
  timers w !! t ≠ Some (mkTimer (CbIdle g q) ms).
Proof.
  intros Hi Hs Hnone Htm.
  destruct (Hi t g q ms Htm) as (s1 & Hs1 & Hidle & _). congruence.
Qed.

Lemma idle_setIdleTimeout g w q s :
  queues w !! g = Some q → heap w !! q = Some s → isPlaying s = false →
  idle_ok w → idle_ok (setIdleTimeout g w).
Proof.
  intros Hq Hs Hnp Hi.
  pose proof (idle_clearIdleTimeout g w Hi) as H1.
  pose proof (clearIdleTimeout_unarmed g w q s Hq Hs) as Hs1.
  assert (Hq1 : queues (clearIdleTimeout g w) !! g = Some q)
    by (by rewrite clearIdleTimeout_queues).
  unfold setIdleTimeout. rewrite Hq1. simpl.
  set (w1 := clearIdleTimeout g w) in *.
  intros t g' q' ms Htm. simpl in Htm.
  destruct (decide (nextTimer w1 = t)) as [<-|Hne].
  - rewrite lookup_insert_eq in Htm. inversion Htm; subst g' q' ms.
    eexists. split; [by apply lookup_modify_eq|]. done.
  - rewrite lookup_insert_ne in Htm by done.
    destruct (decide (q = q')) as [<-|Hneq].
    + by destruct (unarmed_no_idle_timer w1 q _ t g' ms H1 Hs1 eq_refl).
    + destruct (H1 t g' q' ms Htm) as (s1 & Hs1' & Hrest).
      exists s1. by rewrite lookup_modify_ne.
Qed.

Lemma idle_playNextTrack g w : idle_ok w → idle_ok (playNextTrack g w).
Proof.
  intros H. apply (idle_getQueue g) in H. rewrite playNextTrack_getQueue.
  pose proof (getQueue_entry g w) as Hq.
  destruct (getQueue g w) as [q w0]. simpl in *.
  unfold playNextTrack. rewrite (getQueue_present _ _ _ Hq).
  destruct (heap w0 !! q) as [s|] eqn:Hs; [|done].
  destruct (queue s) as [|hd tl].
  - apply (idle_setIdleTimeout g _ q (set_isPlaying false (set_currentTrack None s))).
    + exact Hq.
    + apply lookup_modify_eq. by apply lookup_modify_eq.
    + done.
    + apply idle_modify; [done|by left|].
      apply idle_modify; [done|by right|]. exact H.
  - destruct (selectTrack s hd tl) as [track rest].
    apply idle_suspend, idle_emit.
    pose proof (clearIdleTimeout_unarmed g w0 q s Hq Hs) as Hs1.
    apply idle_modify; [done|by right|].
    apply (idle_modify_unarmed _ _ _
             (set_currentTrack (Some track) (set_queue rest (set_idleTimeout None s))));
      [do 2 (apply lookup_modify_eq); exact Hs1 | done |].
    apply idle_modify; [done|by right|].
    apply idle_modify; [done|by right|].
    by apply idle_clearIdleTimeout.
Qed.

Lemma idle_onIdle q w : idle_ok w → idle_ok (onIdle q w).
Proof.
  intros H. unfold onIdle.
  destruct (heap w !! q) as [s|]; [|done].
  destruct (listeners (player s)) as [g|]; [|done].
  destruct (negb _); [by apply idle_playNextTrack | by apply idle_setTimeout_advance].
Qed.

Lemma idle_player_stop b q w : idle_ok w → idle_ok (player_stop b q w).
Proof.
  intros H. unfold player_stop.
  apply (idle_emit (PlayerStop q)) in H.
  destruct b; [by apply idle_onIdle | done].
Qed.

Lemma idle_commandPlay_begin message args w :
  idle_ok w → idle_ok (commandPlay_begin message args w).2.
Proof.
  intros H. apply (idle_getQueue (guild_id message)) in H.
  unfold commandPlay_begin. destruct (getQueue (guild_id message) w) as [q w0].
  destruct (voice_channel message); [|by apply idle_emit].
  destruct args; by apply idle_emit.
Qed.

Lemma idle_commandPlay_found c w : idle_ok w → idle_ok (commandPlay_found c w).2.
Proof.
  intros H. unfold commandPlay_found.
  destruct (c_found c) as [v|]; [|by apply idle_emit].
  set (w1 := modify (c_queue c) (set_textChannel _) _).
  assert (H1 : idle_ok w1).
  { subst w1. apply idle_modify; [done|by right|]. by apply idle_modify; [done|by right|]. }
  assert (Hend : ∀ w2, idle_ok w2 →
            idle_ok (match heap w2 !! c_queue c with
                     | Some s =>
                         (true,
                          emit (Reply (if isPlaying s
                                       then AddedToQueue
                                              (mkTrack (vtitle v) (vurl v) (vduration v)
                                                 (vthumbnail v) (author_tag (c_message c)))
                                              (length (queue s) + 1)%nat
                                       else NowPlayingReply
                                              (mkTrack (vtitle v) (vurl v) (vduration v)
                                                 (vthumbnail v) (author_tag (c_message c)))
                                              (length (queue s)))) w2)
                     | None => (true, w2)
                     end).2).
  { intros w2 H2. destruct (heap w2 !! c_queue c); [by apply idle_emit | done]. }
  cbv zeta.
  destruct (heap w1 !! c_queue c) as [s|]; [|by apply Hend].
  destruct (connection s) as [cn|]; [by apply Hend|].
  destruct (negb _ || negb _); [by apply idle_emit|].
  unfold joinVoiceChannel. cbv beta iota zeta. apply Hend.
  apply idle_modify; [done|by right|]. apply idle_modify; [done|by right|].
  by apply (idle_same w1).
Qed.

Lemma idle_commandPlay_finish c w : idle_ok w → idle_ok (commandPlay_finish c w).
Proof.
  intros H. unfold commandPlay_finish.
  destruct (heap w !! c_queue c) as [s|]; [|done].
  destruct (isPlaying s); [done | by apply idle_playNextTrack].
Qed.

Lemma idle_commandPlay message args found w :
  idle_ok w → idle_ok (commandPlay message args found w).
Proof.
  intros H. rewrite commandPlay_phases.
  pose proof (idle_commandPlay_begin message args w H) as H1.
  destruct (commandPlay_begin message args w) as [[[q vc]|] w1]; [|done].
  simpl in H1.
  pose proof (idle_commandPlay_found (mkPlayCall message vc q found) w1 H1) as H2.
  cbv zeta. destruct (commandPlay_found _ w1) as [[] w2]; simpl in H2; [|done].
  by apply idle_commandPlay_finish.
Qed.

Lemma idle_commandSkip message b w : idle_ok w → idle_ok (commandSkip message b w).
Proof.
  intros H. unfold commandSkip.
  destruct (voice_channel message) as [vc|]; [|by apply idle_emit].
  destruct (queues w !! guild_id message) as [q|]; simpl; [|by apply idle_emit].
  destruct (heap w !! q) as [s|] eqn:Hs; simpl; [|by apply idle_emit].
  destruct (isPlaying s); simpl; [|by apply idle_emit].
  assert (Hend : ∀ w1, idle_ok w1 →
            idle_ok (match currentTrack s with
                     | Some t => emit (Reply (Skipped t)) w1
                     | None => w1
                     end)).
  { intros w1 H1. destruct (currentTrack s); [by apply idle_emit | done]. }
  apply Hend.
  destruct (loopMode s =? LoopMode.TRACK); [|by apply idle_player_stop].
  apply idle_modify; [done|by right|]. apply idle_player_stop.
  by apply idle_modify; [done|by right|].
Qed.

Lemma idle_commandStop message b w : idle_ok w → idle_ok (commandStop message b w).
Proof.
  intros H. unfold commandStop.
  destruct (voice_channel message) as [vc|]; [|by apply idle_emit].
  destruct (_ ≫= _) as [[q c]|]; [|by apply idle_emit].
  apply idle_emit, idle_set_queues, idle_clearIdleTimeout, idle_emit, idle_player_stop.
  apply idle_modify; [done|by left|].
  apply idle_modify; [done|by right|].
  apply idle_modify; [done|by right|]. exact H.
Qed.

Lemma idle_commandLoop message w : idle_ok w → idle_ok (commandLoop message w).
Proof.
  intros H. unfold commandLoop.
  destruct (_ ≫= _) as [[q s]|]; [|by apply idle_emit].
  apply idle_emit. by apply idle_modify; [done|by right|].
Qed.

Lemma idle_idleExpired g q w : idle_ok w → idle_ok (idleExpired g q w).
Proof.
  intros H. unfold idleExpired. destruct (heap w !! q) as [s|]; [|done].
  destruct (connection s) as [c|]; [|done].
  by apply idle_set_queues, idle_emit.
Qed.

Lemma idle_catch k w : idle_ok w → idle_ok (playNextTrack_catch k w).
Proof.
  intros H. unfold playNextTrack_catch.
  destruct (heap w !! s_queue k) as [s|]; [|done].
  destruct (retryCount s <? MAX_RETRIES).
  - apply idle_setTimeout_advance.
    by apply idle_modify; [done|by right|].
  - apply idle_setTimeout_advance.
    destruct (textChannel s); [by apply idle_emit | done].
Qed.

Lemma idle_resume k w : idle_ok w → idle_ok (playNextTrack_resume k w).
Proof.
  intros H. apply (idle_same w); [by rewrite resume_keeps_heap| |exact H].
  unfold playNextTrack_resume. simpl.
  destruct (heap w !! _) as [s0|]; [|done]. by destruct (textChannel s0).
Qed.

Lemma idle_step w e : idle_ok w → idle_ok (step w e).
Proof.
  intros H. destruct e; simpl.
  - by apply idle_commandPlay.
  - by apply idle_commandSkip.
  - by apply idle_commandStop.
  - by apply idle_commandLoop.
  - destruct (suspended w !! k) as [inv|]; [|done].
    by apply idle_resume, idle_set_suspended.
  - destruct (suspended w !! k) as [inv|]; [|done].
    by apply idle_catch, idle_set_suspended.
  - destruct (timers w !! t) as [[cb ms]|] eqn:Htm; [|done].
    destruct cb as [g|g q]; simpl.
    + apply idle_playNextTrack. by apply idle_clearTimeout.
    + apply idle_idleExpired. by apply idle_clearTimeout.
  - by apply idle_onIdle.
  - unfold onError. destruct (heap w !! q) as [s|]; [|done].
    destruct (listeners (player s)); [|done]. by apply idle_playNextTrack.
Qed.

Lemma idle_react b i : idle_ok (world b) → idle_ok (world (react b i)).
Proof.
  intros H. destruct i as [e|message args found|p|k]; simpl.
  - by apply idle_step.
  - pose proof (idle_commandPlay_begin message args (world b) H) as H1.
    by destruct (commandPlay_begin message args (world b)) as [[[q vc]|] w1].
  - destruct (plays b !! p) as [[c|c|c]|]; [done| |by apply idle_commandPlay_finish|done].
    pose proof (idle_commandPlay_found c (world b) H) as H1.
    by destruct (commandPlay_found c (world b)) as [[] w1].
  - destruct (sends b !! k) as [inv|]; [|done]. by apply idle_catch.
Qed.

Lemma serve_cons i inputs b : serve (i :: inputs) b = serve inputs (react b i).
Proof. reflexivity. Qed.

Lemma reachable_idle_ok inputs : idle_ok (world (serve inputs boot)).
Proof.
  assert (H : ∀ b, idle_ok (world b) → idle_ok (world (serve inputs b))).
  { induction inputs as [|i inputs IH]; intros b Hb; [done|].
    rewrite serve_cons. apply IH. by apply idle_react. }
  apply H. intros t g q ms Htm. simpl in Htm. by rewrite lookup_empty in Htm.
Qed.

(** X11: after any run of the event loop, with %play calls that overlap
    in any way and with failures after a stream has arrived, a pending
    idle timer is the one its session object records, the playing flag of
    that object is not set, and no other idle timer is pending on the
    object: arming the timer again replaces the previous one.  (The flag,
    not the player: a stream that arrives after the advancer has found the
    queue empty is still played while the timer runs.) *)
Theorem pending_idle_timer_is_recorded inputs t g q ms :
  timers (world (serve inputs boot)) !! t = Some (mkTimer (CbIdle g q) ms) →
  (∃ s, heap (world (serve inputs boot)) !! q = Some s
        ∧ idleTimeout s = Some t
        ∧ isPlaying s = false)
  ∧ (∀ t' g' ms',
       timers (world (serve inputs boot)) !! t' = Some (mkTimer (CbIdle g' q) ms') →
       t' = t).
Proof.
  intros Htm. pose proof (reachable_idle_ok inputs) as Hi.
  destruct (Hi t g q ms Htm) as (s & Hs & Hid & Hnp).
  split; [by exists s|].
  intros t' g' ms' Htm'.
  destruct (Hi t' g' q ms' Htm') as (s' & Hs' & Hid' & _). congruence.
Qed.

(** X11 once A has played to its end: idle timer 0 is pending. *)
Lemma pending_idle_timer_is_recorded_witness :
  timers (world (serve (Base <$> playedOut) boot)) !! 0%nat
  = Some (mkTimer (CbIdle "g" 0) IDLE_TIMEOUT)
  ∧ (∃ s, heap (world (serve (Base <$> playedOut) boot)) !! 0%nat = Some s
          ∧ idleTimeout s = Some 0%nat
          ∧ isPlaying s = false)
  ∧ (∀ t' g' ms',
       timers (world (serve (Base <$> playedOut) boot)) !! t'
       = Some (mkTimer (CbIdle g' 0) ms') → t' = 0%nat).
Proof.
  assert (H : timers (world (serve (Base <$> playedOut) boot)) !! 0%nat
              = Some (mkTimer (CbIdle "g" 0) IDLE_TIMEOUT)) by (vm_compute; reflexivity).
  split; [exact H|].
  exact (pending_idle_timer_is_recorded (Base <$> playedOut) 0 "g" 0 IDLE_TIMEOUT H).
Defined.

(** ** A stream that arrives after %stop *)

Section Awaiting.
Variables (k : nat) (inv : Suspended).

Local Abbreviation awaiting := (awaiting k inv).

Lemma awaiting_same w w' :
  suspended w' = suspended w → nextSuspended w' = nextSuspended w →
  awaiting w → awaiting w'.
Proof. unfold awaiting. intros -> ->. done. Qed.

Lemma awaiting_getQueue g w : awaiting w → awaiting (getQueue g w).2.
Proof. intros H. unfold getQueue. by destruct (queues w !! g). Qed.

Lemma awaiting_clearIdleTimeout g w : awaiting w → awaiting (clearIdleTimeout g w).
Proof.
  intros H. unfold clearIdleTimeout.
  destruct (queues w !! g) as [q|]; [|done].
  destruct (heap w !! q) as [s|]; [|done].
  by destruct (idleTimeout s).
Qed.

Lemma awaiting_setIdleTimeout g w : awaiting w → awaiting (setIdleTimeout g w).
Proof.
  intros H. apply (awaiting_clearIdleTimeout g) in H. unfold setIdleTimeout.
  by destruct (queues (clearIdleTimeout g w) !! g).
Qed.

Lemma awaiting_playNextTrack g w : awaiting w → awaiting (playNextTrack g w).
Proof.
  intros H. apply (awaiting_getQueue g) in H. unfold playNextTrack.
  destruct (getQueue g w) as [q w0]. simpl in H.
  destruct (heap w0 !! q) as [s|]; [|done].
  destruct (queue s) as [|hd tl].
  - apply awaiting_setIdleTimeout. exact H.
  - destruct (selectTrack s hd tl) as [track rest].
    apply (awaiting_clearIdleTimeout g) in H.
    destruct H as [Hk Hlt]. split; simpl; [|lia].
    rewrite lookup_insert_ne; [done|lia].
Qed.

Lemma awaiting_player_stop b q w : awaiting w → awaiting (player_stop b q w).
Proof.
  intros H. unfold player_stop.
  apply (awaiting_same w (emit (PlayerStop q) w) eq_refl eq_refl) in H.
  destruct b; [|done]. unfold onIdle.
  destruct (heap _ !! q) as [s|]; [|done].
  destruct (listeners (player s)) as [g|]; [|done].
  destruct (negb _); [by apply awaiting_playNextTrack | done].
Qed.

Lemma awaiting_commandStop message b w : awaiting w → awaiting (commandStop message b w).
Proof.
  intros H. unfold commandStop.
  destruct (voice_channel message); [|done].
  destruct (_ ≫= _) as [[q c]|]; [|done].
  apply (awaiting_same (clearIdleTimeout (guild_id message)
           (emit (ConnectionDestroy c)
              (player_stop b q
                 (modify q (set_isPlaying false)
                    (modify q (set_currentTrack None) (modify q (set_queue []) w)))))));
    [done|done|].
  apply awaiting_clearIdleTimeout.
  apply (awaiting_same (player_stop b q
                 (modify q (set_isPlaying false)
                    (modify q (set_currentTrack None) (modify q (set_queue []) w)))));
    [done|done|].
  by apply awaiting_player_stop.
Qed.
End Awaiting.

Lemma player_stop_stays_stopped b q w : evolves stays_stopped w (player_stop b q w).
Proof.
  apply evolves_player_stop; unfold stays_stopped, cleared; simpl; try tauto.
  intros s1 s2 s3 (A1 & B1 & C1) (A2 & B2 & C2). split; [tauto|]. split; congruence.
Qed.

(** X12: %stop does not cancel a call of the advancer that waits for its
    stream.  When the stream arrives after the stop, the track is started
    on the player of the removed session and announced in its text
    channel, although the guild has no session any more. *)
Theorem stream_outlives_stop message raisesIdle w vc q c s k t ch :
  voice_channel message = Some vc →
  queues w !! guild_id message = Some q →
  heap w !! q = Some s →
  connection s = Some c →
  textChannel s = Some ch →
  awaiting k (mkSuspended (guild_id message) q t) w →
  let w1 := commandStop message raisesIdle w in
  let w2 := step w1 (StreamReady k) in
  session (guild_id message) w2 = None
  ∧ out w2 = out w1 ++ [PlayerPlay q t; Send ch (NowPlaying t (loopMode s) 0)].
Proof.
  intros Hvc Hq Hs Hc Hch Hk w1 w2.
  pose proof (awaiting_commandStop k _ message raisesIdle w Hk) as [Hk1 _].
  fold w1 in Hk1.
  assert (Hact : active (guild_id message) w = Some (q, c)).
  { unfold active. rewrite Hq. simpl. rewrite Hs. simpl. by rewrite Hc. }
  assert (H1 : queues w1 !! guild_id message = None
               ∧ ∃ s1, heap w1 !! q = Some s1 ∧ queue s1 = []
                       ∧ textChannel s1 = Some ch ∧ loopMode s1 = loopMode s).
  { subst w1. unfold commandStop. rewrite Hvc.
    change (q ← queues w !! guild_id message; s ← heap w !! q; c ← connection s; Some (q, c))
      with (active (guild_id message) w).
    rewrite Hact. rewrite !modify_modify.
    set (w0 := modify q _ w).
    assert (Hs0 : heap w0 !! q
                  = Some (set_isPlaying false (set_currentTrack None (set_queue [] s))))
      by (subst w0; exact (lookup_modify_eq q _ w s Hs)).
    destruct (player_stop_stays_stopped raisesIdle q w0) as [_ Hh].
    destruct (Hh q _ Hs0) as (s1 & Hs1 & Hcl & Hch1 & Hlm1).
    destruct (clearIdleTimeout_lookup (guild_id message)
                (emit (ConnectionDestroy c) (player_stop raisesIdle q w0)) q s1 Hs1)
      as [v Hs3].
    split; [simpl; apply lookup_delete_eq|].
    exists (set_idleTimeout v s1). split; [exact Hs3|]. simpl.
    destruct Hcl as (Hqe & _); [by unfold cleared|].
    split; [exact Hqe|]. split; [by rewrite Hch1 | by rewrite Hlm1]. }
  destruct H1 as (Hgone & s1 & Hs1 & Hqe & Hch1 & Hlm1).
  assert (E : w2 = playNextTrack_resume (mkSuspended (guild_id message) q t)
                     (set_suspended (delete k (suspended w1)) w1)).
  { subst w2. unfold step. by rewrite Hk1. }
  rewrite E. unfold playNextTrack_resume. simpl. rewrite Hs1, Hch1, Hqe, Hlm1. simpl.
  split; [|by rewrite <- app_assoc].
  unfold session. simpl. by rewrite Hgone.
Qed.

(** X12 when %stop arrives while the stream of A is being fetched. *)
Lemma stream_outlives_stop_witness :
  session "g" (step (commandStop alice false fetchingA) (StreamReady 0)) = None
  ∧ out (step (commandStop alice false fetchingA) (StreamReady 0))
    = out (commandStop alice false fetchingA)
      ++ [PlayerPlay 0%nat trackA; Send "music" (NowPlaying trackA LoopMode.OFF 0)].
Proof.
  assert (H1 : queues fetchingA !! "g"%string = Some 0%nat) by (vm_compute; reflexivity).
  assert (H2 : heap fetchingA !! 0%nat = Some (the_session fetchingA))
    by (vm_compute; reflexivity).
  assert (H3 : connection (the_session fetchingA) = Some 0%nat) by (vm_compute; reflexivity).
  assert (H4 : textChannel (the_session fetchingA) = Some "music"%string)
    by (vm_compute; reflexivity).
  assert (H5 : awaiting 0 (mkSuspended "g" 0 trackA) fetchingA)
    by (split; [vm_compute; reflexivity | vm_compute; lia]).
  exact (stream_outlives_stop alice false fetchingA "vc"%string 0%nat 0%nat
           (the_session fetchingA) 0%nat trackA "music"%string eq_refl H1 H2 H3 H4 H5).
Defined.

(** ** Durations as text *)

Lemma has_colon_app a b : has_colon (a +:+ b) = has_colon a || has_colon b.
Proof. induction a as [|c a IH]; simpl; [done|]. by destruct (decide _). Qed.

Lemma has_colon_pretty_N_go x s : has_colon (pretty_N_go x s) = has_colon s.
Proof.
  revert s. induction (N.lt_wf_0 x) as [x _ IH]. intros s.
  destruct (decide (x = 0%N)) as [->|Hx]; [by rewrite pretty_N_go_0|].
  rewrite pretty_N_go_step by lia.
  rewrite IH by (apply N.div_lt; lia). simpl.
  assert (Hlt : (x mod 10 < 10)%N) by (apply N.mod_lt; lia).
  destruct (x mod 10)%N as [|p]; [done|].
  do 4 (destruct p as [p|p|]; try done); lia.
Qed.

Lemma has_colon_pretty_N (x : N) : has_colon (pretty x) = false.
Proof.
  unfold pretty, pretty_N. destruct (decide _); [done|].
  by rewrite has_colon_pretty_N_go.
Qed.

Lemma has_colon_pretty (x : Z) : 0 ≤ x → has_colon (pretty x) = false.
Proof.
  intros Hx. destruct x as [|p|p]; [done| |lia].
  apply (has_colon_pretty_N (Npos p)).
Qed.

Lemma has_colon_padStart2 s : has_colon (padStart2 s) = has_colon s.
Proof.
  unfold padStart2. rewrite has_colon_app.
  destruct (2 - String.length s)%nat as [|[|[|n]]] eqn:E; try done. lia.
Qed.

(** Two texts with a colon-free part before the first colon agree part by
    part. *)
Lemma split_at_colon a a' b b' :
  has_colon a = false → has_colon a' = false →
  a +:+ ":" +:+ b = a' +:+ ":" +:+ b' → a = a' ∧ b = b'.
Proof.
  revert a'. induction a as [|c a IH]; intros [|c' a'] Ha Ha' E; simpl in *.
  - by inversion E.
  - inversion E; subst c'. by destruct (decide _).
  - inversion E; subst c. by destruct (decide _).
  - inversion E; subst c'. destruct (decide _); [done|].
    destruct (IH a' Ha Ha' H1) as [-> ->]. done.
Qed.

Lemma padStart2_inj x y :
  0 ≤ x < 60 → 0 ≤ y < 60 →
  padStart2 (pretty x) = padStart2 (pretty y) → x = y.
Proof.
  intros Hx Hy E.
  assert (H : two_digit_fields_differ = true) by (vm_compute; reflexivity).
  assert (Hx' : In (Z.to_nat x) (seq 0 60)) by (apply in_seq; lia).
  assert (Hy' : In (Z.to_nat y) (seq 0 60)) by (apply in_seq; lia).
  pose proof (proj1 (forallb_forall _ _) H _ Hx') as H1. cbv beta in H1.
  pose proof (proj1 (forallb_forall _ _) H1 _ Hy') as H2. cbv beta in H2.
  rewrite !Z2Nat.id in H2 by lia. rewrite E, String.eqb_refl in H2. simpl in H2.
  apply Nat.eqb_eq in H2. lia.
Qed.

(** The hours, minutes and seconds of a duration determine it. *)
Lemma fields_determine n m :
  0 ≤ n → 0 ≤ m →
  n / 3600 = m / 3600 →
  Z.rem n 3600 / 60 = Z.rem m 3600 / 60 →
  Z.rem n 60 = Z.rem m 60 →
  n = m.
Proof.
  intros Hn Hm. rewrite !Z.rem_mod_nonneg by lia. intros Hh Hmin Hs.
  pose proof (Z.div_mod n 3600 ltac:(lia)) as Dn.
  pose proof (Z.div_mod m 3600 ltac:(lia)) as Dm.
  pose proof (Z.div_mod (n mod 3600) 60 ltac:(lia)) as En.
  pose proof (Z.div_mod (m mod 3600) 60 ltac:(lia)) as Em.
  pose proof (Z.div_mod n 60 ltac:(lia)) as Fn.
  pose proof (Z.div_mod m 60 ltac:(lia)) as Fm.
  pose proof (Z.mod_pos_bound n 3600 ltac:(lia)).
  pose proof (Z.mod_pos_bound m 3600 ltac:(lia)).
  pose proof (Z.mod_pos_bound n 60 ltac:(lia)).
  pose proof (Z.mod_pos_bound m 60 ltac:(lia)).
  pose proof (Z.mod_pos_bound (n mod 3600) 60 ltac:(lia)).
  pose proof (Z.mod_pos_bound (m mod 3600) 60 ltac:(lia)).
  lia.
Qed.

Lemma field_bounds n :
  0 ≤ n → 0 ≤ Z.rem n 3600 / 60 < 60 ∧ 0 ≤ Z.rem n 60 < 60.
Proof.
  intros Hn. rewrite !Z.rem_mod_nonneg by lia.
  pose proof (Z.mod_pos_bound n 3600 ltac:(lia)).
  pose proof (Z.mod_pos_bound n 60 ltac:(lia)).
  split; [|lia]. split; [apply Z.div_pos; lia|]. apply Z.div_lt_upper_bound; lia.
Qed.

(** Without hours, with hours, or zero: the text of a duration. *)
Lemma formatDuration_cases n :
  0 ≤ n →
  let h := n / 3600 in
  let mi := Z.rem n 3600 / 60 in
  let se := Z.rem n 60 in
  (n = 0 ∧ formatDuration n = "00:00")
  ∨ (0 < n ∧ h = 0 ∧ formatDuration n = pretty mi +:+ ":" +:+ padStart2 (pretty se))
  ∨ (0 < n ∧ 0 < h ∧ formatDuration n
       = pretty h +:+ ":" +:+ padStart2 (pretty mi) +:+ ":" +:+ padStart2 (pretty se)).
Proof.
  intros Hn h mi se. unfold formatDuration. fold h mi se.
  destruct (n =? 0) eqn:E0; [left; split; [lia|done]|]. right.
  assert (0 ≤ h) by (apply Z.div_pos; lia).
  destruct (0 <? h) eqn:Eh; [right|left]; (split; [lia|]); (split; [lia|done]).
Qed.

(** X13: two different durations, each a whole number of seconds and not
    negative, are never shown as the same text. *)
Theorem distinct_durations_read_differently n m :
  0 ≤ n → 0 ≤ m → n ≠ m → formatDuration n ≠ formatDuration m.
Proof.
  intros Hn Hm Hne E. apply Hne.
  destruct (field_bounds n Hn) as [Bmi Bse].
  destruct (field_bounds m Hm) as [Bmi' Bse'].
  assert (Hh : 0 ≤ n / 3600) by (apply Z.div_pos; lia).
  assert (Hh' : 0 ≤ m / 3600) by (apply Z.div_pos; lia).
  assert (C : ∀ a b, has_colon (a +:+ ":" +:+ b) = true).
  { intros a b. rewrite has_colon_app. simpl. by destruct (has_colon a). }
  assert (P : ∀ x, 0 ≤ x → has_colon (padStart2 (pretty x)) = false).
  { intros x Hx. by rewrite has_colon_padStart2, has_colon_pretty. }
  assert (Z00 : ∀ a b, has_colon a = false → has_colon b = false →
                       "00:00"%string = a +:+ ":" +:+ b → a = "00"%string ∧ b = "00"%string).
  { intros a b Ha Hb E'. by destruct (split_at_colon "00" a "00" b eq_refl Ha E'). }
  destruct (formatDuration_cases n Hn) as [[-> En]|[(Hp & H0 & En)|(Hp & H0 & En)]];
  destruct (formatDuration_cases m Hm) as [[-> Em]|[(Hp' & H0' & Em)|(Hp' & H0' & Em)]];
    rewrite ?En, ?Em in E; clear En Em.
  - done.
  - exfalso. apply Z00 in E as [E1 E2]; [|apply has_colon_pretty; lia|apply P; lia].
    assert (E3 : padStart2 (pretty 0) = padStart2 (pretty (Z.rem m 60))) by (by rewrite E2).
    apply padStart2_inj in E3; [|lia|lia].
    assert (E4 : padStart2 (pretty 0) = padStart2 (pretty (Z.rem m 3600 / 60))).
    { rewrite E1. reflexivity. }
    apply padStart2_inj in E4; [|lia|lia].
    assert (m = 0); [|lia].
    symmetry. apply fields_determine; try lia; rewrite ?H0'; done.
  - exfalso.
    apply (split_at_colon "00" _ "00" _ eq_refl) in E as [_ E2];
      [|apply has_colon_pretty; lia].
    pose proof (C (padStart2 (pretty (Z.rem m 3600 / 60))) (padStart2 (pretty (Z.rem m 60)))) as Hc.
    by rewrite <- E2 in Hc.
  - exfalso. symmetry in E.
    apply Z00 in E as [E1 E2]; [|apply has_colon_pretty; lia|apply P; lia].
    assert (E3 : padStart2 (pretty 0) = padStart2 (pretty (Z.rem n 60))) by (by rewrite E2).
    apply padStart2_inj in E3; [|lia|lia].
    assert (E4 : padStart2 (pretty 0) = padStart2 (pretty (Z.rem n 3600 / 60))).
    { rewrite E1. reflexivity. }
    apply padStart2_inj in E4; [|lia|lia].
    assert (n = 0); [|lia].
    symmetry. apply fields_determine; try lia; rewrite ?H0; done.
  - apply split_at_colon in E as [E1 E2]; [|apply has_colon_pretty; lia..].
    apply (inj pretty) in E1. apply padStart2_inj in E2; [|lia|lia].
    apply fields_determine; try lia.
  - exfalso.
    apply split_at_colon in E as [_ E2]; [|apply has_colon_pretty; lia..].
    pose proof (C (padStart2 (pretty (Z.rem m 3600 / 60))) (padStart2 (pretty (Z.rem m 60)))) as Hc.
    rewrite <- E2 in Hc. rewrite P in Hc; [done|lia].
  - exfalso. symmetry in E.
    apply (split_at_colon "00" _ "00" _ eq_refl) in E as [_ E2];
      [|apply has_colon_pretty; lia].
    pose proof (C (padStart2 (pretty (Z.rem n 3600 / 60))) (padStart2 (pretty (Z.rem n 60)))) as Hc.
    by rewrite <- E2 in Hc.
  - exfalso.
    apply split_at_colon in E as [_ E2]; [|apply has_colon_pretty; lia..].
    pose proof (C (padStart2 (pretty (Z.rem n 3600 / 60))) (padStart2 (pretty (Z.rem n 60)))) as Hc.
    rewrite E2 in Hc. rewrite P in Hc; [done|lia].
  - apply split_at_colon in E as [E1 E]; [|apply has_colon_pretty; lia..].
    apply split_at_colon in E as [E2 E3]; [|apply P; lia..].
    apply (inj pretty) in E1. apply padStart2_inj in E2; [|lia|lia].
    apply padStart2_inj in E3; [|lia|lia].
    apply fields_determine; try lia.
Qed.

(** X13 at 3:35 and 1:02:05. *)
Lemma distinct_durations_read_differently_witness :
  formatDuration 215 ≠ formatDuration 3725.
Proof. apply (distinct_durations_read_differently 215 3725); lia. Defined.

(** ** %skip outside TRACK mode *)

(** X14: with the loop off or in QUEUE mode, an accepted %skip moves on to
    the head of the queue, whether the player raises Idle inside [stop()]
    or afterwards; only the order of the stream request and the reply
    differs. *)
Theorem skip_advances_outside_track_loop message raisesIdle w q s a hd tl vc :
  voice_channel message = Some vc →
  queues w !! guild_id message = Some q → heap w !! q = Some s →
  listeners (player s) = Some (guild_id message) →
  isPlaying s = true → currentTrack s = Some a →
  loopMode s ≠ LoopMode.TRACK → queue s = hd :: tl →
  let w1 := commandSkip message raisesIdle w in
  let w2 := if raisesIdle then w1 else step w1 (PlayerIdle q) in
  heap w2 !! q = Some (load hd (selectTrack s hd tl).2 (set_idleTimeout None s))
  ∧ out w2 = out w ++ (if raisesIdle
                       then [PlayerStop q; Stream (url hd); Reply (Skipped a)]
                       else [PlayerStop q; Reply (Skipped a); Stream (url hd)]).
Proof.
  intros Hvc Hq Hs Hl Hp Hc Hm Hqueue w1 w2.
  assert (Hb : (loopMode s =? LoopMode.TRACK) = false) by (by apply Z.eqb_neq).
  assert (E1 : w1 = emit (Reply (Skipped a)) (player_stop raisesIdle q w)).
  { subst w1. unfold commandSkip. rewrite Hvc, Hq. simpl. rewrite Hs. simpl.
    by rewrite Hp, Hb, Hc. }
  destruct raisesIdle; subst w2; rewrite E1.
  - destruct (idle_selects_head (guild_id message) (emit (PlayerStop q) w) q s hd tl
                Hq Hs Hl Hm Hqueue) as (_ & H2 & H3).
    change (step (emit (PlayerStop q) w) (PlayerIdle q))
      with (player_stop true q w) in H2, H3.
    split; [exact H2|].
    change (out (emit (Reply (Skipped a)) (player_stop true q w)))
      with (out (player_stop true q w) ++ [Reply (Skipped a)]).
    rewrite H3. simpl. by rewrite <- !app_assoc.
  - destruct (idle_selects_head (guild_id message)
                (emit (Reply (Skipped a)) (player_stop false q w)) q s hd tl
                Hq Hs Hl Hm Hqueue) as (_ & H2 & H3).
    split; [exact H2|]. rewrite H3. simpl. by rewrite <- !app_assoc.
Qed.

(** X14 at A playing with B and C queued, Idle raised after [stop()]. *)
Lemma skip_advances_outside_track_loop_witness :
  heap (step (commandSkip alice false queuedBC) (PlayerIdle 0)) !! 0%nat
  = Some (load trackB [trackC] (set_idleTimeout None (the_session queuedBC)))
  ∧ out (step (commandSkip alice false queuedBC) (PlayerIdle 0))
    = out queuedBC ++ [PlayerStop 0%nat; Reply (Skipped trackA); Stream (url trackB)].
Proof.
  assert (H1 : queues queuedBC !! "g"%string = Some 0%nat) by (vm_compute; reflexivity).
  assert (H2 : heap queuedBC !! 0%nat = Some (the_session queuedBC))
    by (vm_compute; reflexivity).
  assert (H3 : listeners (player (the_session queuedBC)) = Some "g"%string)
    by (vm_compute; reflexivity).
  assert (H4 : isPlaying (the_session queuedBC) = true) by (vm_compute; reflexivity).
  assert (H5 : currentTrack (the_session queuedBC) = Some trackA)
    by (vm_compute; reflexivity).
  assert (H6 : loopMode (the_session queuedBC) ≠ LoopMode.TRACK)
    by (vm_compute; discriminate).
  assert (H7 : queue (the_session queuedBC) = [trackB; trackC])
    by (vm_compute; reflexivity).
  exact (skip_advances_outside_track_loop alice false queuedBC 0%nat
           (the_session queuedBC) trackA trackB [trackC] "vc"%string
           eq_refl H1 H2 H3 H4 H5 H6 H7).
Defined.

(** ** %play calls that overlap *)




























(** ** The error listener and the Idle listener both advance *)

(** X15: when the error listener and then the Idle listener run for the
    track that plays, with the loop off and one track queued, the first
    loads the queued track and the second finds the queue empty: the
    playing flag is cleared and the idle timer armed while the stream of
    the queued track is still being fetched.  When it arrives the track is
    started and announced, and when the idle timer expires the connection
    is destroyed and the session removed, whatever is playing. *)
Theorem idle_timer_expires_while_track_plays g w q s t c ch :
  queues w !! g = Some q → heap w !! q = Some s →
  listeners (player s) = Some g →
  loopMode s = LoopMode.OFF → queue s = [t] →
  connection s = Some c → textChannel s = Some ch →
  let k := nextSuspended w in
  let w1 := step w (PlayerError q) in
  let w2 := step w1 (PlayerIdle q) in
  let w3 := step w2 (StreamReady k) in
  let w4 := step w3 (TimerFired (nextTimer w)) in
  out w3 = out w ++ [Stream (url t); PlayerPlay q t; Send ch (NowPlaying t LoopMode.OFF 0)]
  ∧ (∃ s3, heap w3 !! q = Some s3 ∧ isPlaying s3 = false ∧ currentTrack s3 = None
           ∧ idleTimeout s3 = Some (nextTimer w))
  ∧ timers w3 !! nextTimer w = Some (mkTimer (CbIdle g q) IDLE_TIMEOUT)
  ∧ out w4 = out w3 ++ [ConnectionDestroy c]
  ∧ queues w4 !! g = None.
Proof.
  intros Hq Hs Hl Hm Hqu Hc Hch k w1 w2 w3 w4.
  (* the error listener loads the queued track *)
  assert (E1 : w1 = playNextTrack g w).
  { subst w1. simpl. unfold onError. by rewrite Hs, Hl. }
  destruct (playNextTrack_select g w q s t [] Hq Hs Hqu)
    as (Hq1 & Hs1 & _ & _ & Hn1 & Hsu1 & _ & Ho1).
  rewrite (selectTrack_OFF s t [] Hm) in Hs1, Hsu1, Ho1. simpl in Hs1, Hsu1, Ho1.
  rewrite <- E1 in Hq1, Hs1, Hn1, Hsu1, Ho1.
  set (s1 := load t [] (set_idleTimeout None s)) in *.
  (* the Idle listener finds the queue empty *)
  assert (E2 : w2 = playNextTrack g w1).
  { subst w2. simpl. unfold onIdle. rewrite Hs1. simpl. by rewrite Hl, Hm. }
  assert (Hq1' : queues w1 !! g = Some q) by (by rewrite Hq1).
  destruct (playNextTrack_empty g w1 q s1 Hq1' Hs1 eq_refl)
    as (Hq2 & Hs2 & Ht2 & _ & Hsu2 & Ho2).
  rewrite <- E2 in Hq2, Hs2, Ht2, Hsu2, Ho2. rewrite Hn1 in Hs2, Ht2.
  set (s2 := set_idleTimeout (Some (nextTimer w)) (unload s1)) in *.
  (* the stream arrives *)
  assert (Hk : suspended w2 !! k = Some (mkSuspended g q t)).
  { rewrite Hsu2, Hsu1. apply lookup_insert_eq. }
  assert (E3 : w3 = emit (Send ch (NowPlaying t LoopMode.OFF 0))
                      (emit (PlayerPlay q t) (set_suspended (delete k (suspended w2)) w2))).
  { subst w3. unfold step. rewrite Hk. unfold playNextTrack_resume. simpl.
    rewrite Hs2. simpl. by rewrite Hch, Hm. }
  assert (Hs3 : heap w3 !! q = Some s2) by (by rewrite E3).
  assert (Ht3 : timers w3 !! nextTimer w = Some (mkTimer (CbIdle g q) IDLE_TIMEOUT))
    by (by rewrite E3).
  assert (Ho3 : out w3 = out w ++ [Stream (url t); PlayerPlay q t;
                                   Send ch (NowPlaying t LoopMode.OFF 0)]).
  { rewrite E3. simpl. rewrite Ho2, Ho1. by rewrite <- !app_assoc. }
  split; [exact Ho3|]. split; [by exists s2|]. split; [exact Ht3|].
  (* the idle timer expires *)
  assert (E4 : w4 = set_queues (delete g (queues (clearTimeout (nextTimer w) w3)))
                      (emit (ConnectionDestroy c) (clearTimeout (nextTimer w) w3))).
  { subst w4. unfold step. rewrite Ht3. simpl. unfold idleExpired. simpl.
    rewrite Hs3. simpl. by rewrite Hc. }
  rewrite E4. simpl. split; [done|]. apply lookup_delete_eq.
Qed.

(** X15 at A playing with B queued. *)
Lemma idle_timer_expires_while_track_plays_witness :
  out (run [PlayerError 0%nat; PlayerIdle 0%nat; StreamReady 1%nat] queuedB)
  = out queuedB ++ [Stream (url trackB); PlayerPlay 0%nat trackB;
                    Send "music" (NowPlaying trackB LoopMode.OFF 0)]
  ∧ out (run [PlayerError 0%nat; PlayerIdle 0%nat; StreamReady 1%nat; TimerFired 0%nat] queuedB)
    = out (run [PlayerError 0%nat; PlayerIdle 0%nat; StreamReady 1%nat] queuedB)
      ++ [ConnectionDestroy 0%nat].
Proof.
  assert (H1 : queues queuedB !! "g"%string = Some 0%nat) by (vm_compute; reflexivity).
  assert (H2 : heap queuedB !! 0%nat = Some (the_session queuedB))
    by (vm_compute; reflexivity).
  assert (H3 : listeners (player (the_session queuedB)) = Some "g"%string)
    by (vm_compute; reflexivity).
  assert (H4 : loopMode (the_session queuedB) = LoopMode.OFF) by (vm_compute; reflexivity).
  assert (H5 : queue (the_session queuedB) = [trackB]) by (vm_compute; reflexivity).
  assert (H6 : connection (the_session queuedB) = Some 0%nat) by (vm_compute; reflexivity).
  assert (H7 : textChannel (the_session queuedB) = Some "music"%string)
    by (vm_compute; reflexivity).
  assert (N : nextSuspended queuedB = 1%nat) by (vm_compute; reflexivity).
  assert (T : nextTimer queuedB = 0%nat) by (vm_compute; reflexivity).
  pose proof (idle_timer_expires_while_track_plays "g"%string queuedB 0%nat
                (the_session queuedB) trackB 0%nat "music"%string
                H1 H2 H3 H4 H5 H6 H7) as H.
  cbv zeta in H. rewrite N, T in H.
  destruct H as (Ha & _ & _ & Hb & _). split; [exact Ha | exact Hb].
Defined.
